(** * arduino-audio-tools: TfLiteAudioStream

    A shallow embedding of the streaming feature-extraction and
    command-recognition code of [src/AudioLibs/TfLiteAudioStream.h]
    (classes [TfQuantizer], [TfLiteResultsQueue],
    [TfLiteMicroSpeechRecognizeCommands], [TfLiteMicroSpeachWriter]) and of
    its predecessor (classes [PreviousResultsQueue], [RecognizeCommands],
    [TfLiteAudioFeatureProvider]), followed by the properties of the
    design document that are checked against it.

    The result history is embedded twice: with the scores of a result held
    by value, as the predecessor declares them ([TfLiteResultsQueue],
    [TfLiteMicroSpeechRecognizeCommands]), and with the scores in an array
    on the free store, as [TfLiteAudioStream.h] declares them
    ([HeapResultsQueue], [HeapRecognizeCommands]).

    Conventions.
    - C++ integers are [Z]; where the width matters the conversion is
      written out ([wrap32], [wrap16], [wrap8], [to_uint8]).  Signed
      overflow is modelled as two's complement wrap-around.
    - C++ [float] is IEEE-754 binary32, through the Standard Library's
      executable specification [SpecFloat] at precision 24, [emax] 128.
    - [const char*] labels are addresses: the code only copies and compares
      the pointers, never the characters.
    - C arrays are lists, read and written by index.
    - The free store is a list of arrays by address; a computation on it
      has no result where the C++ code has undefined behaviour. *)

From Stdlib Require Import ZArith QArith Qabs Qround Qpower Lia Lqa Bool Sorted.
From Stdlib Require Import Floats.SpecFloat.
From stdpp Require Import base list.

Local Open Scope Z_scope.

(* ================================================================== *)
(** * Machine integers *)
(* ================================================================== *)

Definition INT32_MIN : Z := -2147483648.
Definition INT32_MAX : Z := 2147483647.

(** Two's complement reduction to a signed [w]-bit integer. *)
Definition wrap (w : Z) (x : Z) : Z := (x + 2 ^ (w - 1)) mod 2 ^ w - 2 ^ (w - 1).
Definition wrap8 : Z -> Z := wrap 8.
Definition wrap16 : Z -> Z := wrap 16.
Definition wrap32 : Z -> Z := wrap 32.
Definition to_uint8 (x : Z) : Z := x mod 256.

(** Reading cell [i] of a C array; cells outside the list read as 0. *)
Definition cell (l : list Z) (i : nat) : Z := default 0 (l !! i).
(** Reading an [int8_t] cell: the type admits only [-128..127]. *)
Definition cell8 (l : list Z) (i : nat) : Z := wrap8 (cell l i).

(** [memmove(mem + dst, mem + src, n)] on an array held as a list. *)
Definition memmove (mem : list Z) (dst src n : nat) : list Z :=
  take dst mem ++ take n (drop src mem) ++ drop (dst + n) mem.

(** [for (i = 0; i < |vals|; ++i) mem[off + i] = vals[i];] *)
Fixpoint store_at (mem : list Z) (off : nat) (vals : list Z) : list Z :=
  match vals with
  | [] => mem
  | v :: vals' => store_at (<[off := v]> mem) (S off) vals'
  end.

(* ================================================================== *)
(** * IEEE-754 binary32, the C++ [float] *)
(* ================================================================== *)

Module Float32.

Definition prec : Z := 24.
Definition emax : Z := 128.

Definition float : Type := spec_float.

Definition zero : float := S754_zero false.
(** Conversion of an integer, rounding to nearest even. *)
Definition of_int (n : Z) : float := binary_normalize prec emax n 0 false.
(** The float [m * 2^e], rounded to nearest even when not representable. *)
Definition of_bits (m e : Z) : float := binary_normalize prec emax m e false.

Definition add : float -> float -> float := SFadd prec emax.
Definition sub : float -> float -> float := SFsub prec emax.
Definition mul : float -> float -> float := SFmul prec emax.
Definition div : float -> float -> float := SFdiv prec emax.
Definition opp : float -> float := SFopp.
Definition eqb : float -> float -> bool := SFeqb.
Definition ltb : float -> float -> bool := SFltb.
Definition leb : float -> float -> bool := SFleb.

(** A decimal literal [num/den] whose numerator and denominator are
    exactly representable: the correctly rounded quotient is the value
    the compiler gives the literal ([25.6f] is [lit 256 10]). *)
Definition lit (num den : Z) : float := div (of_int num) (of_int den).

Definition is_finite (x : float) : bool :=
  match x with
  | S754_zero _ | S754_finite _ _ _ => true
  | S754_infinity _ | S754_nan => false
  end.

(** The rational number a finite float denotes (0 for the others). *)
Definition to_Q (x : float) : Q :=
  match x with
  | S754_finite s m e =>
      match e with
      | Z0 => cond_Zopp s (Zpos m) # 1
      | Zpos p => (cond_Zopp s (Zpos m) * Zpos (2 ^ p)) # 1
      | Zneg p => cond_Zopp s (Zpos m) # (2 ^ p)
      end
  | _ => 0%Q
  end.

(** Float to integer conversion discards the fractional part. *)
Definition truncate (x : float) : option Z :=
  match x with
  | S754_zero _ => Some 0
  | S754_finite s m e =>
      match e with
      | Z0 => Some (cond_Zopp s (Zpos m))
      | Zpos p => Some (cond_Zopp s (Zpos m * Zpos (2 ^ p)))
      | Zneg p => Some (cond_Zopp s (Zpos m / Zpos (2 ^ p)))
      end
  | S754_infinity _ | S754_nan => None
  end.

(** Conversion to a signed integer type with range [lo..hi]: undefined
    ([None]) when the truncated value does not fit the type. *)
Definition to_int (lo hi : Z) (x : float) : option Z :=
  match truncate x with
  | Some z => if (lo <=? z) && (z <=? hi) then Some z else None
  | None => None
  end.
Definition to_int8 : float -> option Z := to_int (-128) 127.
Definition to_int32 : float -> option Z := to_int INT32_MIN INT32_MAX.

End Float32.

(* ================================================================== *)
(** * Rounding in binary32 *)
(* ================================================================== *)

Module Float32Rounding.
Import Float32.

(** [2^e] as a rational, for an exponent of either sign. *)
Definition pow2 (e : Z) : Q := Qpower 2 e.

(** The unit roundoff [2^-24] of binary32, and half its smallest
    subnormal, [2^-150]. *)
Definition u : Q := pow2 (- prec).
Definition eta : Q := pow2 (emin prec emax - 1).

(** The position [d], from 0 up to 1, that a rounding location stands
    for: exact, below the middle, the middle, above it. *)
Definition loc_in (l : location) (d : Q) : Prop :=
  match l with
  | loc_Exact => (d == 0)%Q
  | loc_Inexact Lt => (0 < d)%Q /\ (d < 1 # 2)%Q
  | loc_Inexact Eq => (d == 1 # 2)%Q
  | loc_Inexact Gt => (1 # 2 < d)%Q /\ (d < 1)%Q
  end.

End Float32Rounding.

(** Truncation toward zero of a rational, the mathematical counterpart of
    the conversion above. *)
Definition Qtrunc (q : Q) : Z := if Qle_bool 0 q then Qfloor q else Qceiling q.

(** [round()] of C: to nearest, halfway cases away from zero. *)
Definition Qround_half_away (q : Q) : Z :=
  if Qle_bool 0 q then Qfloor (q + (1 # 2)) else Qceiling (q - (1 # 2)).

Definition clamp (lo hi x : Z) : Z := Z.max lo (Z.min hi x).

(* ================================================================== *)
(** * TfQuantizer *)
(* ================================================================== *)

Module TfQuantizer.
Import Float32.

(** [static int8_t quantize(float value, float scale, float zero_point)] *)
Definition quantize (value scale zero_point : float) : option Z :=
  if eqb scale zero && eqb zero_point zero then to_int8 value
  else to_int8 (add (div value scale) zero_point).

(** [static float dequantize(int8_t value, float scale, float zero_point)] *)
Definition dequantize (value : Z) (scale zero_point : float) : float :=
  if eqb scale zero && eqb zero_point zero then of_int value
  else mul (sub (of_int value) zero_point) scale.

(** [static float clip(float value, float range)] *)
Definition clip (value range : float) : float :=
  if leb zero value then
    (if ltb range value then range else value)
  else
    (if ltb (opp value) (opp range) then opp range else value).

(** [static float dequantizeToNewRange(int8_t value, float scale,
    float zero_point, float new_range)] *)
Definition dequantizeToNewRange (value : Z) (scale zero_point new_range : float)
  : float :=
  let deq := mul (sub (of_int value) zero_point) scale in
  clip (mul deq new_range) new_range.

(** What the design document states for [quantize]:
    [round(v/scale) + zero_point], saturated to the int8 range. *)
Definition quantize_documented (v scale zero_point : Q) : Z :=
  clamp (-128) 127 (Qround_half_away (v / scale) + Qround_half_away zero_point).

End TfQuantizer.

(* ================================================================== *)
(** * Feature quantization of [generateMicroFeatures] *)
(* ================================================================== *)

(** [constexpr int32_t value_scale = 256;] *)
Definition value_scale : Z := 256.

(** [constexpr int32_t value_div =
      static_cast<int32_t>((25.6f * 26.0f) + 0.5f);] *)
Definition value_div : Z :=
  default 0
    (Float32.to_int32
       (Float32.add (Float32.mul (Float32.lit 256 10) (Float32.of_int 26))
          (Float32.lit 1 2))).

(** The body of the loop over the frontend output, for one raw value:
<<
      int32_t value = ((values[i] * value_scale) + (value_div / 2)) / value_div;
      value -= 128;
      if (value < -128) value = -128;
      if (value > 127) value = 127;
      output[i] = value;
>> *)
Definition quantize_feature (raw : Z) : Z :=
  let value :=
    wrap32 (wrap32 (raw * value_scale) + value_div ÷ 2) ÷ value_div in
  let value := wrap32 (value - 128) in
  let value := if value <? -128 then -128 else value in
  let value := if value >? 127 then 127 else value in
  wrap8 value.

(* ================================================================== *)
(** * TfLiteConfig *)
(* ================================================================== *)

(** A [const char*]: the address of a label string. *)
Definition cstr : Type := Z.

Record TfLiteConfig : Type := {
  sample_rate : Z;
  channels : Z;
  kFeatureSliceSize : Z;
  kFeatureSliceCount : Z;
  kFeatureSliceStrideMs : Z;
  kFeatureSliceDurationMs : Z;
  kSlicesToProcess : Z;
  average_window_duration_ms : Z;   (* int32_t *)
  detection_threshold : Z;          (* uint8_t *)
  suppression_ms : Z;               (* int32_t *)
  minimum_count : Z;                (* int32_t *)
  (** [labels] and [kCategoryCount], set together by [setCategories] *)
  labels : list cstr
}.

Definition defaultConfig : TfLiteConfig := {|
  sample_rate := 16000;
  channels := 1;
  kFeatureSliceSize := 40;
  kFeatureSliceCount := 49;
  kFeatureSliceStrideMs := 20;
  kFeatureSliceDurationMs := 30;
  kSlicesToProcess := 2;
  average_window_duration_ms := 1000;
  detection_threshold := 200;
  suppression_ms := 1500;
  minimum_count := 3;
  labels := []
|}.

Definition setCategories (cfg : TfLiteConfig) (array : list cstr) : TfLiteConfig :=
  {| sample_rate := sample_rate cfg;
     channels := channels cfg;
     kFeatureSliceSize := kFeatureSliceSize cfg;
     kFeatureSliceCount := kFeatureSliceCount cfg;
     kFeatureSliceStrideMs := kFeatureSliceStrideMs cfg;
     kFeatureSliceDurationMs := kFeatureSliceDurationMs cfg;
     kSlicesToProcess := kSlicesToProcess cfg;
     average_window_duration_ms := average_window_duration_ms cfg;
     detection_threshold := detection_threshold cfg;
     suppression_ms := suppression_ms cfg;
     minimum_count := minimum_count cfg;
     labels := array |}.

Definition categoryCount (cfg : TfLiteConfig) : Z := Z.of_nat (length (labels cfg)).
Definition featureElementCount (cfg : TfLiteConfig) : Z :=
  kFeatureSliceSize cfg * kFeatureSliceCount cfg.
Definition audioSampleSize (cfg : TfLiteConfig) : Z :=
  kFeatureSliceDurationMs cfg * (sample_rate cfg ÷ 1000).
Definition strideSampleSize (cfg : TfLiteConfig) : Z :=
  kFeatureSliceStrideMs cfg * (sample_rate cfg ÷ 1000).

(** [cfg.labels[i]]; a null pointer outside the array. *)
Definition label_at (cfg : TfLiteConfig) (i : Z) : cstr :=
  cell (labels cfg) (Z.to_nat i).

(* ================================================================== *)
(** * TfLiteResultsQueue *)
(* ================================================================== *)

Module TfLiteResultsQueue.

(** [struct Result]: an inference result and the time it was recorded.
    The scores are held by value, as in [PreviousResultsQueue<N>::Result]
    ([int8_t scores[N]]), so that assigning or copying a result copies
    its scores.  [TfLiteAudioStream.h] declares [int8_t *scores] instead;
    that version is [HeapResultsQueue.Result] below. *)
Record Result : Type := { time_ : Z; scores : list Z }.

(** [Result()] *)
Definition Result_default : Result := {| time_ := 0; scores := [] |}.
(** [Result(int categoryCount, int32_t time, int8_t* input_scores)] *)
Definition Result_make (categoryCount time : Z) (input_scores : list Z) : Result :=
  {| time_ := time; scores := take (Z.to_nat categoryCount) input_scores |}.

Definition kMaxResults : Z := 50.

Record t : Type := {
  results_ : list Result;   (* Result results_[kMaxResults] *)
  front_index_ : Z;
  size_ : Z
}.

Definition create : t :=
  {| results_ := replicate (Z.to_nat kMaxResults) Result_default;
     front_index_ := 0;
     size_ := 0 |}.

(** [void begin(int categoryCount)]: [setCategoryCount] gives every stored
    result a fresh array of [categoryCount] scores (read here as zeros);
    the indices are not reset. *)
Definition begin (q : t) (categoryCount : Z) : t :=
  {| results_ :=
       (fun r => {| time_ := time_ r;
                    scores := replicate (Z.to_nat categoryCount) 0 |})
       <$> results_ q;
     front_index_ := front_index_ q;
     size_ := size_ q |}.

(** [results_[i]] *)
Definition at_index (q : t) (i : Z) : Result :=
  default Result_default (results_ q !! Z.to_nat i).

Definition size (q : t) : Z := size_ q.
Definition empty (q : t) : bool := size_ q =? 0.
Definition front (q : t) : Result := at_index q (front_index_ q).

Definition back_index (q : t) : Z :=
  let back_index := front_index_ q + (size_ q - 1) in
  if back_index >=? kMaxResults then back_index - kMaxResults else back_index.
Definition back (q : t) : Result := at_index q (back_index q).

Definition push_back (q : t) (entry : Result) : t :=
  if size q >=? kMaxResults then q
  else
    let q' := {| results_ := results_ q;
                 front_index_ := front_index_ q;
                 size_ := size_ q + 1 |} in
    {| results_ := <[Z.to_nat (back_index q') := entry]> (results_ q');
       front_index_ := front_index_ q';
       size_ := size_ q' |}.

Definition pop_front (q : t) : Result * t :=
  if size q <=? 0 then (Result_default, q)
  else
    let result := front q in
    let front_index := front_index_ q + 1 in
    let front_index := if front_index >=? kMaxResults then 0 else front_index in
    (result, {| results_ := results_ q;
                front_index_ := front_index;
                size_ := size_ q - 1 |}).

Definition from_front (q : t) (offset : Z) : Result :=
  let offset :=
    if (offset <? 0) || (offset >=? size_ q) then size_ q - 1 else offset in
  let index := front_index_ q + offset in
  let index := if index >=? kMaxResults then index - kMaxResults else index in
  at_index q index.

(** The entries of the queue, oldest first. *)
Definition contents (q : t) : list Result :=
  (fun k : nat => from_front q (Z.of_nat k)) <$> seq 0 (Z.to_nat (size_ q)).

(** The array and the indices stay within the fixed capacity. *)
Definition wf (q : t) : Prop :=
  length (results_ q) = Z.to_nat kMaxResults /\
  0 <= front_index_ q < kMaxResults /\
  0 <= size_ q <= kMaxResults.

End TfLiteResultsQueue.

(* ================================================================== *)
(** * TfLiteMicroSpeechRecognizeCommands *)
(* ================================================================== *)

Inductive TfLiteStatus : Type := kTfLiteOk | kTfLiteError.

(** The element types of a tensor that the code distinguishes. *)
Inductive TfLiteType : Type :=
  kTfLiteNoType | kTfLiteFloat32 | kTfLiteInt32 | kTfLiteUInt8 | kTfLiteInt8.

Definition is_kTfLiteInt8 (ty : TfLiteType) : bool :=
  match ty with kTfLiteInt8 => true | _ => false end.

(** The fields of [TfLiteTensor] that the recognizer reads. *)
Record TfLiteTensor : Type := {
  dims : list Z;        (* dims->size is the length, dims->data the entries *)
  type : TfLiteType;
  data_int8 : list Z
}.

(** The three out-parameters of [processLatestResults]. *)
Record Recognition : Type := {
  found_command : cstr;
  score : Z;               (* uint8_t *)
  is_new_command : bool
}.

Module TfLiteMicroSpeechRecognizeCommands.
Import TfLiteResultsQueue.

Record t : Type := {
  cfg : TfLiteConfig;
  kCategoryCount : Z;
  started : bool;
  previous_results_ : TfLiteResultsQueue.t;
  previous_top_label_ : cstr;
  previous_top_label_time_ : Z    (* int32_t *)
}.

(** The constructor; [silence] is the address of the literal ["silence"]. *)
Definition create (silence : cstr) : t :=
  {| cfg := defaultConfig;
     kCategoryCount := 0;
     started := false;
     previous_results_ := TfLiteResultsQueue.create;
     previous_top_label_ := silence;
     previous_top_label_time_ := INT32_MIN |}.

(** [bool begin(TfLiteConfig cfg)].  The configuration and the category
    count are stored before the checks; [cfg.labels == nullptr] cannot
    differ from [kCategoryCount == 0] here, since [setCategories] sets both
    from one array. *)
Definition begin (self : t) (c : TfLiteConfig) : bool * t :=
  let self1 := {| cfg := c;
                  kCategoryCount := categoryCount c;
                  started := started self;
                  previous_results_ := previous_results_ self;
                  previous_top_label_ := previous_top_label_ self;
                  previous_top_label_time_ := previous_top_label_time_ self |} in
  if categoryCount c =? 0 then (false, self1)
  else
    (true, {| cfg := c;
              kCategoryCount := categoryCount c;
              started := true;
              previous_results_ :=
                TfLiteResultsQueue.begin (previous_results_ self)
                  (categoryCount c);
              previous_top_label_ := previous_top_label_ self;
              previous_top_label_time_ := previous_top_label_time_ self |}).

Definition with_results (self : t) (q : TfLiteResultsQueue.t) : t :=
  {| cfg := cfg self;
     kCategoryCount := kCategoryCount self;
     started := started self;
     previous_results_ := q;
     previous_top_label_ := previous_top_label_ self;
     previous_top_label_time_ := previous_top_label_time_ self |}.

Definition with_top (self : t) (label : cstr) (time : Z) : t :=
  {| cfg := cfg self;
     kCategoryCount := kCategoryCount self;
     started := started self;
     previous_results_ := previous_results_ self;
     previous_top_label_ := label;
     previous_top_label_time_ := time |}.

(** The shape and type checks on the output tensor. *)
Definition bad_shape (self : t) (latest_results : TfLiteTensor) : bool :=
  negb (Z.of_nat (length (dims latest_results)) =? 2)
  || negb (cell (dims latest_results) 0 =? 1)
  || negb (cell (dims latest_results) 1 =? kCategoryCount self).

(** [(!previous_results_.empty()) &&
     (current_time_ms < previous_results_.front().time_)] *)
Definition out_of_order (self : t) (current_time_ms : Z) : bool :=
  negb (empty (previous_results_ self))
  && (current_time_ms <? time_ (front (previous_results_ self))).

(** The four early returns with [kTfLiteError]. *)
Definition rejects (self : t) (latest_results : TfLiteTensor)
    (current_time_ms : Z) : bool :=
  negb (started self)
  || bad_shape self latest_results
  || negb (is_kTfLiteInt8 (type latest_results))
  || out_of_order self current_time_ms.

(** [while ((!q.empty()) && q.front().time_ < time_limit) q.pop_front();]
    Each iteration removes one entry, so [size] iterations are enough. *)
Fixpoint prune_loop (fuel : nat) (q : TfLiteResultsQueue.t) (time_limit : Z)
  : TfLiteResultsQueue.t :=
  match fuel with
  | O => q
  | S fuel' =>
      if negb (empty q) && (time_ (front q) <? time_limit)
      then prune_loop fuel' (snd (pop_front q)) time_limit
      else q
  end.
Definition prune (q : TfLiteResultsQueue.t) (time_limit : Z) : TfLiteResultsQueue.t :=
  prune_loop (Z.to_nat (size q)) q time_limit.

(** The history after the new result was pushed and old ones pruned. *)
Definition surviving (self : t) (latest_results : TfLiteTensor)
    (current_time_ms : Z) : TfLiteResultsQueue.t :=
  let q := push_back (previous_results_ self)
             (Result_make (kCategoryCount self) current_time_ms
                (data_int8 latest_results)) in
  let time_limit := wrap32 (current_time_ms - average_window_duration_ms (cfg self)) in
  prune q time_limit.

(** [(how_many_results < minimum_count) ||
     (samples_duration < (average_window_duration_ms / 4))] *)
Definition insufficient (c : TfLiteConfig) (q : TfLiteResultsQueue.t)
    (current_time_ms : Z) : bool :=
  let how_many_results := size q in
  let earliest_time := time_ (front q) in
  let samples_duration := current_time_ms - earliest_time in
  (how_many_results <? minimum_count c)
  || (samples_duration <? average_window_duration_ms c ÷ 4).

(** One pass of the inner loop over the categories, for the entry at
    [offset]. *)
Definition accumulate (q : TfLiteResultsQueue.t) (n : nat)
    (average_scores : list Z) (offset : nat) : list Z :=
  let scores := scores (from_front q (Z.of_nat offset)) in
  (fun i : nat =>
     if Z.of_nat offset =? 0 then cell8 scores i + 128
     else wrap32 (cell average_scores i + (cell8 scores i + 128)))
  <$> seq 0 n.

(** The two loops that fill [average_scores], for a window that is not
    empty.  (For an empty window the C++ code divides cells that were
    never written by zero; this function gives 0 there, and
    [HeapRecognizeCommands.average_scores] no result.) *)
Definition average_scores (q : TfLiteResultsQueue.t) (n : nat) : list Z :=
  let sums := foldl (accumulate q n) (replicate n 0) (seq 0 (Z.to_nat (size q))) in
  (fun s : Z => s ÷ size q) <$> sums.

(** The search for the highest scoring category:
    [(current_top_index, current_top_score)]. *)
Definition find_top (average_scores : list Z) (n : nat) : Z * Z :=
  foldl (fun (top : Z * Z) (i : nat) =>
           if cell average_scores i >? snd top
           then (Z.of_nat i, cell average_scores i) else top)
        (0, 0) (seq 0 n).

Definition time_since_last_top (self : t) (current_time_ms : Z) : Z :=
  if (previous_top_label_ self =? label_at (cfg self) 0)
     || (previous_top_label_time_ self =? INT32_MIN)
  then INT32_MAX
  else wrap32 (current_time_ms - previous_top_label_time_ self).

(** [TfLiteStatus processLatestResults(const TfLiteTensor* latest_results,
      const int32_t current_time_ms, const char** found_command,
      uint8_t* score, bool* is_new_command)].
    [out] holds the values the three out-parameters point to before the
    call; the result holds them after it. *)
Definition processLatestResults (self : t) (latest_results : TfLiteTensor)
    (current_time_ms : Z) (out : Recognition)
  : TfLiteStatus * Recognition * t :=
  if negb (started self) then (kTfLiteError, out, self)
  else if bad_shape self latest_results then (kTfLiteError, out, self)
  else if negb (is_kTfLiteInt8 (type latest_results)) then (kTfLiteError, out, self)
  else if out_of_order self current_time_ms then (kTfLiteError, out, self)
  else
    let q := surviving self latest_results current_time_ms in
    let self := with_results self q in
    if insufficient (cfg self) q current_time_ms then
      (kTfLiteOk,
       {| found_command := previous_top_label_ self;
          score := 0;
          is_new_command := false |},
       self)
    else
      let average := average_scores q (Z.to_nat (kCategoryCount self)) in
      let top := find_top average (Z.to_nat (kCategoryCount self)) in
      let current_top_index := fst top in
      let current_top_score := snd top in
      let current_top_label := label_at (cfg self) current_top_index in
      if (current_top_score >? detection_threshold (cfg self))
         && (negb (current_top_label =? previous_top_label_ self)
             || (time_since_last_top self current_time_ms >? suppression_ms (cfg self)))
      then
        (kTfLiteOk,
         {| found_command := current_top_label;
            score := to_uint8 current_top_score;
            is_new_command := true |},
         with_top self current_top_label current_time_ms)
      else
        (kTfLiteOk,
         {| found_command := current_top_label;
            score := to_uint8 current_top_score;
            is_new_command := false |},
         self).

(** Feeding a list of [(tensor, time)] results in order, collecting the
    status and the out-parameters of every call. *)
Fixpoint feed (self : t) (out : Recognition)
    (inputs : list (TfLiteTensor * Z))
  : list (TfLiteStatus * Recognition) * t :=
  match inputs with
  | [] => ([], self)
  | (tensor, time) :: rest =>
      let '(status, out', self') := processLatestResults self tensor time out in
      let '(answers, final) := feed self' out' rest in
      ((status, out') :: answers, final)
  end.

(** The mean of the re-biased scores of category [i] over the entries of
    the queue, as an integer quotient. *)
Definition mean_score (q : TfLiteResultsQueue.t) (i : nat) : Z :=
  foldr Z.add 0 ((fun r => cell8 (scores r) i + 128) <$> contents q) ÷ size q.

End TfLiteMicroSpeechRecognizeCommands.

(* ================================================================== *)
(** * The free store *)
(* ================================================================== *)

(** In [TfLiteAudioStream.h] the scores of a stored result are an array
    on the free store ([int8_t *scores], allocated by [setCategoryCount]
    and released by the destructor).  The modules below follow that code
    with the pointers it uses; the two modules above hold the scores by
    value, as the predecessor [PreviousResultsQueue<N>] does. *)

Module Heap.

(** An array obtained from [new int8_t[count]]: its cells while it is
    live ([None] for a cell that was never written), or freed. *)
Inductive block : Type :=
  | Live (cells : list (option Z))
  | Freed.

(** A pointer to such an array; [None] is [nullptr]. *)
Definition ptr : Type := option nat.

(** A computation on the free store, which is the list of the arrays
    allocated so far, by address; an address is not given out a second
    time, so a pointer to a freed array stays recognizable.  The result
    [None] stands for undefined behaviour (an access to an array that is
    not live, or outside it, or a division by zero). *)
Definition M (A : Type) : Type := list block -> option (A * list block).

Definition ret {A : Type} (a : A) : M A := fun h => Some (a, h).

Definition bind {A B : Type} (m : M A) (k : A -> M B) : M B :=
  fun h => match m h with
           | Some (a, h') => k a h'
           | None => None
           end.

Definition undefined {A : Type} : M A := fun _ => None.

(** [new int8_t[count]]: a fresh array of [count] cells that were never
    written ([count] is a category count, never negative). *)
Definition new_array (count : Z) : M ptr :=
  fun h => Some (Some (length h),
                 h ++ [Live (replicate (Z.to_nat count) None)]).

(** [delete[] p] for a pointer that is not null; deleting an array twice
    is undefined. *)
Definition delete_array (a : nat) : M unit :=
  fun h => match h !! a with
           | Some (Live _) => Some (tt, <[a := Freed]> h)
           | _ => None
           end.

(** The cells [p[0]] to [p[n - 1]]. *)
Definition read_cells (p : ptr) (n : nat) : M (list (option Z)) :=
  fun h => match p with
           | Some a =>
               match h !! a with
               | Some (Live cells) =>
                   if decide (n <= length cells)%nat
                   then Some (take n cells, h) else None
               | _ => None
               end
           | None => None
           end.

(** Writing [vals] to the cells [p[0]] to [p[|vals| - 1]]. *)
Definition write_cells (p : ptr) (vals : list (option Z)) : M unit :=
  fun h => match p with
           | Some a =>
               match h !! a with
               | Some (Live cells) =>
                   if decide (length vals <= length cells)%nat
                   then Some (tt, <[a := Live (vals ++ drop (length vals) cells)]> h)
                   else None
               | _ => None
               end
           | None => None
           end.

(** The values of cells that are all initialised; using the value of a
    cell that was never written is undefined. *)
Definition values (cells : list (option Z)) : M (list Z) :=
  match mapM (fun c : option Z => c) cells with
  | Some vs => ret vs
  | None => undefined
  end.

(** A computation that leaves the array at [a] freed once it is. *)
Definition keeps_freed {A : Type} (a : nat) (m : M A) : Prop :=
  forall (h h' : list block) (r : A),
    h !! a = Some Freed -> m h = Some (r, h') -> h' !! a = Some Freed.

(** [memmove(dst, src, n)] on two such arrays; nothing is accessed when
    [n] is 0. *)
Definition memmove (dst src : ptr) (n : Z) : M unit :=
  if n =? 0 then ret tt
  else bind (read_cells src (Z.to_nat n)) (fun cells => write_cells dst cells).

End Heap.

(* ================================================================== *)
(** * TfLiteResultsQueue with its scores on the free store *)
(* ================================================================== *)

Module HeapResultsQueue.
Import Heap.

(** [struct Result] of [TfLiteAudioStream.h]:
    [int kCategoryCount = 0; int32_t time_ = 0; int8_t *scores = nullptr;] *)
Record Result : Type := {
  kCategoryCount : Z;
  time_ : Z;
  scores : ptr
}.

(** [Result() = default] *)
Definition Result_default : Result :=
  {| kCategoryCount := 0; time_ := 0; scores := None |}.

(** [void setCategoryCount(int count)]: the array that [scores] pointed
    to before is not released. *)
Definition setCategoryCount (r : Result) (count : Z) : M Result :=
  bind (new_array count) (fun p =>
  ret {| kCategoryCount := count; time_ := time_ r; scores := p |}).

(** [Result(int categoryCount, int32_t time, int8_t* input_scores)]: the
    loop copies [input_scores[0 .. kCategoryCount - 1]]; reading past the
    end of the input is undefined. *)
Definition Result_make (categoryCount time : Z) (input_scores : list Z)
  : M Result :=
  bind (setCategoryCount {| kCategoryCount := 0; time_ := time; scores := None |}
          categoryCount) (fun r =>
  if decide (Z.to_nat (kCategoryCount r) <= length input_scores)%nat then
    bind (write_cells (scores r)
            (Some <$> take (Z.to_nat (kCategoryCount r)) input_scores)) (fun _ =>
    ret r)
  else undefined).

(** The copy constructor:
<<
    Result (const Result &old_obj){
      setCategoryCount(old_obj.kCategoryCount);
      time_ = old_obj.time_;
      memmove(scores,old_obj.scores,kCategoryCount);
    }
>> *)
Definition Result_copy (old_obj : Result) : M Result :=
  bind (setCategoryCount Result_default (kCategoryCount old_obj)) (fun r =>
  let r := {| kCategoryCount := kCategoryCount r;
              time_ := time_ old_obj;
              scores := scores r |} in
  bind (memmove (scores r) (scores old_obj) (kCategoryCount r)) (fun _ =>
  ret r)).

(** The destructor: [if (scores!=nullptr) delete []scores;] *)
Definition Result_destroy (r : Result) : M unit :=
  match scores r with
  | Some a => delete_array a
  | None => ret tt
  end.

Definition kMaxResults : Z := 50.

Record t : Type := {
  results_ : list Result;   (* Result results_[kMaxResults] *)
  front_index_ : Z;
  size_ : Z
}.

Definition create : t :=
  {| results_ := replicate (Z.to_nat kMaxResults) Result_default;
     front_index_ := 0;
     size_ := 0 |}.

(** [void begin(int categoryCount)]: [setCategoryCount] on every cell of
    [results_]. *)
Fixpoint begin_loop (rs : list Result) (categoryCount : Z) : M (list Result) :=
  match rs with
  | [] => ret []
  | r :: rs' =>
      bind (setCategoryCount r categoryCount) (fun r' =>
      bind (begin_loop rs' categoryCount) (fun rs'' =>
      ret (r' :: rs'')))
  end.

Definition begin (q : t) (categoryCount : Z) : M t :=
  bind (begin_loop (results_ q) categoryCount) (fun rs =>
  ret {| results_ := rs; front_index_ := front_index_ q; size_ := size_ q |}).

(** [results_[i]] *)
Definition at_index (q : t) (i : Z) : Result :=
  default Result_default (results_ q !! Z.to_nat i).

Definition size (q : t) : Z := size_ q.
Definition empty (q : t) : bool := size_ q =? 0.
Definition front (q : t) : Result := at_index q (front_index_ q).

Definition back_index (q : t) : Z :=
  let back_index := front_index_ q + (size_ q - 1) in
  if back_index >=? kMaxResults then back_index - kMaxResults else back_index.
Definition back (q : t) : Result := at_index q (back_index q).

(** [void push_back(const Result& entry)].  [Result] declares no
    assignment operator, so [back() = entry] is the member-wise
    assignment: the cell receives the pointer [entry.scores], not a copy
    of the array. *)
Definition push_back (q : t) (entry : Result) : t :=
  if size q >=? kMaxResults then q
  else
    let q' := {| results_ := results_ q;
                 front_index_ := front_index_ q;
                 size_ := size_ q + 1 |} in
    {| results_ := <[Z.to_nat (back_index q') := entry]> (results_ q');
       front_index_ := front_index_ q';
       size_ := size_ q' |}.

(** [Result pop_front()]: [Result result = front();] runs the copy
    constructor, and [result] is what the caller receives. *)
Definition pop_front (q : t) : M (Result * t) :=
  if size q <=? 0 then ret (Result_default, q)
  else
    bind (Result_copy (front q)) (fun result =>
    let front_index := front_index_ q + 1 in
    let front_index := if front_index >=? kMaxResults then 0 else front_index in
    ret (result, {| results_ := results_ q;
                    front_index_ := front_index;
                    size_ := size_ q - 1 |})).

(** [Result& from_front(int offset)] *)
Definition from_front (q : t) (offset : Z) : Result :=
  let offset :=
    if (offset <? 0) || (offset >=? size_ q) then size_ q - 1 else offset in
  let index := front_index_ q + offset in
  let index := if index >=? kMaxResults then index - kMaxResults else index in
  at_index q index.

(** The array and the indices stay within the fixed capacity. *)
Definition wf (q : t) : Prop :=
  length (results_ q) = Z.to_nat kMaxResults /\
  0 <= front_index_ q < kMaxResults /\
  0 <= size_ q <= kMaxResults.

(** Every entry of the history points to an array that was freed. *)
Definition dangling (q : t) (h : list block) : Prop :=
  forall i : Z, 0 <= i < size q ->
    exists a : nat,
      scores (from_front q i) = Some a /\ h !! a = Some Freed
      /\ kCategoryCount (from_front q i) <> 0.

End HeapResultsQueue.

(* ================================================================== *)
(** * TfLiteMicroSpeechRecognizeCommands over that queue *)
(* ================================================================== *)

Module HeapRecognizeCommands.
Import Heap HeapResultsQueue.

Record t : Type := {
  cfg : TfLiteConfig;
  kCategoryCount : Z;
  started : bool;
  previous_results_ : HeapResultsQueue.t;
  previous_top_label_ : cstr;
  previous_top_label_time_ : Z    (* int32_t *)
}.

(** The constructor; [silence] is the address of the literal ["silence"]. *)
Definition create (silence : cstr) : t :=
  {| cfg := defaultConfig;
     kCategoryCount := 0;
     started := false;
     previous_results_ := HeapResultsQueue.create;
     previous_top_label_ := silence;
     previous_top_label_time_ := INT32_MIN |}.

(** [bool begin(TfLiteConfig cfg)]; as in the version by value, the test
    [cfg.labels == nullptr] cannot differ from [kCategoryCount == 0]. *)
Definition begin (self : t) (c : TfLiteConfig) : M (bool * t) :=
  let self1 := {| cfg := c;
                  kCategoryCount := categoryCount c;
                  started := started self;
                  previous_results_ := previous_results_ self;
                  previous_top_label_ := previous_top_label_ self;
                  previous_top_label_time_ := previous_top_label_time_ self |} in
  if categoryCount c =? 0 then ret (false, self1)
  else
    bind (HeapResultsQueue.begin (previous_results_ self) (categoryCount c))
      (fun q =>
    ret (true, {| cfg := c;
                  kCategoryCount := categoryCount c;
                  started := true;
                  previous_results_ := q;
                  previous_top_label_ := previous_top_label_ self;
                  previous_top_label_time_ := previous_top_label_time_ self |})).

Definition with_results (self : t) (q : HeapResultsQueue.t) : t :=
  {| cfg := cfg self;
     kCategoryCount := kCategoryCount self;
     started := started self;
     previous_results_ := q;
     previous_top_label_ := previous_top_label_ self;
     previous_top_label_time_ := previous_top_label_time_ self |}.

Definition with_top (self : t) (label : cstr) (time : Z) : t :=
  {| cfg := cfg self;
     kCategoryCount := kCategoryCount self;
     started := started self;
     previous_results_ := previous_results_ self;
     previous_top_label_ := label;
     previous_top_label_time_ := time |}.

(** The four early returns with [kTfLiteError] (l.371-398). *)
Definition rejects (self : t) (latest_results : TfLiteTensor)
    (current_time_ms : Z) : bool :=
  negb (started self)
  || (negb (Z.of_nat (length (dims latest_results)) =? 2)
      || negb (cell (dims latest_results) 0 =? 1)
      || negb (cell (dims latest_results) 1 =? kCategoryCount self))
  || negb (is_kTfLiteInt8 (type latest_results))
  || (negb (empty (previous_results_ self))
      && (current_time_ms <? time_ (front (previous_results_ self)))).

(** [previous_results_.push_back({kCategoryCount, current_time_ms,
    latest_results->data.int8});] (l.401): the braces build a temporary
    [Result], [push_back] assigns it to the cell at the back, and the
    temporary is destroyed at the end of the statement. *)
Definition push_latest (self : t) (latest_results : TfLiteTensor)
    (current_time_ms : Z) : M HeapResultsQueue.t :=
  bind (Result_make (kCategoryCount self) current_time_ms
          (data_int8 latest_results)) (fun entry =>
  let q := push_back (previous_results_ self) entry in
  bind (Result_destroy entry) (fun _ =>
  ret q)).

(** [while ((!q.empty()) && q.front().time_ < time_limit) q.pop_front();]
    The result that [pop_front] returns is destroyed at once. *)
Fixpoint prune_loop (fuel : nat) (q : HeapResultsQueue.t) (time_limit : Z)
  : M HeapResultsQueue.t :=
  match fuel with
  | O => ret q
  | S fuel' =>
      if negb (empty q) && (time_ (front q) <? time_limit)
      then
        bind (pop_front q) (fun p =>
        bind (Result_destroy (fst p)) (fun _ =>
        prune_loop fuel' (snd p) time_limit))
      else ret q
  end.

Definition prune (q : HeapResultsQueue.t) (time_limit : Z) : M HeapResultsQueue.t :=
  prune_loop (Z.to_nat (size q)) q time_limit.

(** The history after the new result was pushed and old ones pruned
    (l.400-408). *)
Definition window (self : t) (latest_results : TfLiteTensor)
    (current_time_ms : Z) : M HeapResultsQueue.t :=
  bind (push_latest self latest_results current_time_ms) (fun q =>
  prune q (wrap32 (current_time_ms - average_window_duration_ms (cfg self)))).

(** [(how_many_results < minimum_count) ||
     (samples_duration < (average_window_duration_ms / 4))] *)
Definition insufficient (c : TfLiteConfig) (q : HeapResultsQueue.t)
    (current_time_ms : Z) : bool :=
  let how_many_results := size q in
  let earliest_time := time_ (front q) in
  let samples_duration := current_time_ms - earliest_time in
  (how_many_results <? minimum_count c)
  || (samples_duration <? average_window_duration_ms c ÷ 4).

(** One round of the loop over [offset] (l.425-435).
    [auto previous_result = previous_results_.from_front(offset);] copies
    the stored entry with the copy constructor; [scores[i]] is read from
    the copy for every category, and the copy is destroyed at the end of
    the round. *)
Definition accumulate (q : HeapResultsQueue.t) (n : nat)
    (average_scores : list Z) (offset : nat) : M (list Z) :=
  bind (Result_copy (from_front q (Z.of_nat offset))) (fun previous_result =>
  bind (read_cells (scores previous_result) n) (fun cells =>
  bind (values cells) (fun scores =>
  bind (Result_destroy previous_result) (fun _ =>
  ret ((fun i : nat =>
          if Z.of_nat offset =? 0 then cell8 scores i + 128
          else wrap32 (cell average_scores i + (cell8 scores i + 128)))
       <$> seq 0 n))))).

Fixpoint accumulate_all (q : HeapResultsQueue.t) (n : nat)
    (average_scores : list Z) (offsets : list nat) : M (list Z) :=
  match offsets with
  | [] => ret average_scores
  | offset :: rest =>
      bind (accumulate q n average_scores offset) (fun average_scores' =>
      accumulate_all q n average_scores' rest)
  end.

(** The loops that fill [average_scores] (l.424-438).  The array is not
    initialised, and [average_scores[i] /= how_many_results] divides by
    zero when the window is empty. *)
Definition average_scores (q : HeapResultsQueue.t) (n : nat) : M (list Z) :=
  bind (accumulate_all q n (replicate n 0) (seq 0 (Z.to_nat (size q))))
    (fun sums =>
  if (size q =? 0) && negb (Nat.eqb n 0) then undefined
  else ret ((fun s : Z => s ÷ size q) <$> sums)).

Definition time_since_last_top (self : t) (current_time_ms : Z) : Z :=
  if (previous_top_label_ self =? label_at (cfg self) 0)
     || (previous_top_label_time_ self =? INT32_MIN)
  then INT32_MAX
  else wrap32 (current_time_ms - previous_top_label_time_ self).

(** The end of [processLatestResults] (l.440-472), from the averaged
    scores on: the search for the highest scoring category and the rule
    for a new command.  The result holds the three out-parameters and the
    recognizer after the call. *)
Definition report_top (self : t) (average_scores : list Z) (current_time_ms : Z)
  : Recognition * t :=
  let top :=
    TfLiteMicroSpeechRecognizeCommands.find_top average_scores
      (Z.to_nat (kCategoryCount self)) in
  let current_top_index := fst top in
  let current_top_score := snd top in
  let current_top_label := label_at (cfg self) current_top_index in
  if (current_top_score >? detection_threshold (cfg self))
     && (negb (current_top_label =? previous_top_label_ self)
         || (time_since_last_top self current_time_ms
             >? suppression_ms (cfg self)))
  then
    ({| found_command := current_top_label;
        score := to_uint8 current_top_score;
        is_new_command := true |},
     with_top self current_top_label current_time_ms)
  else
    ({| found_command := current_top_label;
        score := to_uint8 current_top_score;
        is_new_command := false |},
     self).

(** [processLatestResults] (l.365-473); [out] holds the values of the
    three out-parameters before the call. *)
Definition processLatestResults (self : t) (latest_results : TfLiteTensor)
    (current_time_ms : Z) (out : Recognition)
  : M (TfLiteStatus * Recognition * t) :=
  if rejects self latest_results current_time_ms
  then ret (kTfLiteError, out, self)
  else
    bind (window self latest_results current_time_ms) (fun q =>
    let self := with_results self q in
    if insufficient (cfg self) q current_time_ms then
      ret (kTfLiteOk,
           {| found_command := previous_top_label_ self;
              score := 0;
              is_new_command := false |},
           self)
    else
      bind (average_scores q (Z.to_nat (kCategoryCount self))) (fun average =>
      let r := report_top self average current_time_ms in
      ret (kTfLiteOk, fst r, snd r))).

(** Feeding [(tensor, time)] results in order from a given state of the
    free store; [None] as soon as a call is undefined. *)
Fixpoint feed (self : t) (out : Recognition) (inputs : list (TfLiteTensor * Z))
  : M (list (TfLiteStatus * Recognition) * t) :=
  match inputs with
  | [] => ret ([], self)
  | (tensor, time) :: rest =>
      bind (processLatestResults self tensor time out) (fun r =>
      bind (feed (snd r) (snd (fst r)) rest) (fun rs =>
      ret ((fst (fst r), snd (fst r)) :: fst rs, snd rs)))
  end.

End HeapRecognizeCommands.

(* ================================================================== *)
(** * RingBuffer<int16_t> *)
(* ================================================================== *)

Module RingBuffer.

(** Modelled from the spec: the class [audio_tools::RingBuffer<int16_t>]
    of [AudioTools/Buffers.h] is not among the sources.  A bounded FIFO
    of fixed capacity; [items] holds the unread samples, oldest first. *)
Record t : Type := { max_size : Z; items : list Z }.

(** Modelled from the spec: the constructor [RingBuffer(size)], a buffer
    of fixed capacity that starts empty. *)
Definition create (size : Z) : t := {| max_size := size; items := [] |}.

(** Modelled from the spec: [available()], the number of unread samples. *)
Definition available (rb : t) : Z := Z.of_nat (length (items rb)).

(** Modelled from the spec: [availableForWrite()], the free space, so
    that used + free is the capacity. *)
Definition availableForWrite (rb : t) : Z := max_size rb - available rb.

(** Modelled from the spec: [write(sample)] appends one sample if
    [availableForWrite() > 0] and fails otherwise, without overwriting. *)
Definition write (rb : t) (sample : Z) : bool * t :=
  if availableForWrite rb >? 0
  then (true, {| max_size := max_size rb; items := items rb ++ [sample] |})
  else (false, rb).

(** Modelled from the spec: [readArray(dst, maxCount)] drains up to
    [maxCount] samples in FIFO order and returns them (their number is
    the result of the call). *)
Definition readArray (rb : t) (maxCount : Z) : list Z * t :=
  (take (Z.to_nat maxCount) (items rb),
   {| max_size := max_size rb; items := drop (Z.to_nat maxCount) (items rb) |}).

(** Modelled from the spec: [writeArray(src, len)] re-injects samples,
    as many as fit. *)
Definition writeArray (rb : t) (src : list Z) : Z * t :=
  let accepted := take (Z.to_nat (availableForWrite rb)) src in
  (Z.of_nat (length accepted),
   {| max_size := max_size rb; items := items rb ++ accepted |}).

End RingBuffer.

(* ================================================================== *)
(** * TfLiteMicroSpeachWriter *)
(* ================================================================== *)

Module TfLiteMicroSpeachWriter.
Section WithFrontend.

(** The spectral frontend of TensorFlow Lite Micro is an external
    library: its state and [FrontendProcessSamples], which maps the state
    and the input samples to the new state and the output values
    ([frontend_output.values], of length [frontend_output.size]). *)
Variable FrontendState : Type.
Variable FrontendProcessSamples : FrontendState -> list Z -> FrontendState * list Z.

Record t : Type := {
  cfg : TfLiteConfig;
  p_feature_data : list Z;        (* int8_t[featureElementCount] *)
  p_audio_samples : list Z;       (* int16_t[kMaxAudioSampleSize] *)
  p_buffer : RingBuffer.t;
  g_micro_features_state : FrontendState;
  kMaxAudioSampleSize : Z;
  kStrideSampleSize : Z;
  kKeepSampleSize : Z;
  last_value : Z;                 (* int16_t *)
  channel : Z;                    (* int8_t *)
  current_time : Z;
  total_slice_count : Z
}.

(** [begin(parent)] on a fresh writer, with the frontend state that
    [initializeMicroFeatures] produced. *)
Definition begin (c : TfLiteConfig) (frontend : FrontendState) : t :=
  {| cfg := c;
     p_feature_data := replicate (Z.to_nat (featureElementCount c)) 0;
     p_audio_samples := replicate (Z.to_nat (audioSampleSize c)) 0;
     p_buffer := RingBuffer.create (audioSampleSize c);
     g_micro_features_state := frontend;
     kMaxAudioSampleSize := audioSampleSize c;
     kStrideSampleSize := strideSampleSize c;
     kKeepSampleSize := audioSampleSize c - strideSampleSize c;
     last_value := 0;
     channel := 0;
     current_time := 0;
     total_slice_count := 0 |}.

Definition with_buffer (self : t) (rb : RingBuffer.t) : t :=
  {| cfg := cfg self;
     p_feature_data := p_feature_data self;
     p_audio_samples := p_audio_samples self;
     p_buffer := rb;
     g_micro_features_state := g_micro_features_state self;
     kMaxAudioSampleSize := kMaxAudioSampleSize self;
     kStrideSampleSize := kStrideSampleSize self;
     kKeepSampleSize := kKeepSampleSize self;
     last_value := last_value self;
     channel := channel self;
     current_time := current_time self;
     total_slice_count := total_slice_count self |}.

Definition with_channel (self : t) (value ch : Z) : t :=
  {| cfg := cfg self;
     p_feature_data := p_feature_data self;
     p_audio_samples := p_audio_samples self;
     p_buffer := p_buffer self;
     g_micro_features_state := g_micro_features_state self;
     kMaxAudioSampleSize := kMaxAudioSampleSize self;
     kStrideSampleSize := kStrideSampleSize self;
     kKeepSampleSize := kKeepSampleSize self;
     last_value := value;
     channel := ch;
     current_time := current_time self;
     total_slice_count := total_slice_count self |}.

(** [virtual bool write1(const int16_t sample)]:
<<
  if (cfg.channels == 1) {
    p_buffer->write(sample);
  } else {
    if (channel == 0) {
      last_value = sample;
      channel = 1;
    } else
      p_buffer->write(((sample / 2) + (last_value / 2)));
    channel = 0;
  }
  return p_buffer->availableForWrite() > 0;
>>
    The inner [else] has no braces: it governs the call of [write] only,
    and [channel = 0] is executed on both paths. *)
Definition write1 (self : t) (sample : Z) : bool * t :=
  let self :=
    if channels (cfg self) =? 1 then
      with_buffer self (snd (RingBuffer.write (p_buffer self) sample))
    else
      let self :=
        if channel self =? 0 then with_channel self sample 1
        else
          with_buffer self
            (snd (RingBuffer.write (p_buffer self)
                    (wrap16 (sample ÷ 2 + last_value self ÷ 2)))) in
      with_channel self (last_value self) 0
  in
  (RingBuffer.availableForWrite (p_buffer self) >? 0, self).

(** [write1] on each sample of a block, in order. *)
Definition write1_all (self : t) (samples : list Z) : t :=
  foldl (fun w sample => snd (write1 w sample)) self samples.

(** [generateMicroFeatures(input, input_size, output, output_size,
    &num_samples_read)]: [input] is the block of [input_size] samples,
    [output] the cell [off] of the array [mem].  Every value the frontend
    returns is quantized and stored. *)
Definition generateMicroFeatures (frontend : FrontendState) (input : list Z)
    (mem : list Z) (off : nat) : FrontendState * list Z :=
  let '(frontend', values) := FrontendProcessSamples frontend input in
  (frontend', store_at mem off (quantize_feature <$> values)).

(** The samples that [addSlice] drains from the ring buffer. *)
Definition drained (self : t) : list Z :=
  fst (RingBuffer.readArray (p_buffer self) (kMaxAudioSampleSize self)).

(** [virtual int8_t* addSlice()] *)
Definition addSlice (self : t) : t :=
  let slice_size := Z.to_nat (kFeatureSliceSize (cfg self)) in
  let last_slice :=
    Z.to_nat ((kFeatureSliceCount (cfg self) - 1) * kFeatureSliceSize (cfg self)) in
  (* shift p_feature_data by one slice *)
  let feature := memmove (p_feature_data self) 0 slice_size last_slice in
  (* copy data from buffer to p_audio_samples *)
  let '(samples, rb) :=
    RingBuffer.readArray (p_buffer self) (kMaxAudioSampleSize self) in
  let audio := store_at (p_audio_samples self) 0 samples in
  let audio_samples_size := length samples in
  (* keep some data to be reprocessed *)
  let rb :=
    snd (RingBuffer.writeArray rb
           (take (Z.to_nat (kKeepSampleSize self))
              (drop (Z.to_nat (kStrideSampleSize self)) audio))) in
  (* the new slice data is stored at the end *)
  let '(frontend, feature) :=
    generateMicroFeatures (g_micro_features_state self)
      (take audio_samples_size audio) feature last_slice in
  {| cfg := cfg self;
     p_feature_data := feature;
     p_audio_samples := audio;
     p_buffer := rb;
     g_micro_features_state := frontend;
     kMaxAudioSampleSize := kMaxAudioSampleSize self;
     kStrideSampleSize := kStrideSampleSize self;
     kKeepSampleSize := kKeepSampleSize self;
     last_value := last_value self;
     channel := channel self;
     current_time := current_time self;
     total_slice_count := total_slice_count self |}.

End WithFrontend.

Arguments cfg {FrontendState} _.
Arguments p_feature_data {FrontendState} _.
Arguments p_audio_samples {FrontendState} _.
Arguments p_buffer {FrontendState} _.
Arguments g_micro_features_state {FrontendState} _.
Arguments kMaxAudioSampleSize {FrontendState} _.
Arguments last_value {FrontendState} _.
Arguments channel {FrontendState} _.
Arguments begin {FrontendState} _ _.
Arguments write1 {FrontendState} _ _.
Arguments write1_all {FrontendState} _ _.
Arguments drained {FrontendState} _.
Arguments addSlice {FrontendState} _ _.


Arguments current_time {FrontendState} _.
Arguments total_slice_count {FrontendState} _.
Arguments kStrideSampleSize {FrontendState} _.
Arguments kKeepSampleSize {FrontendState} _.

Section WithInterpreter.

Variable FrontendState : Type.
Variable FrontendProcessSamples : FrontendState -> list Z -> FrontendState * list Z.

(** The interpreter of TensorFlow Lite Micro is an external library as
    well: its state and [Invoke], which runs the model on the content of
    the input buffer and gives the status, the output tensor [output(0)]
    and the new state. *)
Variable Interpreter : Type.
Variable Invoke : Interpreter -> list Z -> TfLiteStatus * TfLiteTensor * Interpreter.

(** The recognizer is reached through the interface
    [TfLiteAbstractRecognizeCommands] ([cfg.recognizeCommands]): its
    state, and [processLatestResults] with the output tensor, the current
    time and the values of the three out-parameters, which gives the
    status, the out-parameters and the new state. *)
Variable Recognizer : Type.
Variable ProcessLatestResults :
  Recognizer -> TfLiteTensor -> Z -> Recognition
  -> TfLiteStatus * Recognition * Recognizer.

(** A writer with the objects that it reaches through pointers: the
    recognizer [*cfg.recognizeCommands], the interpreter
    [parent->interpreter()], and the arguments of the calls of
    [respondToCommand] made so far, oldest first. *)
Record linked : Type := {
  this : t FrontendState;
  recognizeCommands : Recognizer;
  interpreter : Interpreter;
  responses : list Recognition
}.

Definition with_this (env : linked) (self : t FrontendState) : linked :=
  {| this := self;
     recognizeCommands := recognizeCommands env;
     interpreter := interpreter env;
     responses := responses env |}.

Definition with_time (self : t FrontendState) (time count : Z) : t FrontendState :=
  {| cfg := cfg self;
     p_feature_data := p_feature_data self;
     p_audio_samples := p_audio_samples self;
     p_buffer := p_buffer self;
     g_micro_features_state := g_micro_features_state self;
     kMaxAudioSampleSize := kMaxAudioSampleSize self;
     kStrideSampleSize := kStrideSampleSize self;
     kKeepSampleSize := kKeepSampleSize self;
     last_value := last_value self;
     channel := channel self;
     current_time := time;
     total_slice_count := count |}.

(** [virtual void respondToCommand(const char* found_command,
    uint8_t score, bool is_new_command)]: the callback of the
    configuration, or a line on the console. *)
Definition respondToCommand (env : linked) (r : Recognition) : linked :=
  {| this := this env;
     recognizeCommands := recognizeCommands env;
     interpreter := interpreter env;
     responses := responses env ++ [r] |}.

(** [virtual bool processSlices(int8_t* feature_buffer)], called with the
    feature data:
<<
  memcpy(parent->modelInputBuffer(), feature_buffer, cfg.featureElementCount());
  TfLiteStatus invoke_status = parent->interpreter().Invoke();
  if (invoke_status != kTfLiteOk) return false;
  TfLiteTensor* output = parent->interpreter().output(0);
  const char* found_command = nullptr;
  uint8_t score = 0;
  bool is_new_command = false;
  TfLiteStatus process_status = cfg.recognizeCommands->processLatestResults(
      output, current_time, &found_command, &score, &is_new_command);
  if (process_status != kTfLiteOk) return false;
  respondToCommand(found_command, score, is_new_command);
  return true;
>> *)
Definition processSlices (env : linked) : bool * linked :=
  let self := this env in
  let input :=
    take (Z.to_nat (featureElementCount (cfg self))) (p_feature_data self) in
  let '(invoke_status, output, interp) := Invoke (interpreter env) input in
  match invoke_status with
  | kTfLiteError =>
      (false,
       {| this := self;
          recognizeCommands := recognizeCommands env;
          interpreter := interp;
          responses := responses env |})
  | kTfLiteOk =>
      let '(process_status, out, recognizer) :=
        ProcessLatestResults
          (recognizeCommands env) output (current_time self)
          {| found_command := 0; score := 0; is_new_command := false |} in
      let env :=
        {| this := self;
           recognizeCommands := recognizer;
           interpreter := interp;
           responses := responses env |} in
      match process_status with
      | kTfLiteError => (false, env)
      | kTfLiteOk => (true, respondToCommand env out)
      end
  end.

(** [virtual bool write(int16_t sample)]:
<<
  if (!write1(sample)) {
    current_time += cfg.kFeatureSliceStrideMs;
    total_slice_count++;
    int8_t* feature_buffer = addSlice();
    if (total_slice_count >= cfg.kSlicesToProcess) {
      processSlices(feature_buffer);
      total_slice_count = 0;
    }
  }
  return true;
>> *)
Definition write (env : linked) (sample : Z) : bool * linked :=
  let '(room, self) := write1 (this env) sample in
  if room then (true, with_this env self)
  else
    let time := wrap32 (current_time self + kFeatureSliceStrideMs (cfg self)) in
    let count := wrap16 (total_slice_count self + 1) in
    let self := addSlice FrontendProcessSamples (with_time self time count) in
    let env := with_this env self in
    if count >=? kSlicesToProcess (cfg self) then
      let env := snd (processSlices env) in
      (true, with_this env (with_time (this env) (current_time (this env)) 0))
    else (true, env).

(** [write] on each sample of a block, in order. *)
Definition write_all (env : linked) (samples : list Z) : linked :=
  foldl (fun e sample => snd (write e sample)) env samples.

End WithInterpreter.

Arguments this {FrontendState Interpreter Recognizer} _.
Arguments recognizeCommands {FrontendState Interpreter Recognizer} _.
Arguments interpreter {FrontendState Interpreter Recognizer} _.
Arguments responses {FrontendState Interpreter Recognizer} _.
Arguments write {FrontendState} _ {Interpreter} _ {Recognizer} _ _ _.
Arguments write_all {FrontendState} _ {Interpreter} _ {Recognizer} _ _ _.
Arguments processSlices {FrontendState Interpreter} _ {Recognizer} _ _.

End TfLiteMicroSpeachWriter.

(** Slice [k] of a feature matrix whose slices have [slice_size] entries. *)
Definition slice (data : list Z) (slice_size k : nat) : list Z :=
  take slice_size (drop (k * slice_size) data).

(* ================================================================== *)
(** * TfLiteAudioFeatureProvider, the predecessor of the writer *)
(* ================================================================== *)

Module TfLiteAudioFeatureProvider.
Section WithFrontend.

Variable FrontendState : Type.
Variable FrontendProcessSamples : FrontendState -> list Z -> FrontendState * list Z.

Record t : Type := {
  kMaxAudioSampleSize : Z;
  kAudioChannels : Z;
  kFeatureSliceSize : Z;
  kFeatureSliceCount : Z;
  feature_data_ : list Z;
  p_buffer : RingBuffer.t;
  g_micro_features_state : FrontendState
}.

(** A provider with the default settings, for [channels] channels, after
    [begin()]. *)
Definition begin (channels : Z) (frontend : FrontendState) : t :=
  {| kMaxAudioSampleSize := 480;
     kAudioChannels := channels;
     kFeatureSliceSize := 40;
     kFeatureSliceCount := 49;
     feature_data_ := replicate (Z.to_nat (40 * 49)) 0;
     p_buffer := RingBuffer.create 480;
     g_micro_features_state := frontend |}.

Definition with_buffer (self : t) (rb : RingBuffer.t) : t :=
  {| kMaxAudioSampleSize := kMaxAudioSampleSize self;
     kAudioChannels := kAudioChannels self;
     kFeatureSliceSize := kFeatureSliceSize self;
     kFeatureSliceCount := kFeatureSliceCount self;
     feature_data_ := feature_data_ self;
     p_buffer := rb;
     g_micro_features_state := g_micro_features_state self |}.

(** [void addSlice()] *)
Definition addSlice (self : t) : t :=
  let slice_size := Z.to_nat (kFeatureSliceSize self) in
  let last_slice :=
    Z.to_nat ((kFeatureSliceCount self - 1) * kFeatureSliceSize self) in
  let feature := memmove (feature_data_ self) 0 slice_size last_slice in
  let '(samples, rb) :=
    RingBuffer.readArray (p_buffer self) (kMaxAudioSampleSize self) in
  let '(frontend, feature) :=
    TfLiteMicroSpeachWriter.generateMicroFeatures FrontendState
      FrontendProcessSamples (g_micro_features_state self) samples feature
      last_slice in
  {| kMaxAudioSampleSize := kMaxAudioSampleSize self;
     kAudioChannels := kAudioChannels self;
     kFeatureSliceSize := kFeatureSliceSize self;
     kFeatureSliceCount := kFeatureSliceCount self;
     feature_data_ := feature;
     p_buffer := rb;
     g_micro_features_state := frontend |}.

(** The loop of [int write(const uint8_t* audio, size_t bytes)] over the
    [count = bytes / 2] samples [audio_16], from index [j]:
<<
  uint16_t slice_count = 0;
  for (int j = 0; j < bytes / 2; j += kAudioChannels) {
    if (p_buffer->availableForWrite() == 0) { addSlice(); slice_count++; }
    if (kAudioChannels == 1) p_buffer->write(audio_16[j]);
    else p_buffer->write(((audio_16[j] / 2) + (audio_16[j + 1] / 2)));
  }
>>
    With at least one channel the index grows in every round, so [count]
    rounds are enough. *)
Fixpoint write_loop (fuel : nat) (self : t) (audio_16 : list Z) (count j : Z)
    (slice_count : Z) : Z * t :=
  match fuel with
  | O => (slice_count, self)
  | S fuel' =>
      if j <? count then
        let '(self, slice_count) :=
          if RingBuffer.availableForWrite (p_buffer self) =? 0
          then (addSlice self, (slice_count + 1) mod 65536)
          else (self, slice_count) in
        let sample :=
          if kAudioChannels self =? 1 then cell audio_16 (Z.to_nat j)
          else wrap16 (cell audio_16 (Z.to_nat j) ÷ 2
                       + cell audio_16 (Z.to_nat (j + 1)) ÷ 2) in
        let self := with_buffer self (snd (RingBuffer.write (p_buffer self) sample)) in
        write_loop fuel' self audio_16 count (j + kAudioChannels self) slice_count
      else (slice_count, self)
  end.

Definition write (self : t) (audio_16 : list Z) : Z * t :=
  write_loop (length audio_16) self audio_16 (Z.of_nat (length audio_16)) 0 0.

End WithFrontend.

Arguments kAudioChannels {FrontendState} _.
Arguments p_buffer {FrontendState} _.
Arguments begin {FrontendState} _ _.
Arguments write {FrontendState} _ _ _.

End TfLiteAudioFeatureProvider.

(* ================================================================== *)
(** * TfLiteAudioStream *)
(* ================================================================== *)

Module TfLiteAudioStream.
Section WithInterpreter.

Variable FrontendState : Type.
Variable FrontendProcessSamples : FrontendState -> list Z -> FrontendState * list Z.
Variable Interpreter : Type.
Variable Invoke : Interpreter -> list Z -> TfLiteStatus * TfLiteTensor * Interpreter.
Variable Recognizer : Type.
Variable ProcessLatestResults :
  Recognizer -> TfLiteTensor -> Z -> Recognition
  -> TfLiteStatus * Recognition * Recognizer.

(** The part of the stream that [write] uses: [cfg.writer], null or the
    writer with the objects linked to it. *)
Record t : Type := {
  writer : option (TfLiteMicroSpeachWriter.linked FrontendState Interpreter Recognizer)
}.

(** [virtual size_t write(const uint8_t* audio, size_t bytes)]:
<<
  if (cfg.writer==nullptr) return 0;
  int16_t* samples = (int16_t* )audio;
  int16_t sample_count = bytes / 2;
  for (int j = 0; j < sample_count; j++) {
    cfg.writer->write(samples[j]);
  }
  return bytes;
>>
    [samples] is the buffer [audio] read as 16-bit samples. *)
Definition write (self : t) (samples : list Z) (bytes : Z) : Z * t :=
  match writer self with
  | None => (0, self)
  | Some w =>
      let sample_count := wrap16 (bytes / 2) in
      let w :=
        foldl (fun w (j : nat) =>
                 snd (TfLiteMicroSpeachWriter.write FrontendProcessSamples Invoke
                        ProcessLatestResults w (cell samples j)))
              w (seq 0 (Z.to_nat sample_count)) in
      (bytes, {| writer := Some w |})
  end.

End WithInterpreter.

Arguments writer {FrontendState Interpreter Recognizer} _.
Arguments write {FrontendState} _ {Interpreter} _ {Recognizer} _ _ _ _.

End TfLiteAudioStream.

(* ================================================================== *)
(** * The windows of samples that make the slices *)
(* ================================================================== *)

(** The number of windows of [size] samples, [stride] samples apart, that
    [n] samples hold. *)
Definition frame_count (size stride n : nat) : nat :=
  if Nat.ltb n size then 0%nat else S (Nat.div (n - size) stride).

(** Those windows: window [k] holds the samples from [k * stride] to
    [k * stride + size - 1]. *)
Definition frames (size stride : nat) (l : list Z) : list (list Z) :=
  (fun k : nat => take size (drop (k * stride) l))
  <$> seq 0 (frame_count size stride (length l)).

(** A writer for one channel between two calls of [write]: the sizes are
    those that [begin] sets, with a stride of at least one sample and at
    most the window, and the ring buffer is not full. *)
Definition ready {FrontendState : Type}
    (w : TfLiteMicroSpeachWriter.t FrontendState) (size stride : nat) : Prop :=
  channels (TfLiteMicroSpeachWriter.cfg w) = 1
  /\ TfLiteMicroSpeachWriter.kMaxAudioSampleSize w = Z.of_nat size
  /\ TfLiteMicroSpeachWriter.kStrideSampleSize w = Z.of_nat stride
  /\ TfLiteMicroSpeachWriter.kKeepSampleSize w = Z.of_nat size - Z.of_nat stride
  /\ (0 < stride <= size)%nat
  /\ RingBuffer.max_size (TfLiteMicroSpeachWriter.p_buffer w) = Z.of_nat size
  /\ (length (RingBuffer.items (TfLiteMicroSpeachWriter.p_buffer w)) < size)%nat
  /\ length (TfLiteMicroSpeachWriter.p_audio_samples w) = size.

(* ================================================================== *)
(** * Concrete instances used to exercise the definitions *)
(* ================================================================== *)

(** A frontend without state that reports sample [k] of its input, taken
    as an unsigned 16-bit magnitude, for each of [bands] bands. *)
Definition sample_frontend (bands : nat) (st : unit) (input : list Z)
  : unit * list Z :=
  (st, (fun k : nat => cell input k mod 65536) <$> seq 0 bands).

(** An [int8] output tensor of shape [[1, n]] holding [scores]. *)
Definition scores_tensor (scores : list Z) : TfLiteTensor :=
  {| dims := [1; Z.of_nat (length scores)];
     type := kTfLiteInt8;
     data_int8 := scores |}.

(** The out-parameters as [processSlices] initialises them before the
    call. *)
Definition no_recognition : Recognition :=
  {| found_command := 0; score := 0; is_new_command := false |}.

(** A recognizer for the labels at addresses [labels], started with the
    default thresholds; the literal ["silence"] lives at [silence]. *)
Definition started_recognizer (silence : cstr) (labels : list cstr)
  : TfLiteMicroSpeechRecognizeCommands.t :=
  snd (TfLiteMicroSpeechRecognizeCommands.begin (TfLiteMicroSpeechRecognizeCommands.create silence)
         (setCategories defaultConfig labels)).

(** Inputs on which binary32 rounding shows in the quantizer:
    [x = 9775555 * 2^-18] (about 37.2908) and [scale = 6449851 * 2^-24]
    (about 0.384441). *)
Definition x_rounding : Float32.float := Float32.of_bits 9775555 (-18).
Definition scale_rounding : Float32.float := Float32.of_bits 6449851 (-24).

(** A history filled to its capacity. *)
Definition full_queue : TfLiteResultsQueue.t :=
  Nat.iter 50
    (fun q =>
       TfLiteResultsQueue.push_back q
         (TfLiteResultsQueue.Result_make 2 (TfLiteResultsQueue.size q) [1; 2]))
    TfLiteResultsQueue.create.

(** A recognizer for two labels that has seen two results, 300 ms apart,
    in which the second category dominates. *)
Definition warm_recognizer : TfLiteMicroSpeechRecognizeCommands.t :=
  snd (TfLiteMicroSpeechRecognizeCommands.feed (started_recognizer 99 [10; 20]) no_recognition
         [(scores_tensor [-128; 127], 0); (scores_tensor [-128; 127], 300)]).

(** A recognizer of [TfLiteAudioStream.h] for the labels at 10 and 20,
    started on an empty free store, after the results [-128; 127] at 0 ms
    and at 300 ms; and the free store at that point. *)
Definition heap_history
  : option ((list (TfLiteStatus * Recognition) * HeapRecognizeCommands.t)
            * list Heap.block) :=
  Heap.bind
    (HeapRecognizeCommands.begin (HeapRecognizeCommands.create 99)
       (setCategories defaultConfig [10; 20]))
    (fun r =>
       HeapRecognizeCommands.feed (snd r) no_recognition
         [(scores_tensor [-128; 127], 0); (scores_tensor [-128; 127], 300)])
    [].

Definition heap_recognizer : HeapRecognizeCommands.t :=
  match heap_history with
  | Some (r, _) => snd r
  | None => HeapRecognizeCommands.create 99
  end.

Definition heap_store : list Heap.block :=
  match heap_history with
  | Some (_, h) => h
  | None => []
  end.

(** A configuration with 3 slices of 2 bands over 4 samples, and a writer
    for it whose ring buffer holds 4 samples and whose feature matrix
    holds the entries 1 to 6. *)
Definition small_config : TfLiteConfig :=
  {| sample_rate := 1000;
     channels := 1;
     kFeatureSliceSize := 2;
     kFeatureSliceCount := 3;
     kFeatureSliceStrideMs := 2;
     kFeatureSliceDurationMs := 4;
     kSlicesToProcess := 2;
     average_window_duration_ms := 1000;
     detection_threshold := 200;
     suppression_ms := 1500;
     minimum_count := 3;
     labels := [] |}.

Definition small_writer : TfLiteMicroSpeachWriter.t unit :=
  let w := TfLiteMicroSpeachWriter.begin small_config tt in
  let w := TfLiteMicroSpeachWriter.write1_all w [100; 300; 50; 7] in
  {| TfLiteMicroSpeachWriter.cfg := TfLiteMicroSpeachWriter.cfg w;
     TfLiteMicroSpeachWriter.p_feature_data := [1; 2; 3; 4; 5; 6];
     TfLiteMicroSpeachWriter.p_audio_samples :=
       TfLiteMicroSpeachWriter.p_audio_samples w;
     TfLiteMicroSpeachWriter.p_buffer := TfLiteMicroSpeachWriter.p_buffer w;
     TfLiteMicroSpeachWriter.g_micro_features_state := tt;
     TfLiteMicroSpeachWriter.kMaxAudioSampleSize :=
       TfLiteMicroSpeachWriter.kMaxAudioSampleSize w;
     TfLiteMicroSpeachWriter.kStrideSampleSize := 2;
     TfLiteMicroSpeachWriter.kKeepSampleSize := 2;
     TfLiteMicroSpeachWriter.last_value := 0;
     TfLiteMicroSpeachWriter.channel := 0;
     TfLiteMicroSpeachWriter.current_time := 0;
     TfLiteMicroSpeachWriter.total_slice_count := 0 |}.

(** The default configuration with two channels. *)
Definition stereo_config : TfLiteConfig :=
  {| sample_rate := 16000;
     channels := 2;
     kFeatureSliceSize := 40;
     kFeatureSliceCount := 49;
     kFeatureSliceStrideMs := 20;
     kFeatureSliceDurationMs := 30;
     kSlicesToProcess := 2;
     average_window_duration_ms := 1000;
     detection_threshold := 200;
     suppression_ms := 1500;
     minimum_count := 3;
     labels := [] |}.

(** The sum of the re-biased scores of category [i] over the first [k]
    entries of the history. *)
Definition psum (q : TfLiteResultsQueue.t) (i k : nat) : Z :=
  foldr Z.add 0
    ((fun j : nat =>
        cell8 (TfLiteResultsQueue.scores
                 (TfLiteResultsQueue.from_front q (Z.of_nat j))) i + 128)
     <$> seq 0 k).

(** A recognizer for two labels whose history is full: 50 results, one
    per millisecond from 0 to 49. *)
Definition crowded_recognizer : TfLiteMicroSpeechRecognizeCommands.t :=
  TfLiteMicroSpeechRecognizeCommands.with_results (started_recognizer 99 [10; 20])
    full_queue.

(** A frontend that keeps the windows it was given and reports two
    bands of value 0. *)
Definition recording_frontend (st : list (list Z)) (input : list Z)
  : list (list Z) * list Z :=
  (st ++ [input], [0; 0]).

(** An interpreter without state whose model always succeeds, with an
    output in which the second of two categories dominates. *)
Definition sample_interpreter (st : unit) (input : list Z)
  : TfLiteStatus * TfLiteTensor * unit :=
  (kTfLiteOk, scores_tensor [-128; 127], st).

(** A recognizer that counts its calls and reports the label at 20 as a
    new command every time. *)
Definition counting_recognizer (calls : nat) (output : TfLiteTensor) (time : Z)
    (out : Recognition) : TfLiteStatus * Recognition * nat :=
  (kTfLiteOk, {| found_command := 20; score := 255; is_new_command := true |},
   S calls).

(** A writer for [small_config] after [begin], linked to
    [counting_recognizer] and to [sample_interpreter]. *)
Definition small_linked
  : TfLiteMicroSpeachWriter.linked (list (list Z)) unit nat :=
  {| TfLiteMicroSpeachWriter.this := TfLiteMicroSpeachWriter.begin small_config [];
     TfLiteMicroSpeachWriter.recognizeCommands := 0%nat;
     TfLiteMicroSpeachWriter.interpreter := tt;
     TfLiteMicroSpeachWriter.responses := [] |}.

(** The same for the default configuration with two channels. *)
Definition stereo_linked
  : TfLiteMicroSpeachWriter.linked (list (list Z)) unit nat :=
  {| TfLiteMicroSpeachWriter.this := TfLiteMicroSpeachWriter.begin stereo_config [];
     TfLiteMicroSpeachWriter.recognizeCommands := 0%nat;
     TfLiteMicroSpeachWriter.interpreter := tt;
     TfLiteMicroSpeachWriter.responses := [] |}.

(* ================================================================== *)
(** * Properties *)
(* ================================================================== *)

(* ------------------------------------------------------------------ *)
(** ** Machine integers *)
(* ------------------------------------------------------------------ *)

Lemma wrap_small (w x : Z) :
  0 < w -> - 2 ^ (w - 1) <= x < 2 ^ (w - 1) -> wrap w x = x.
Proof.
  intros Hw Hx. unfold wrap.
  assert (E : 2 ^ w = 2 * 2 ^ (w - 1)).
  { replace w with (Z.succ (w - 1)) at 1 by lia. apply Z.pow_succ_r. lia. }
  rewrite Z.mod_small; lia.
Qed.

Lemma wrap32_small (x : Z) : INT32_MIN <= x <= INT32_MAX -> wrap32 x = x.
Proof.
  unfold INT32_MIN, INT32_MAX. intros H. apply wrap_small; [lia|].
  change (2 ^ (32 - 1)) with 2147483648. lia.
Qed.

Lemma wrap16_small (x : Z) : -32768 <= x <= 32767 -> wrap16 x = x.
Proof.
  intros H. apply wrap_small; [lia|]. change (2 ^ (16 - 1)) with 32768. lia.
Qed.

Lemma wrap8_small (x : Z) : -128 <= x <= 127 -> wrap8 x = x.
Proof.
  intros H. apply wrap_small; [lia|]. change (2 ^ (8 - 1)) with 128. lia.
Qed.

Lemma wrap8_range (x : Z) : -128 <= wrap8 x <= 127.
Proof.
  unfold wrap8, wrap. change (2 ^ (8 - 1)) with 128. change (2 ^ 8) with 256.
  pose proof (Z.mod_pos_bound (x + 128) 256). lia.
Qed.

(* ------------------------------------------------------------------ *)
(** ** Truncation of rationals and of floats *)
(* ------------------------------------------------------------------ *)

Lemma Qtrunc_close (q : Q) : (Qabs (inject_Z (Qtrunc q) - q) < 1)%Q.
Proof.
  unfold Qtrunc. destruct (Qle_bool 0 q) eqn:E.
  - pose proof (Qfloor_le q) as H1. pose proof (Qlt_floor q) as H2.
    rewrite inject_Z_plus in H2. change (inject_Z 1) with 1%Q in H2.
    apply Qabs_Qlt_condition. generalize dependent (inject_Z (Qfloor q)).
    intros f H1 H2; clear E; split; lra.
  - pose proof (Qle_ceiling q) as H1. pose proof (Qceiling_lt q) as H2.
    unfold Z.sub in H2. rewrite inject_Z_plus, inject_Z_opp in H2.
    change (inject_Z 1) with 1%Q in H2.
    apply Qabs_Qlt_condition. generalize dependent (inject_Z (Qceiling q)).
    intros f H1 H2; clear E; split; lra.
Qed.

Lemma Qtrunc_integer (z : Z) : Qtrunc (z # 1) = z.
Proof.
  unfold Qtrunc. destruct (Qle_bool 0 (z # 1)).
  - apply (Qfloor_Z z).
  - apply (Qceiling_Z z).
Qed.

Lemma Qtrunc_pos_fraction (m d : positive) : Qtrunc (Zpos m # d) = Zpos m / Zpos d.
Proof. reflexivity. Qed.

Lemma Qtrunc_neg_fraction (m d : positive) : Qtrunc (Zneg m # d) = - (Zpos m / Zpos d).
Proof. reflexivity. Qed.

(** Truncation moves toward zero and stays within the bounds that the
    rational respects up to one unit. *)
Lemma Qtrunc_range (q : Q) (lo hi : Z) :
  lo <= 0 <= hi ->
  (inject_Z (lo - 1) < q)%Q -> (q < inject_Z (hi + 1))%Q ->
  lo <= Qtrunc q <= hi.
Proof.
  intros Hz Hlo Hhi. unfold Qtrunc. destruct (Qle_bool 0 q) eqn:E.
  - apply Qle_bool_iff in E. split.
    + assert (H : 0 <= Qfloor q).
      { change 0 with (Qfloor (inject_Z 0)). apply Qfloor_resp_le. exact E. }
      lia.
    + assert (H : (inject_Z (Qfloor q) < inject_Z (hi + 1))%Q).
      { eapply Qle_lt_trans; [apply Qfloor_le | exact Hhi]. }
      rewrite <- Zlt_Qlt in H. lia.
  - assert (E' : (q < 0)%Q).
    { apply Qnot_le_lt. intros H. apply Qle_bool_iff in H. congruence. }
    split.
    + assert (H : (inject_Z (lo - 1) < inject_Z (Qceiling q))%Q).
      { eapply Qlt_le_trans; [exact Hlo | apply Qle_ceiling]. }
      rewrite <- Zlt_Qlt in H. lia.
    + assert (H : Qceiling q <= 0).
      { change 0 with (Qceiling (inject_Z 0)). apply Qceiling_resp_le.
        apply Qlt_le_weak. exact E'. }
      lia.
Qed.

Module Float32Facts.
Import Float32.

(** The conversion of a finite float to an integer is the truncation of
    the number it denotes. *)
Lemma truncate_spec (y : float) :
  is_finite y = true -> truncate y = Some (Qtrunc (to_Q y)).
Proof.
  destruct y as [s| s | |s m e]; simpl; try discriminate; intros _.
  - reflexivity.
  - destruct e as [|p|p].
    + now rewrite Qtrunc_integer.
    + rewrite Qtrunc_integer. destruct s; reflexivity.
    + destruct s; unfold cond_Zopp.
      * change (- Z.pos m) with (Z.neg m). now rewrite Qtrunc_neg_fraction.
      * now rewrite Qtrunc_pos_fraction.
Qed.

Lemma to_int8_spec (y : float) :
  is_finite y = true -> (-129 < to_Q y)%Q -> (to_Q y < 128)%Q ->
  to_int8 y = Some (Qtrunc (to_Q y)).
Proof.
  intros Hf Hlo Hhi. unfold to_int8, to_int. rewrite (truncate_spec y Hf).
  pose proof (Qtrunc_range (to_Q y) (-128) 127 ltac:(lia) Hlo Hhi) as [H1 H2].
  apply Z.leb_le in H1. apply Z.leb_le in H2. rewrite H1, H2. reflexivity.
Qed.

Lemma to_int8_some (y : float) (r : Z) :
  to_int8 y = Some r ->
  is_finite y = true /\ r = Qtrunc (to_Q y) /\ -128 <= r <= 127.
Proof.
  unfold to_int8, to_int. intros H.
  assert (Hf : is_finite y = true).
  { destruct y; try reflexivity; discriminate H. }
  rewrite (truncate_spec y Hf) in H.
  destruct (-128 <=? Qtrunc (to_Q y)) eqn:E1; [|discriminate H].
  destruct (Qtrunc (to_Q y) <=? 127) eqn:E2; [|discriminate H].
  simpl in H. injection H as <-. apply Z.leb_le in E1. apply Z.leb_le in E2.
  repeat split; auto.
Qed.

Lemma eqb_zero_false (x : float) : (0 < to_Q x)%Q -> eqb x zero = false.
Proof.
  destruct x as [s|s| |s m e]; simpl; intros H;
    try (exfalso; revert H; apply Qlt_irrefl).
  destruct s; reflexivity.
Qed.

End Float32Facts.

(* ------------------------------------------------------------------ *)
(** ** Rounding in binary32 *)
(* ------------------------------------------------------------------ *)

Module Float32RoundingFacts.
Import Float32 Float32Rounding.

Lemma pow2_pos (e : Z) : (0 < pow2 e)%Q.
Proof. unfold pow2. apply Qpower_0_lt. reflexivity. Qed.

Lemma pow2_add (a b : Z) : (pow2 (a + b) == pow2 a * pow2 b)%Q.
Proof. unfold pow2. apply Qpower_plus. discriminate. Qed.

Lemma pow2_nonneg (k : Z) : 0 <= k -> (pow2 k == inject_Z (2 ^ k))%Q.
Proof. intros H. unfold pow2. rewrite Zpower_Qpower by exact H. reflexivity. Qed.

Lemma pow2_le (a b : Z) : a <= b -> (pow2 a <= pow2 b)%Q.
Proof.
  intros H. replace b with (a + (b - a)) by lia. rewrite pow2_add.
  rewrite (pow2_nonneg (b - a)) by lia.
  assert (H0 : 1 <= 2 ^ (b - a)) by (apply Z.lt_pred_le; apply Z.pow_pos_nonneg; lia).
  assert (1 <= inject_Z (2 ^ (b - a)))%Q by (rewrite Zle_Qle in H0; exact H0).
  pose proof (pow2_pos a). nra.
Qed.

Lemma pow2_succ (a : Z) : (pow2 (a + 1) == 2 * pow2 a)%Q.
Proof. rewrite pow2_add. unfold pow2 at 2. simpl. ring. Qed.

Lemma pow2_pred (a : Z) : (pow2 (a - 1) == pow2 a / 2)%Q.
Proof.
  pose proof (pow2_succ (a - 1)) as H. replace (a - 1 + 1) with a in H by lia.
  rewrite H. field.
Qed.

Lemma to_Q_finite (s : bool) (m : positive) (e : Z) :
  (to_Q (S754_finite s m e) == inject_Z (cond_Zopp s (Zpos m)) * pow2 e)%Q.
Proof.
  unfold to_Q. destruct e as [|p|p].
  - unfold pow2. simpl. unfold inject_Z. ring.
  - rewrite (pow2_nonneg (Zpos p)) by lia.
    rewrite <- inject_Z_mult, Pos2Z.inj_pow. reflexivity.
  - assert (H : (pow2 (Zneg p) * inject_Z (Zpos (2 ^ p)) == 1)%Q).
    { rewrite Pos2Z.inj_pow, <- (pow2_nonneg (Zpos p)) by lia.
      rewrite <- pow2_add. replace (Z.neg p + Z.pos p) with 0 by lia. reflexivity. }
    rewrite (Qmake_Qdiv _ (2 ^ p)).
    assert (Hp : (0 < inject_Z (Zpos (2 ^ p)))%Q) by reflexivity.
    apply (Qmult_inj_r _ _ (inject_Z (Zpos (2 ^ p)))); [lra|].
    transitivity (inject_Z (cond_Zopp s (Z.pos m))); [field; lra|].
    rewrite <- Qmult_assoc, H. ring.
Qed.

Lemma digits2_size (p : positive) : digits2_pos p = Pos.size p.
Proof. induction p; simpl; congruence. Qed.

Lemma digits_bounds (p : positive) :
  2 ^ (Zpos (digits2_pos p) - 1) <= Zpos p < 2 ^ Zpos (digits2_pos p).
Proof.
  rewrite digits2_size. split.
  - pose proof (Pos.size_le p) as H.
    assert (H' : 2 ^ Zpos (Pos.size p) <= 2 * Zpos p).
    { change (2 * Zpos p) with (Zpos p~0). rewrite <- Pos2Z.inj_pow.
      apply Pos2Z.pos_le_pos. exact H. }
    replace (Zpos (Pos.size p)) with (Zpos (Pos.size p) - 1 + 1) in H' by lia.
    rewrite Z.pow_add_r in H' by lia. lia.
  - pose proof (Pos.size_gt p) as H. rewrite <- Pos2Z.inj_pow.
    apply Pos2Z.pos_lt_pos. exact H.
Qed.

Lemma Zdigits2_upper (m : Z) : 0 <= m -> m < 2 ^ Zdigits2 m.
Proof.
  destruct m as [|p|p]; simpl; intros H; try lia. apply digits_bounds.
Qed.

Lemma Zdigits2_lower (m : Z) : 0 < m -> 2 ^ (Zdigits2 m - 1) <= m.
Proof.
  destruct m as [|p|p]; simpl; intros H; try lia. apply digits_bounds.
Qed.

Lemma Zdigits2_nonneg (m : Z) : 0 <= Zdigits2 m.
Proof. destruct m; simpl; lia. Qed.

Lemma Zdigits2_le (m k : Z) : 0 <= m -> 0 <= k -> m < 2 ^ k -> Zdigits2 m <= k.
Proof.
  intros Hm Hk H. destruct (Z.eq_dec m 0) as [->|Hn]; [simpl; lia|].
  pose proof (Zdigits2_lower m ltac:(lia)) as Hl.
  pose proof (Zdigits2_nonneg m).
  assert (Hlt : 2 ^ (Zdigits2 m - 1) < 2 ^ k) by lia.
  destruct (Z.eq_dec (Zdigits2 m) 0); [lia|].
  apply Z.pow_lt_mono_r_iff in Hlt; lia.
Qed.

Lemma Zdigits2_ge (m k : Z) : 0 <= m -> 2 ^ (k - 1) <= m -> 1 <= k -> k <= Zdigits2 m.
Proof.
  intros Hm H Hk. pose proof (Zdigits2_upper m Hm) as Hu.
  pose proof (Zdigits2_nonneg m).
  assert (Hlt : 2 ^ (k - 1) < 2 ^ Zdigits2 m) by lia.
  apply Z.pow_lt_mono_r_iff in Hlt; lia.
Qed.

Lemma loc_in_range (l : location) (d : Q) : loc_in l d -> (0 <= d)%Q /\ (d < 1)%Q.
Proof. destruct l as [|[]]; simpl; intros H; lra. Qed.

Lemma loc_of_record_of (m : Z) (l : location) :
  loc_of_shr_record (shr_record_of_loc m l) = l.
Proof. destruct l as [|[]]; reflexivity. Qed.

Lemma shr_m_record_of (m : Z) (l : location) : shr_m (shr_record_of_loc m l) = m.
Proof. destruct l as [|[]]; reflexivity. Qed.

Lemma inject_Z_xO (p : positive) : (inject_Z (Zpos p~0) == 2 * inject_Z (Zpos p))%Q.
Proof. rewrite Pos2Z.inj_xO, inject_Z_mult. reflexivity. Qed.

Lemma inject_Z_xI (p : positive) : (inject_Z (Zpos p~1) == 2 * inject_Z (Zpos p) + 1)%Q.
Proof. rewrite Pos2Z.inj_xI, inject_Z_plus, inject_Z_mult. reflexivity. Qed.

(** One step of the right shift halves the number that the mantissa and
    the location stand for. *)
Lemma shr_1_spec (mrs : shr_record) (d : Q) :
  0 <= shr_m mrs -> loc_in (loc_of_shr_record mrs) d ->
  0 <= shr_m (shr_1 mrs)
  /\ exists d' : Q,
       loc_in (loc_of_shr_record (shr_1 mrs)) d'
       /\ ((inject_Z (shr_m (shr_1 mrs)) + d') * 2 == inject_Z (shr_m mrs) + d)%Q.
Proof.
  destruct mrs as [m r s].
  destruct m as [|[p|p|]|p]; cbn [shr_m]; intros Hm Hl; try lia;
    (split; [destruct r, s; cbn; lia|]).
  - exists (d * (1 # 2))%Q.
    destruct r, s; cbn in *; change (inject_Z 0) with 0%Q; repeat split; lra.
  - exists ((1 + d) * (1 # 2))%Q. pose proof (inject_Z_xI p).
    destruct r, s; cbn in *; repeat split; lra.
  - exists (d * (1 # 2))%Q. pose proof (inject_Z_xO p).
    destruct r, s; cbn in *; repeat split; lra.
  - exists ((1 + d) * (1 # 2))%Q.
    destruct r, s; cbn in *; change (inject_Z 0) with 0%Q;
      change (inject_Z 1) with 1%Q; repeat split; lra.
Qed.

Lemma iter_pos_inv {A : Type} (f : A -> A) (P : Z -> A -> Prop) :
  (forall (k : Z) (x : A), 0 <= k -> P k x -> P (k + 1) (f x)) ->
  forall (p : positive) (k : Z) (x : A),
    0 <= k -> P k x -> P (k + Zpos p) (SpecFloat.iter_pos f p x).
Proof.
  intros Hstep. induction p as [p IH|p IH|]; intros k x Hk HP; cbn [SpecFloat.iter_pos].
  - replace (k + Z.pos p~1) with (k + 1 + Z.pos p + Z.pos p) by lia.
    apply IH; [lia|]. apply IH; [lia|]. now apply Hstep.
  - replace (k + Z.pos p~0) with (k + Z.pos p + Z.pos p) by lia.
    apply IH; [lia|]. now apply IH.
  - now apply Hstep.
Qed.

(** [shr_fexp] keeps the number and brings the exponent up to the one
    the format asks for. *)
Lemma shr_fexp_spec (mx ex : Z) (lx : location) (d : Q) :
  0 <= mx -> loc_in lx d ->
  let r := shr_fexp prec emax mx ex lx in
  0 <= shr_m (fst r)
  /\ snd r = Z.max ex (fexp prec emax (Zdigits2 mx + ex))
  /\ (snd r = ex -> fst r = shr_record_of_loc mx lx)
  /\ exists d' : Q,
       loc_in (loc_of_shr_record (fst r)) d'
       /\ ((inject_Z (shr_m (fst r)) + d') * pow2 (snd r)
           == (inject_Z mx + d) * pow2 ex)%Q.
Proof.
  intros Hm Hl. unfold shr_fexp, shr.
  destruct (fexp prec emax (Zdigits2 mx + ex) - ex) as [|p|p] eqn:En; cbn [fst snd].
  - rewrite shr_m_record_of, loc_of_record_of.
    split; [exact Hm|]. split; [lia|]. split; [reflexivity|].
    exists d. split; [exact Hl|reflexivity].
  - pose proof (iter_pos_inv (A := shr_record) shr_1
      (fun k mrs =>
         0 <= shr_m mrs
         /\ exists d' : Q,
              loc_in (loc_of_shr_record mrs) d'
              /\ ((inject_Z (shr_m mrs) + d') * pow2 k == inject_Z mx + d)%Q)) as H.
    cbv beta in H.
    assert (Hstep : forall (k : Z) (x : shr_record),
      0 <= k ->
      0 <= shr_m x
      /\ (exists d' : Q,
            loc_in (loc_of_shr_record x) d'
            /\ ((inject_Z (shr_m x) + d') * pow2 k == inject_Z mx + d)%Q) ->
      0 <= shr_m (shr_1 x)
      /\ (exists d' : Q,
            loc_in (loc_of_shr_record (shr_1 x)) d'
            /\ ((inject_Z (shr_m (shr_1 x)) + d') * pow2 (k + 1)
                == inject_Z mx + d)%Q)).
    { intros k x Hk (Hx & d0 & Hd0 & E0).
      destruct (shr_1_spec x d0 Hx Hd0) as (Hx' & d1 & Hd1 & E1).
      split; [exact Hx'|]. exists d1. split; [exact Hd1|].
      rewrite pow2_succ, <- E0, <- E1. ring. }
    specialize (H Hstep p 0 (shr_record_of_loc mx lx) ltac:(lia)).
    destruct H as (Hr & d' & Hd' & E').
    { rewrite shr_m_record_of, loc_of_record_of. split; [exact Hm|].
      exists d. split; [exact Hl|]. unfold pow2. simpl. ring. }
    split; [exact Hr|]. split; [lia|]. split; [lia|].
    exists d'. split; [exact Hd'|].
    replace (ex + Z.pos p) with (0 + Z.pos p + ex) by lia.
    rewrite pow2_add, Qmult_assoc, E'. reflexivity.
  - rewrite shr_m_record_of, loc_of_record_of.
    split; [exact Hm|]. split; [lia|]. split; [reflexivity|].
    exists d. split; [exact Hl|reflexivity].
Qed.

Lemma round_nearest_even_spec (m : Z) (l : location) (d : Q) :
  loc_in l d ->
  (round_nearest_even m l = m \/ round_nearest_even m l = m + 1)
  /\ (Qabs (inject_Z (round_nearest_even m l) - (inject_Z m + d)) <= 1 # 2)%Q.
Proof.
  intros Hl. assert (E1 : (inject_Z (m + 1) == inject_Z m + 1)%Q).
  { rewrite inject_Z_plus. reflexivity. }
  destruct l as [|[]]; cbn [loc_in round_nearest_even] in *;
    repeat match goal with H : _ /\ _ |- _ => destruct H end.
  - split; [now left|]. apply Qabs_case; intros; lra.
  - destruct (Z.even m).
    + split; [now left|]. apply Qabs_case; intros; lra.
    + split; [now right|]. apply Qabs_case; intros; lra.
  - split; [now left|]. apply Qabs_case; intros; lra.
  - split; [now right|]. apply Qabs_case; intros; lra.
Qed.

Lemma fexp_eq (e : Z) : fexp prec emax e = Z.max (e - 24) (-149).
Proof. reflexivity. Qed.

(** A mantissa of at most 24 bits, or [2^24] itself, is brought to the
    format without loss. *)
Lemma shr_fexp_exact (m e : Z) :
  0 <= m <= 2 ^ 24 -> -149 <= e ->
  let r := shr_fexp prec emax m e loc_Exact in
  0 <= shr_m (fst r)
  /\ (inject_Z (shr_m (fst r)) * pow2 (snd r) == inject_Z m * pow2 e)%Q.
Proof.
  intros Hm He. unfold shr_fexp, shr. rewrite fexp_eq.
  destruct (Z.eq_dec m (2 ^ 24)) as [->|Hne].
  - change (Zdigits2 (2 ^ 24)) with 25.
    replace (Z.max (25 + e - 24) (-149) - e) with 1 by lia.
    change (2 ^ 24) with 16777216.
    cbn [fst snd shr_record_of_loc SpecFloat.iter_pos shr_1 shr_m].
    split; [lia|].
    rewrite pow2_succ.
    change (inject_Z 16777216) with (inject_Z (2 * 8388608)).
    rewrite inject_Z_mult. change (inject_Z 2) with 2%Q. ring.
  - pose proof (Zdigits2_le m 24 ltac:(lia) ltac:(lia) ltac:(lia)) as Hd.
    destruct (Z.max (Zdigits2 m + e - 24) (-149) - e) as [|p|p] eqn:En;
      try lia; cbn [fst snd shr_record_of_loc shr_m]; (split; [lia|reflexivity]).
Qed.

Lemma u_eq : (u == 1 # 16777216)%Q.
Proof. reflexivity. Qed.

Lemma eta_eq : eta = pow2 (-150).
Proof. reflexivity. Qed.

Lemma u_pos : (0 < u)%Q.
Proof. apply pow2_pos. Qed.

Lemma eta_pos : (0 < eta)%Q.
Proof. apply pow2_pos. Qed.

(** The rounding step of every operation: the result, when finite, is
    within half a unit in the last place of the number that the mantissa,
    the exponent and the location stand for. *)
Lemma binary_round_aux_error (sx : bool) (mx ex : Z) (lx : location) (d : Q) :
  0 <= mx -> loc_in lx d ->
  lx = loc_Exact \/ ex <= fexp prec emax (Zdigits2 mx + ex) ->
  is_finite (binary_round_aux prec emax sx mx ex lx) = true ->
  exists v : Q,
    (to_Q (binary_round_aux prec emax sx mx ex lx) == (if sx then - v else v))%Q
    /\ (Qabs (v - (inject_Z mx + d) * pow2 ex)
        <= u * ((inject_Z mx + d) * pow2 ex) + eta)%Q.
Proof.
  intros Hm Hl Hcase Hfin.
  pose proof (loc_in_range lx d Hl) as [Hd0 Hd1].
  assert (HX : (0 <= (inject_Z mx + d) * pow2 ex)%Q).
  { pose proof (pow2_pos ex). assert (0 <= inject_Z mx)%Q by (rewrite Zle_Qle in Hm; exact Hm).
    nra. }
  pose proof u_pos as Hu. pose proof eta_pos as Heta.
  assert (HuX : (0 <= u * ((inject_Z mx + d) * pow2 ex))%Q).
  { apply Qmult_le_0_compat; lra. }
  unfold binary_round_aux in *.
  pose proof (shr_fexp_spec mx ex lx d Hm Hl) as H1. cbv zeta in H1.
  destruct (shr_fexp prec emax mx ex lx) as [mrs' e'] eqn:E1. cbn [fst snd] in H1.
  destruct H1 as (Hm' & He' & Hsame & d' & Hd' & Eq1).
  destruct (round_nearest_even_spec (shr_m mrs') _ d' Hd') as [Hcases Herr].
  pose proof (loc_in_range _ d' Hd') as [Hd0' Hd1'].
  set (m'' := round_nearest_even (shr_m mrs') (loc_of_shr_record mrs')) in *.
  assert (Hm'' : 0 <= m'') by lia.
  (* the value after rounding and its distance to the number *)
  assert (K : (let r := shr_fexp prec emax m'' e' loc_Exact in
               0 <= shr_m (fst r)
               /\ (inject_Z (shr_m (fst r)) * pow2 (snd r)
                   == inject_Z m'' * pow2 e')%Q)
              /\ (Qabs (inject_Z m'' * pow2 e' - (inject_Z mx + d) * pow2 ex)
                  <= u * ((inject_Z mx + d) * pow2 ex) + eta)%Q).
  { rewrite fexp_eq in *.
    destruct (Z_lt_le_dec (Z.max (Zdigits2 mx + ex - 24) (-149)) ex) as [Hlt|Hge].
    - (* nothing is shifted out and nothing was left over *)
      destruct Hcase as [->|Hc]; [|lia].
      assert (Ee : e' = ex) by lia. clear He'. specialize (Hsame Ee). subst e'.
      assert (Em : m'' = mx).
      { unfold m''. rewrite Hsame. reflexivity. }
      rewrite Em. rewrite E1. cbn [fst snd]. rewrite Hsame. cbn [shr_m shr_record_of_loc].
      split; [split; [exact Hm|reflexivity]|].
      cbn [loc_in] in Hl.
      assert (Ez : (inject_Z mx * pow2 ex - (inject_Z mx + d) * pow2 ex == 0)%Q).
      { rewrite Hl. ring. }
      rewrite Ez. change (Qabs 0) with 0%Q. lra.
    - assert (Ee : e' = Z.max (Zdigits2 mx + ex - 24) (-149)) by lia.
      pose proof (pow2_pos e') as Hpe. pose proof (pow2_pos ex) as Hpx.
      assert (Hm'lt : shr_m mrs' < 2 ^ 24).
      { rewrite Zlt_Qlt. rewrite <- (pow2_nonneg 24) by lia.
        apply (Qmult_lt_r _ _ (pow2 e') Hpe).
        rewrite <- pow2_add.
        apply Qle_lt_trans with ((inject_Z mx + d) * pow2 ex)%Q.
        { rewrite <- Eq1. nra. }
        apply Qlt_le_trans with (pow2 (Zdigits2 mx + ex)).
        - rewrite pow2_add.
          assert (inject_Z mx + 1 <= pow2 (Zdigits2 mx))%Q.
          { rewrite (pow2_nonneg _ (Zdigits2_nonneg mx)).
            pose proof (Zdigits2_upper mx Hm) as Hup.
            assert (Hup' : mx + 1 <= 2 ^ Zdigits2 mx) by lia.
            rewrite Zle_Qle, inject_Z_plus in Hup'. exact Hup'. }
          nra.
        - apply pow2_le. lia. }
      split.
      + apply shr_fexp_exact; lia.
      + assert (Ed : (inject_Z m'' * pow2 e' - (inject_Z mx + d) * pow2 ex
                      == (inject_Z m'' - (inject_Z (shr_m mrs') + d')) * pow2 e')%Q).
        { rewrite <- Eq1. ring. }
        rewrite Ed, Qabs_Qmult, (Qabs_pos (pow2 e')) by lra.
        apply Qle_trans with ((1 # 2) * pow2 e')%Q.
        { apply Qmult_le_compat_r; [exact Herr|lra]. }
        assert (Eh : ((1 # 2) * pow2 e' == pow2 (e' - 1))%Q).
        { rewrite pow2_pred. field. }
        rewrite Eh.
        destruct (Z.eq_dec e' (-149)) as [->|Hn].
        * change (pow2 (-149 - 1)) with eta. nra.
        * assert (Hmx : 0 < mx).
          { destruct (Z.eq_dec mx 0) as [->|]; [simpl in *; lia|lia]. }
          replace (e' - 1) with (- 24 + ((Zdigits2 mx - 1) + ex)) by lia.
          rewrite pow2_add. change (pow2 (-24)) with u. rewrite pow2_add.
          pose proof (Zdigits2_lower mx Hmx) as Hlow.
          assert (Hlow' : (pow2 (Zdigits2 mx - 1) <= inject_Z mx)%Q).
          { rewrite pow2_nonneg by (pose proof (Zdigits2_nonneg mx);
              destruct (Z.eq_dec (Zdigits2 mx) 0) as [E0|]; [|lia];
              destruct mx; simpl in E0; lia).
            rewrite <- Zle_Qle. exact Hlow. }
          pose proof (pow2_pos (Zdigits2 mx - 1)).
          assert ((pow2 (Zdigits2 mx - 1) * pow2 ex <= (inject_Z mx + d) * pow2 ex))%Q by nra.
          nra. }
  destruct K as [K Kerr]. cbv zeta in K.
  destruct (shr_fexp prec emax m'' e' loc_Exact) as [mrs'' e''] eqn:E2.
  cbn [fst snd] in K. destruct K as [K0 K1].
  exists (inject_Z m'' * pow2 e')%Q. split; [|exact Kerr].
  destruct (shr_m mrs'') as [|m|m] eqn:Em; try lia.
  - assert (Ev : (inject_Z m'' * pow2 e' == 0)%Q).
    { rewrite <- K1. change (inject_Z 0) with 0%Q. ring. }
    destruct sx; cbn [to_Q]; rewrite Ev; reflexivity.
  - destruct (e'' <=? emax - prec); [|discriminate Hfin].
    rewrite to_Q_finite. destruct sx; cbn [cond_Zopp]; rewrite <- K1.
    + rewrite inject_Z_opp. ring.
    + reflexivity.
Qed.

Lemma iter_xO (m d : positive) : Zpos (Pos.iter xO m d) = Zpos m * 2 ^ Zpos d.
Proof.
  induction d as [|d IH] using Pos.peano_ind.
  - cbn [Pos.iter]. lia.
  - rewrite Pos.iter_succ, Pos2Z.inj_xO, IH, Pos2Z.inj_succ, Z.pow_succ_r by lia. lia.
Qed.

Lemma shl_align_spec (mx : positive) (ex ex' : Z) :
  snd (shl_align mx ex ex') = Z.min ex ex'
  /\ (inject_Z (Zpos (fst (shl_align mx ex ex'))) * pow2 (snd (shl_align mx ex ex'))
      == inject_Z (Zpos mx) * pow2 ex)%Q.
Proof.
  unfold shl_align. destruct (ex' - ex) as [|p|p] eqn:E; cbn [fst snd].
  - split; [lia|reflexivity].
  - split; [lia|reflexivity].
  - split; [lia|]. rewrite iter_xO, inject_Z_mult.
    replace ex with (Zpos p + ex') by lia. rewrite pow2_add.
    rewrite (pow2_nonneg (Zpos p)) by lia. ring.
Qed.

Lemma shl_align_fst (mx : positive) (ex ez : Z) :
  ez <= ex ->
  (inject_Z (Zpos (fst (shl_align mx ex ez))) * pow2 ez
   == inject_Z (Zpos mx) * pow2 ex)%Q.
Proof.
  intros H. destruct (shl_align_spec mx ex ez) as [Hs Hv].
  rewrite Hs in Hv. replace (Z.min ex ez) with ez in Hv by lia. exact Hv.
Qed.

Lemma binary_round_error (sx : bool) (mx : positive) (ex : Z) :
  is_finite (binary_round prec emax sx mx ex) = true ->
  exists v : Q,
    (to_Q (binary_round prec emax sx mx ex) == (if sx then - v else v))%Q
    /\ (Qabs (v - inject_Z (Zpos mx) * pow2 ex)
        <= u * (inject_Z (Zpos mx) * pow2 ex) + eta)%Q.
Proof.
  unfold binary_round.
  destruct (shl_align_spec mx ex (fexp prec emax (Zpos (digits2_pos mx) + ex)))
    as [_ Hv].
  destruct (shl_align mx ex (fexp prec emax (Zpos (digits2_pos mx) + ex)))
    as [mz ez]. cbn [fst snd] in Hv.
  intros Hfin.
  destruct (binary_round_aux_error sx (Zpos mz) ez loc_Exact 0 ltac:(lia)
              ltac:(reflexivity) ltac:(now left) Hfin) as (v & Ev & Hv').
  exists v. split; [exact Ev|].
  assert (E : ((inject_Z (Zpos mz) + 0) * pow2 ez == inject_Z (Zpos mx) * pow2 ex)%Q).
  { rewrite <- Hv. ring. }
  rewrite E in Hv'. exact Hv'.
Qed.

Lemma rounding_allowance_nonneg (x : Q) : (0 <= u * Qabs x + eta)%Q.
Proof.
  pose proof u_pos. pose proof eta_pos. pose proof (Qabs_nonneg x).
  assert (0 <= u * Qabs x)%Q by (apply Qmult_le_0_compat; lra). lra.
Qed.

Lemma exact_within_allowance (a b : Q) :
  (a == b)%Q -> (Qabs (a - b) <= u * Qabs b + eta)%Q.
Proof.
  intros E. assert (E0 : (a - b == 0)%Q) by (rewrite E; ring).
  rewrite E0. change (Qabs 0) with 0%Q. apply rounding_allowance_nonneg.
Qed.

Lemma binary_normalize_error (m e : Z) (szero : bool) :
  is_finite (binary_normalize prec emax m e szero) = true ->
  (Qabs (to_Q (binary_normalize prec emax m e szero) - inject_Z m * pow2 e)
   <= u * Qabs (inject_Z m * pow2 e) + eta)%Q.
Proof.
  destruct m as [|p|p]; cbn [binary_normalize]; intros Hfin.
  - apply exact_within_allowance. cbn [to_Q]. change (inject_Z 0) with 0%Q. ring.
  - destruct (binary_round_error false p e Hfin) as (v & Ev & Hv).
    pose proof (pow2_pos e).
    assert (0 < inject_Z (Zpos p))%Q by reflexivity.
    assert (0 < inject_Z (Zpos p) * pow2 e)%Q by nra.
    rewrite Ev, (Qabs_pos (inject_Z (Zpos p) * pow2 e)) by lra. exact Hv.
  - destruct (binary_round_error true p e Hfin) as (v & Ev & Hv).
    pose proof (pow2_pos e).
    assert (0 < inject_Z (Zpos p))%Q by reflexivity.
    assert (0 < inject_Z (Zpos p) * pow2 e)%Q by nra.
    assert (En : (inject_Z (Zneg p) == - inject_Z (Zpos p))%Q) by reflexivity.
    rewrite Ev, En.
    assert (E1 : (- v - - inject_Z (Zpos p) * pow2 e
                  == - (v - inject_Z (Zpos p) * pow2 e))%Q) by ring.
    assert (E2 : (- inject_Z (Zpos p) * pow2 e == - (inject_Z (Zpos p) * pow2 e))%Q) by ring.
    rewrite E1, E2, !Qabs_opp, (Qabs_pos (inject_Z (Zpos p) * pow2 e)) by lra.
    exact Hv.
Qed.

Lemma inject_Z_cond_Zopp (s : bool) (m : Z) :
  (inject_Z (cond_Zopp s m) == if s then - inject_Z m else inject_Z m)%Q.
Proof. destruct s; cbn [cond_Zopp]; [rewrite inject_Z_opp|]; reflexivity. Qed.

(** Addition: the result, when finite, is the sum within the rounding
    allowance. *)
Lemma add_error (x y : float) :
  is_finite (add x y) = true ->
  (Qabs (to_Q (add x y) - (to_Q x + to_Q y)) <= u * Qabs (to_Q x + to_Q y) + eta)%Q.
Proof.
  unfold add.
  destruct x as [sx|sx| |sx mx ex], y as [sy|sy| |sy my ey];
    cbn [SFadd is_finite]; try discriminate; intros Hfin.
  - apply exact_within_allowance. destruct sx, sy; cbn [to_Q]; ring.
  - apply exact_within_allowance. cbn [to_Q]. ring.
  - destruct sx, sy; discriminate Hfin.
  - apply exact_within_allowance. cbn [to_Q]. ring.
  - pose proof (binary_normalize_error _ _ _ Hfin) as H.
    assert (E : (inject_Z
                   (cond_Zopp sx (Zpos (fst (shl_align mx ex (Z.min ex ey))))
                    + cond_Zopp sy (Zpos (fst (shl_align my ey (Z.min ex ey)))))
                 * pow2 (Z.min ex ey)
                 == to_Q (S754_finite sx mx ex) + to_Q (S754_finite sy my ey))%Q).
    { rewrite !to_Q_finite, inject_Z_plus, !inject_Z_cond_Zopp.
      pose proof (shl_align_fst mx ex (Z.min ex ey) ltac:(lia)) as H1.
      pose proof (shl_align_fst my ey (Z.min ex ey) ltac:(lia)) as H2.
      destruct sx, sy; lra. }
    rewrite E in H. exact H.
Qed.

Lemma sub_error (x y : float) :
  is_finite (sub x y) = true ->
  (Qabs (to_Q (sub x y) - (to_Q x - to_Q y)) <= u * Qabs (to_Q x - to_Q y) + eta)%Q.
Proof.
  unfold sub.
  destruct x as [sx|sx| |sx mx ex], y as [sy|sy| |sy my ey];
    cbn [SFsub is_finite]; try discriminate; intros Hfin.
  - apply exact_within_allowance. destruct sx, sy; cbn [to_Q]; ring.
  - apply exact_within_allowance. rewrite !to_Q_finite, !inject_Z_cond_Zopp.
    cbn [to_Q]. destruct sy; cbn [negb]; ring.
  - destruct sx, sy; discriminate Hfin.
  - apply exact_within_allowance. cbn [to_Q]. ring.
  - pose proof (binary_normalize_error _ _ _ Hfin) as H.
    assert (E : (inject_Z
                   (cond_Zopp sx (Zpos (fst (shl_align mx ex (Z.min ex ey))))
                    - cond_Zopp sy (Zpos (fst (shl_align my ey (Z.min ex ey)))))
                 * pow2 (Z.min ex ey)
                 == to_Q (S754_finite sx mx ex) - to_Q (S754_finite sy my ey))%Q).
    { rewrite !to_Q_finite. unfold Z.sub. rewrite inject_Z_plus, inject_Z_opp.
      rewrite !inject_Z_cond_Zopp.
      pose proof (shl_align_fst mx ex (Z.min ex ey) ltac:(lia)) as H1.
      pose proof (shl_align_fst my ey (Z.min ex ey) ltac:(lia)) as H2.
      destruct sx, sy; lra. }
    rewrite E in H. exact H.
Qed.

Lemma mul_error (x y : float) :
  is_finite (mul x y) = true ->
  (Qabs (to_Q (mul x y) - to_Q x * to_Q y) <= u * Qabs (to_Q x * to_Q y) + eta)%Q.
Proof.
  unfold mul.
  destruct x as [sx|sx| |sx mx ex], y as [sy|sy| |sy my ey];
    cbn [SFmul is_finite]; try discriminate; intros Hfin;
    try (apply exact_within_allowance; cbn [to_Q]; ring).
  destruct (binary_round_aux_error (xorb sx sy) (Zpos (mx * my)) (ex + ey)
              loc_Exact 0 ltac:(lia) ltac:(reflexivity) ltac:(now left) Hfin)
    as (v & Ev & Hv).
  pose proof (pow2_pos ex). pose proof (pow2_pos ey).
  assert (Hx : (0 < inject_Z (Zpos mx))%Q) by reflexivity.
  assert (Hy : (0 < inject_Z (Zpos my))%Q) by reflexivity.
  assert (E : ((inject_Z (Zpos (mx * my)) + 0) * pow2 (ex + ey)
               == (inject_Z (Zpos mx) * pow2 ex) * (inject_Z (Zpos my) * pow2 ey))%Q).
  { rewrite Pos2Z.inj_mul, inject_Z_mult, pow2_add. ring. }
  rewrite E in Hv.
  set (X := (inject_Z (Zpos mx) * pow2 ex)%Q) in *.
  set (Y := (inject_Z (Zpos my) * pow2 ey)%Q) in *.
  assert (HX : (0 < X)%Q) by (unfold X; nra).
  assert (HY : (0 < Y)%Q) by (unfold Y; nra).
  assert (HXY : (0 < X * Y)%Q) by nra.
  rewrite Ev, !to_Q_finite, !inject_Z_cond_Zopp. fold X. fold Y.
  destruct sx, sy; cbn [xorb].
  + assert (E1 : (- inject_Z (Zpos mx) * pow2 ex * (- inject_Z (Zpos my) * pow2 ey)
                  == X * Y)%Q) by (unfold X, Y; ring).
    rewrite E1, (Qabs_pos (X * Y)) by lra. exact Hv.
  + assert (E1 : (- inject_Z (Zpos mx) * pow2 ex * (inject_Z (Zpos my) * pow2 ey)
                  == - (X * Y))%Q) by (unfold X, Y; ring).
    assert (E2 : (- v - - (X * Y) == - (v - X * Y))%Q) by ring.
    rewrite E1, E2, !Qabs_opp, (Qabs_pos (X * Y)) by lra. exact Hv.
  + assert (E1 : (inject_Z (Zpos mx) * pow2 ex * (- inject_Z (Zpos my) * pow2 ey)
                  == - (X * Y))%Q) by (unfold X, Y; ring).
    assert (E2 : (- v - - (X * Y) == - (v - X * Y))%Q) by ring.
    rewrite E1, E2, !Qabs_opp, (Qabs_pos (X * Y)) by lra. exact Hv.
  + fold X. fold Y. rewrite (Qabs_pos (X * Y)) by lra. exact Hv.
Qed.

(** The location that the division computes from the remainder is the
    position of the quotient between two integers. *)
Lemma new_location_spec (m r : Z) :
  0 < m -> 0 <= r < m -> loc_in (new_location m r) (inject_Z r / inject_Z m).
Proof.
  intros Hm Hr.
  assert (Hm' : (0 < inject_Z m)%Q) by (rewrite Zlt_Qlt in Hm; exact Hm).
  assert (Hlt : forall a b : Z, a < b -> (inject_Z a < inject_Z b)%Q).
  { intros a b H. rewrite Zlt_Qlt in H. exact H. }
  assert (E2 : (inject_Z (2 * r) == 2 * inject_Z r)%Q).
  { rewrite inject_Z_mult. reflexivity. }
  destruct (Z.eq_dec r 0) as [->|Hr0].
  { assert (E : new_location m 0 = loc_Exact).
    { unfold new_location, new_location_even, new_location_odd.
      destruct (Z.even m); reflexivity. }
    rewrite E. cbn [loc_in]. change (inject_Z 0) with 0%Q. unfold Qdiv.
    apply Qmult_0_l. }
  assert (Er : (r =? 0) = false) by (apply Z.eqb_neq; exact Hr0).
  unfold new_location, new_location_even, new_location_odd.
  assert (Hpos : (0 < inject_Z r)%Q) by (apply (Hlt 0 r); lia).
  assert (Hd0 : (0 < inject_Z r / inject_Z m)%Q).
  { apply Qlt_shift_div_l; lra. }
  assert (Hd1 : (inject_Z r / inject_Z m < 1)%Q).
  { apply Qlt_shift_div_r; [lra|]. pose proof (Hlt r m ltac:(lia)). lra. }
  assert (Hlo : 2 * r < m -> (inject_Z r / inject_Z m < 1 # 2)%Q).
  { intros H. apply Qlt_shift_div_r; [lra|]. pose proof (Hlt _ _ H). lra. }
  assert (Hhi : m < 2 * r -> (1 # 2 < inject_Z r / inject_Z m)%Q).
  { intros H. apply Qlt_shift_div_l; [lra|]. pose proof (Hlt _ _ H). lra. }
  destruct (Z.even m) eqn:Ev; rewrite Er.
  - destruct (Z.compare_spec (2 * r) m) as [E|L|G]; cbn [loc_in].
    + rewrite <- E, E2. field. lra.
    + split; [exact Hd0|now apply Hlo].
    + split; [now apply Hhi|exact Hd1].
  - destruct (Z.compare_spec (2 * r + 1) m) as [E|L|G]; cbn [loc_in].
    + split; [exact Hd0|apply Hlo; lia].
    + split; [exact Hd0|apply Hlo; lia].
    + split; [apply Hhi|exact Hd1].
      destruct (Z.eq_dec (2 * r) m) as [E|]; [|lia].
      rewrite <- E, Z.even_mul in Ev. discriminate Ev.
Qed.

(** The quotient that [SFdiv_core_binary] hands to the rounding step. *)
Lemma SFdiv_core_binary_spec (mx my : positive) (ex ey : Z) :
  let r := SFdiv_core_binary prec emax (Zpos mx) ex (Zpos my) ey in
  0 <= fst (fst r)
  /\ snd (fst r) <= fexp prec emax (Zdigits2 (fst (fst r)) + snd (fst r))
  /\ exists d : Q,
       loc_in (snd r) d
       /\ ((inject_Z (fst (fst r)) + d) * pow2 (snd (fst r))
           == (inject_Z (Zpos mx) * pow2 ex) / (inject_Z (Zpos my) * pow2 ey))%Q.
Proof.
  unfold SFdiv_core_binary. rewrite !fexp_eq.
  set (d1 := Zdigits2 (Zpos mx)). set (d2 := Zdigits2 (Zpos my)).
  set (e' := Z.min (Z.max (d1 + ex - (d2 + ey) - 24) (-149)) (ex - ey)).
  set (s := ex - ey - e').
  assert (Hs : 0 <= s) by (unfold s, e'; lia).
  set (m' := match s with
             | 0 => Zpos mx
             | Zpos _ => Z.shiftl (Zpos mx) s
             | Zneg _ => 0
             end).
  assert (Em' : m' = Zpos mx * 2 ^ s).
  { unfold m'. destruct s as [|p|p]; try lia.
    rewrite Z.shiftl_mul_pow2 by lia. reflexivity. }
  pose proof (Z_div_mod m' (Zpos my) ltac:(lia)) as Hdm.
  destruct (Z.div_eucl m' (Zpos my)) as [q r]. destruct Hdm as [Eq Hr].
  cbn [fst snd].
  assert (H2s : 0 < 2 ^ s) by (apply Z.pow_pos_nonneg; lia).
  assert (Hm'pos : 0 <= m') by (rewrite Em'; lia).
  assert (Hq : 0 <= q) by nia.
  split; [exact Hq|]. split.
  - (* the quotient has enough digits *)
    assert (Hdig : d1 - d2 + s <= Zdigits2 q).
    { destruct (Z_le_gt_dec (d1 - d2 + s) 0) as [Hle|Hgt].
      { pose proof (Zdigits2_nonneg q). lia. }
      apply Zdigits2_ge; [exact Hq| |lia].
      pose proof (digits_bounds mx) as [Hx1 _]. pose proof (digits_bounds my) as [_ Hy2].
      fold (Zdigits2 (Zpos mx)) in Hx1. fold (Zdigits2 (Zpos my)) in Hy2.
      fold d1 in Hx1. fold d2 in Hy2.
      assert (Hd1 : 1 <= d1) by (unfold d1; simpl; lia).
      assert (Hd2 : 1 <= d2) by (unfold d2; simpl; lia).
      assert (Hp : 0 < 2 ^ (d1 - d2 + s - 1)) by (apply Z.pow_pos_nonneg; lia).
      assert (Hlow : Zpos my * 2 ^ (d1 - d2 + s - 1) <= m').
      { rewrite Em'.
        apply Z.le_trans with (2 ^ d2 * 2 ^ (d1 - d2 + s - 1)); [nia|].
        rewrite <- Z.pow_add_r by lia.
        replace (d2 + (d1 - d2 + s - 1)) with ((d1 - 1) + s) by lia.
        rewrite Z.pow_add_r by lia. nia. }
      destruct (Z_lt_le_dec q (2 ^ (d1 - d2 + s - 1))) as [Hlt|Hge]; [|exact Hge].
      exfalso. nia. }
    unfold e' in *. lia.
  - exists (inject_Z r / inject_Z (Zpos my))%Q. split.
    + apply new_location_spec; lia.
    + assert (Hy : (0 < inject_Z (Zpos my))%Q) by reflexivity.
      pose proof (pow2_pos ey) as Hpy. pose proof (pow2_pos ex).
      assert (Em : (inject_Z (Zpos mx) * pow2 s == inject_Z (Zpos my) * inject_Z q + inject_Z r)%Q).
      { rewrite (pow2_nonneg s Hs), <- !inject_Z_mult, <- inject_Z_plus, <- Em', Eq.
        reflexivity. }
      assert (Ee : (pow2 ex == pow2 s * pow2 ey * pow2 e')%Q).
      { rewrite <- !pow2_add. replace (s + ey + e') with ex by (unfold s; lia).
        reflexivity. }
      rewrite Ee.
      transitivity ((inject_Z (Zpos mx) * pow2 s) * pow2 e' / inject_Z (Zpos my))%Q.
      * rewrite Em. field. lra.
      * field. split; lra.
Qed.

Lemma div_error (x : float) (sy : bool) (my : positive) (ey : Z) :
  is_finite (div x (S754_finite sy my ey)) = true ->
  (Qabs (to_Q (div x (S754_finite sy my ey)) - to_Q x / to_Q (S754_finite sy my ey))
   <= u * Qabs (to_Q x / to_Q (S754_finite sy my ey)) + eta)%Q.
Proof.
  unfold div.
  assert (Hy0 : ~ (to_Q (S754_finite sy my ey) == 0)%Q).
  { rewrite to_Q_finite, inject_Z_cond_Zopp. pose proof (pow2_pos ey).
    assert (0 < inject_Z (Zpos my))%Q by reflexivity. destruct sy; nra. }
  destruct x as [sx|sx| |sx mx ex]; cbn [SFdiv is_finite]; try discriminate;
    intros Hfin;
    try (apply exact_within_allowance; unfold Qdiv; cbn [to_Q];
         rewrite Qmult_0_l; reflexivity).
  pose proof (SFdiv_core_binary_spec mx my ex ey) as H. cbv zeta in H.
  destruct (SFdiv_core_binary prec emax (Zpos mx) ex (Zpos my) ey) as [[mz ez] lz].
  cbn [fst snd] in H. destruct H as (Hmz & Hez & d & Hd & Ev).
  destruct (binary_round_aux_error (xorb sx sy) mz ez lz d Hmz Hd
              ltac:(now right) Hfin) as (v & Er & Hv).
  rewrite Ev in Hv.
  pose proof (pow2_pos ex). pose proof (pow2_pos ey).
  assert (Hx : (0 < inject_Z (Zpos mx))%Q) by reflexivity.
  assert (Hy : (0 < inject_Z (Zpos my))%Q) by reflexivity.
  set (X := (inject_Z (Zpos mx) * pow2 ex)%Q) in *.
  set (Y := (inject_Z (Zpos my) * pow2 ey)%Q) in *.
  assert (HX : (0 < X)%Q) by (unfold X; nra).
  assert (HY : (0 < Y)%Q) by (unfold Y; nra).
  assert (HXY : (0 < X / Y)%Q) by (apply Qlt_shift_div_l; lra).
  rewrite Er, !to_Q_finite, !inject_Z_cond_Zopp.
  destruct sx, sy; cbn [xorb].
  + assert (E1 : (- inject_Z (Zpos mx) * pow2 ex / (- inject_Z (Zpos my) * pow2 ey)
                  == X / Y)%Q) by (unfold X, Y; field; lra).
    rewrite E1, (Qabs_pos (X / Y)) by lra. exact Hv.
  + assert (E1 : (- inject_Z (Zpos mx) * pow2 ex / (inject_Z (Zpos my) * pow2 ey)
                  == - (X / Y))%Q) by (unfold X, Y; field; lra).
    assert (E2 : (- v - - (X / Y) == - (v - X / Y))%Q) by ring.
    rewrite E1, E2, !Qabs_opp, (Qabs_pos (X / Y)) by lra. exact Hv.
  + assert (E1 : (inject_Z (Zpos mx) * pow2 ex / (- inject_Z (Zpos my) * pow2 ey)
                  == - (X / Y))%Q) by (unfold X, Y; field; lra).
    assert (E2 : (- v - - (X / Y) == - (v - X / Y))%Q) by ring.
    rewrite E1, E2, !Qabs_opp, (Qabs_pos (X / Y)) by lra. exact Hv.
  + fold X. fold Y. rewrite (Qabs_pos (X / Y)) by lra. exact Hv.
Qed.

End Float32RoundingFacts.

(* ------------------------------------------------------------------ *)
(** ** TfQuantizer *)
(* ------------------------------------------------------------------ *)

Module TfQuantizerFacts.
Import Float32 Float32Facts TfQuantizer Float32Rounding Float32RoundingFacts.

(** C5, as stated, at [x_rounding], [scale_rounding] and zero point 0:
    [x] lies well inside the range that int8 values represent at this
    scale and its quantized value is 96, yet dequantizing 96 gives a float
    whose distance to [x] is larger than [scale], be the distance taken
    exactly or in binary32.  The quotient [x/scale] is just below 97 and is
    truncated, and the product [96 * scale] is rounded downwards. *)
Lemma quantize_round_trip_exceeds_scale :
  (0 < to_Q scale_rounding)%Q
  /\ (-128 * to_Q scale_rounding <= to_Q x_rounding)%Q
  /\ (to_Q x_rounding <= 127 * to_Q scale_rounding)%Q
  /\ quantize x_rounding scale_rounding zero = Some 96
  /\ (to_Q scale_rounding
      < Qabs (to_Q (dequantize 96 scale_rounding zero) - to_Q x_rounding))%Q
  /\ leb (SFabs (sub (dequantize 96 scale_rounding zero) x_rounding))
         scale_rounding = false.
Proof.
  repeat split; try (vm_compute; reflexivity); vm_compute; discriminate.
Qed.

Lemma of_int_exact (q : Z) :
  -128 <= q <= 127 -> (to_Q (of_int q) == inject_Z q)%Q.
Proof.
  intros Hq.
  assert (H : forallb (fun k : nat =>
                         Qeq_bool (to_Q (of_int (Z.of_nat k - 128)))
                                  (inject_Z (Z.of_nat k - 128)))
                      (seq 0 256) = true) by (vm_compute; reflexivity).
  rewrite forallb_forall in H.
  specialize (H (Z.to_nat (q + 128))).
  replace (Z.of_nat (Z.to_nat (q + 128)) - 128) with q in H by lia.
  apply Qeq_bool_eq, H, in_seq. lia.
Qed.

Lemma add_finite_inv (x y : float) :
  is_finite (add x y) = true -> is_finite x = true /\ is_finite y = true.
Proof.
  destruct x as [sx|sx| |sx mx ex], y as [sy|sy| |sy my ey];
    cbn; try (intros; split; reflexivity); try discriminate;
    destruct sx, sy; discriminate.
Qed.

Lemma mul_finite_inv (x y : float) :
  is_finite (mul x y) = true -> is_finite x = true /\ is_finite y = true.
Proof.
  destruct x as [sx|sx| |sx mx ex], y as [sy|sy| |sy my ey];
    cbn [mul SFmul is_finite]; try (intros; split; reflexivity); discriminate.
Qed.

Lemma Qabs_triangle_sub (a b : Q) : (Qabs a <= Qabs b + Qabs (a - b))%Q.
Proof.
  assert (E : (a == b + (a - b))%Q) by ring.
  rewrite E at 1. apply Qabs_triangle.
Qed.

(** The arithmetic of the round trip: four operations, each within the
    rounding allowance, around a truncation of less than one unit. *)
Lemma round_trip_arith (v s z w d a qz b c : Q) :
  (0 < s)%Q -> (w * s == v)%Q ->
  (Qabs (d - w) <= u * Qabs w + eta)%Q ->
  (Qabs (a - (d + z)) <= u * Qabs (d + z) + eta)%Q ->
  (Qabs (qz - a) < 1)%Q -> (Qabs qz <= 128)%Q ->
  (Qabs (b - (qz - z)) <= u * Qabs (qz - z) + eta)%Q ->
  (Qabs (c - b * s) <= u * Qabs (b * s) + eta)%Q ->
  (Qabs (c - v)
   <= s + pow2 (-22) * (Qabs v + (129 + Qabs z) * s) + pow2 (-148) * (1 + s))%Q.
Proof.
  intros Hs Ew H1 H2 H3 Hq H4 H5.
  assert (Eeta : (pow2 (-148) == 4 * eta)%Q).
  { rewrite eta_eq. replace (-148) with (-150 + 2) by lia. rewrite pow2_add.
    change (pow2 2) with 4%Q. ring. }
  assert (Eu4 : (pow2 (-22) == 4 * u)%Q) by reflexivity.
  rewrite Eeta, Eu4.
  pose proof eta_pos as Heta.
  assert (Ev : (Qabs v == Qabs w * s)%Q).
  { rewrite <- Ew, Qabs_Qmult, (Qabs_pos s) by lra. reflexivity. }
  assert (Ebs : (Qabs (b * s) == Qabs b * s)%Q).
  { rewrite Qabs_Qmult, (Qabs_pos s) by lra. reflexivity. }
  assert (F6 : (Qabs (c - v) <= Qabs (c - b * s) + Qabs (b - w) * s)%Q).
  { assert (E : (c - v == (c - b * s) + (b - w) * s)%Q) by (rewrite <- Ew; ring).
    rewrite E. eapply Qle_trans; [apply Qabs_triangle|].
    rewrite (Qabs_Qmult (b - w) s), (Qabs_pos s) by lra. lra. }
  assert (F1 : (Qabs (b - w)
                <= Qabs (b - (qz - z)) + Qabs (qz - a) + Qabs (a - (d + z))
                   + Qabs (d - w))%Q).
  { assert (E : (b - w == (b - (qz - z)) + ((qz - a) + ((a - (d + z)) + (d - w))))%Q)
      by ring.
    rewrite E.
    eapply Qle_trans; [apply Qabs_triangle|].
    pose proof (Qabs_triangle (qz - a) ((a - (d + z)) + (d - w))).
    pose proof (Qabs_triangle (a - (d + z)) (d - w)). lra. }
  assert (F2 : (Qabs (qz - z) <= Qabs qz + Qabs z)%Q).
  { assert (E : (qz - z == qz + - z)%Q) by ring.
    rewrite E. eapply Qle_trans; [apply Qabs_triangle|]. rewrite Qabs_opp. lra. }
  pose proof (Qabs_triangle_sub (d + z) a) as F3.
  assert (E3 : (Qabs (d + z - a) == Qabs (a - (d + z)))%Q).
  { assert (E : (d + z - a == - (a - (d + z)))%Q) by ring.
    rewrite E. apply Qabs_opp. }
  rewrite E3 in F3.
  pose proof (Qabs_triangle_sub a qz) as F4.
  assert (E4 : (Qabs (a - qz) == Qabs (qz - a))%Q).
  { assert (E : (a - qz == - (qz - a))%Q) by ring.
    rewrite E. apply Qabs_opp. }
  rewrite E4 in F4.
  pose proof (Qabs_triangle_sub b (qz - z)) as F5.
  rewrite Ebs in H5. rewrite Ev.
  pose proof (Qabs_nonneg w). pose proof (Qabs_nonneg z).
  pose proof (Qabs_nonneg b). pose proof (Qabs_nonneg (b - w)).
  pose proof (Qabs_nonneg (d + z)).
  set (aw := Qabs w) in *. set (az := Qabs z) in *. set (ab := Qabs b) in *.
  set (aT := Qabs (b - w)) in *. set (adz := Qabs (d + z)) in *.
  set (aqz := Qabs (qz - z)) in *. set (aq := Qabs qz) in *.
  set (aa := Qabs a) in *.
  set (e1 := Qabs (d - w)) in *. set (e2 := Qabs (a - (d + z))) in *.
  set (e3 := Qabs (qz - a)) in *. set (e4 := Qabs (b - (qz - z))) in *.
  set (e5 := Qabs (c - b * s)) in *. set (g := Qabs (c - w * s)) in *.
  assert (Hu : (u == 1 # 16777216)%Q) by reflexivity.
  rewrite Hu in *.
  assert (HT : (aT <= 1 + (1 # 16777216) * (128 + az) + (2 # 16777216) * (129 + eta)
                   + (1 # 16777216) * aw + 3 * eta)%Q) by lra.
  assert (Hb : (ab <= (1 + (1 # 16777216)) * (128 + az) + eta)%Q) by lra.
  clearbody aw az ab aT adz aqz aq aa e1 e2 e3 e4 e5 g.
  clear H1 H2 H3 H4 Hq F1 F2 F3 F4 F5 E3 E4 Ebs Ev Ew Eeta Eu4.
  nra.
Qed.

Lemma positive_is_finite (x : float) :
  (0 < to_Q x)%Q -> exists (s : bool) (m : positive) (e : Z), x = S754_finite s m e.
Proof.
  destruct x as [s|s| |s m e]; cbn [to_Q]; intros H;
    try (exfalso; revert H; apply Qlt_irrefl).
  now exists s, m, e.
Qed.

(** C5 (amended): for a positive scale, an [x] whose quantized value [q]
    exists and a finite dequantized value, the round trip is off by at
    most [scale] and a rounding allowance:
    [|dequantize(q) - x| <= scale + 2^-22 * (|x| + (129 + |zero_point|) * scale)
                          + 2^-148 * (1 + scale)].
    The truncation in [quantize] loses less than one step; each of the
    four float operations (the division and the addition of [quantize],
    the subtraction and the multiplication of [dequantize]) is correct to
    within [2^-24] of its result, or [2^-150] where it underflows, and
    acts on a quantity of at most about [|x| + (129 + |zero_point|) * scale]. *)
Theorem quantize_round_trip_bound (x scale zero_point : float) (q : Z) :
  (0 < to_Q scale)%Q ->
  quantize x scale zero_point = Some q ->
  is_finite (dequantize q scale zero_point) = true ->
  (Qabs (to_Q (dequantize q scale zero_point) - to_Q x)
   <= to_Q scale
      + pow2 (-22) * (Qabs (to_Q x) + (129 + Qabs (to_Q zero_point)) * to_Q scale)
      + pow2 (-148) * (1 + to_Q scale))%Q.
Proof.
  intros Hs Hq Hfin.
  unfold quantize in Hq. unfold dequantize in *.
  rewrite (eqb_zero_false scale Hs) in *. cbn [andb] in *.
  apply to_int8_some in Hq. destruct Hq as (Hfa & Eq & Hrange).
  destruct (add_finite_inv _ _ Hfa) as [Hfd _].
  destruct (mul_finite_inv _ _ Hfin) as [Hfb _].
  destruct (positive_is_finite scale Hs) as (sy & my & ey & Escale).
  pose proof (add_error _ _ Hfa) as H2.
  pose proof (sub_error _ _ Hfb) as H4.
  pose proof (mul_error _ _ Hfin) as H5.
  assert (H1 : (Qabs (to_Q (div x scale) - to_Q x / to_Q scale)
                <= u * Qabs (to_Q x / to_Q scale) + eta)%Q).
  { revert Hfd. rewrite Escale. apply div_error. }
  rewrite (of_int_exact q Hrange) in H4.
  apply (round_trip_arith (to_Q x) (to_Q scale) (to_Q zero_point)
           (to_Q x / to_Q scale) (to_Q (div x scale))
           (to_Q (add (div x scale) zero_point)) (inject_Z q)
           (to_Q (sub (of_int q) zero_point))).
  - exact Hs.
  - field. lra.
  - exact H1.
  - exact H2.
  - rewrite Eq. apply Qtrunc_close.
  - assert (H : (-128 <= inject_Z q)%Q /\ (inject_Z q <= 127)%Q).
    { destruct Hrange as [Hlo Hhi]. rewrite Zle_Qle in Hlo, Hhi. split; assumption. }
    apply Qabs_case; intros; lra.
  - exact H4.
  - exact H5.
Qed.

(** The amended bound at the input that refutes the stated one. *)
Lemma quantize_round_trip_bound_witness :
  quantize x_rounding scale_rounding zero = Some 96
  /\ (Qabs (to_Q (dequantize 96 scale_rounding zero) - to_Q x_rounding)
      <= to_Q scale_rounding
         + pow2 (-22) * (Qabs (to_Q x_rounding)
                         + (129 + Qabs (to_Q zero)) * to_Q scale_rounding)
         + pow2 (-148) * (1 + to_Q scale_rounding))%Q.
Proof.
  split; [vm_compute; reflexivity|].
  apply (quantize_round_trip_bound x_rounding scale_rounding zero 96);
    vm_compute; reflexivity.
Defined.

(** C6, as stated: at [v = 0.75], [scale = 1], [zero_point = 0] the code
    returns 0 where [round(v/scale) + zero_point] is 1; at [scale = 0],
    [zero_point = 0] the value 0.75 is not returned unchanged but as 0; and
    for 200 at scale 1, above the int8 range, the conversion has no
    defined result where the saturated value would be 127. *)
Lemma quantize_truncates_instead_of_rounding :
  quantize (lit 3 4) (of_int 1) zero = Some 0
  /\ quantize_documented (to_Q (lit 3 4)) (to_Q (of_int 1)) (to_Q zero) = 1
  /\ quantize (lit 3 4) zero zero = Some 0
  /\ quantize (of_int 200) (of_int 1) zero = None
  /\ quantize_documented (to_Q (of_int 200)) (to_Q (of_int 1)) (to_Q zero) = 127.
Proof. vm_compute. repeat split. Qed.

(** C6 (amended): [quantize] converts to int8 by truncation toward zero,
    without rounding to nearest and without saturation.  With [y] the float
    [value] itself when [scale] and [zero_point] are both zero, and the
    float [value / scale + zero_point] otherwise: whenever [y] is finite
    and lies strictly between -129 and 128 the result is [y] truncated
    toward zero; and whenever a result is defined it is that truncation,
    lies in [-128, 127] and is less than 1 away from [y]. *)
Theorem quantize_truncates (value scale zero_point : float) :
  let y := if eqb scale zero && eqb zero_point zero
           then value else add (div value scale) zero_point in
  (is_finite y = true -> (-129 < to_Q y)%Q -> (to_Q y < 128)%Q ->
   quantize value scale zero_point = Some (Qtrunc (to_Q y)))
  /\ (forall r : Z,
        quantize value scale zero_point = Some r ->
        is_finite y = true /\ r = Qtrunc (to_Q y) /\ -128 <= r <= 127
        /\ (Qabs (inject_Z r - to_Q y) < 1)%Q).
Proof.
  intros y. unfold quantize. fold y.
  assert (E : (if eqb scale zero && eqb zero_point zero
               then to_int8 value
               else to_int8 (add (div value scale) zero_point)) = to_int8 y).
  { unfold y. destruct (eqb scale zero && eqb zero_point zero); reflexivity. }
  rewrite E. split.
  - apply to_int8_spec.
  - intros r Hr. apply to_int8_some in Hr. destruct Hr as (Hf & Hr & Hb).
    repeat split; try assumption; try lia.
    subst r. apply Qtrunc_close.
Qed.

(** 2 at scale 1 with zero point 0.5 gives the float 2.5 and the result
    2; -2.5 gives -2. *)
Lemma quantize_truncates_witness :
  quantize (of_int 2) (of_int 1) (lit 1 2) = Some 2
  /\ quantize (lit (-5) 2) (of_int 1) zero = Some (-2).
Proof.
  split.
  - apply (proj1 (quantize_truncates (of_int 2) (of_int 1) (lit 1 2)));
      vm_compute; reflexivity.
  - apply (proj1 (quantize_truncates (lit (-5) 2) (of_int 1) zero));
      vm_compute; reflexivity.
Defined.

(** X4: a value that is not [>= 0] is returned as it is, for every
    non-negative range: the test [-value < -range] of the second branch
    cannot hold there. *)
Lemma clip_negative_unchanged (value range : float) :
  leb zero value = false -> leb zero range = true -> clip value range = value.
Proof.
  intros Hv Hr. unfold clip. rewrite Hv.
  destruct value as [sv|sv| |sv mv ev], range as [sr|sr| |sr mr er];
    try discriminate Hv; try discriminate Hr; try reflexivity;
    destruct sv; try discriminate Hv; destruct sr; try discriminate Hr;
    reflexivity.
Qed.

(** A value that is [>= 0] is cut at [range]. *)
Lemma clip_positive (value range : float) :
  leb zero value = true ->
  clip value range = if ltb range value then range else value.
Proof. intros Hv. unfold clip. now rewrite Hv. Qed.

(** C7 at [value = -5], [range = 1]: [clip] returns -5, below [-range],
    where the documented result is -1; the value 5 is cut to 1. *)
Theorem clip_leaves_negative_below_range :
  clip (of_int (-5)) (of_int 1) = of_int (-5)
  /\ (to_Q (clip (of_int (-5)) (of_int 1)) < - to_Q (of_int 1))%Q
  /\ clip (of_int 5) (of_int 1) = of_int 1.
Proof. vm_compute. repeat split. Qed.

End TfQuantizerFacts.

(* ------------------------------------------------------------------ *)
(** ** Feature quantization *)
(* ------------------------------------------------------------------ *)

Lemma value_div_eq : value_div = 666.
Proof. vm_compute. reflexivity. Qed.

(** C8: [value_div] is 666, the rounding of 25.6 * 26.0 = 665.6, and for
    every raw frontend value of a 16-bit type the slice entry is
    [((raw * 256) + (value_div / 2)) / value_div - 128] in C integer
    arithmetic (no 32-bit overflow occurs), clipped to [-128, 127]. *)
Theorem quantize_feature_formula (raw : Z) :
  -32768 <= raw <= 65535 ->
  value_div = 666
  /\ value_div = Qround_half_away ((256 # 10) * 26)
  /\ quantize_feature raw
     = clamp (-128) 127 ((raw * 256 + value_div ÷ 2) ÷ value_div - 128)
  /\ (0 <= raw ->
      quantize_feature raw
      = clamp (-128) 127 ((raw * 256 + value_div / 2) / value_div - 128)).
Proof.
  intros H.
  assert (F : quantize_feature raw
              = clamp (-128) 127 ((raw * 256 + value_div ÷ 2) ÷ value_div - 128)).
  { unfold quantize_feature, value_scale. rewrite value_div_eq.
    change (666 ÷ 2) with 333.
    rewrite (wrap32_small (raw * 256)) by (unfold INT32_MIN, INT32_MAX; lia).
    rewrite (wrap32_small (raw * 256 + 333)) by (unfold INT32_MIN, INT32_MAX; lia).
    set (v := (raw * 256 + 333) ÷ 666).
    assert (Hv : -12597 <= v <= 25192).
    { unfold v. split.
      - apply Z.quot_le_lower_bound; lia.
      - apply Z.quot_le_upper_bound; lia. }
    rewrite (wrap32_small (v - 128)) by (unfold INT32_MIN, INT32_MAX; lia).
    unfold clamp.
    destruct (Z.ltb_spec (v - 128) (-128)).
    - change (-128 >? 127) with false. cbv iota. rewrite wrap8_small; lia.
    - destruct (Z.gtb_spec (v - 128) 127); rewrite wrap8_small; lia. }
  split; [exact value_div_eq|]. split; [vm_compute; reflexivity|].
  split; [exact F|].
  intros Hpos. rewrite F, value_div_eq.
  rewrite (Z.quot_div_nonneg 666 2), (Z.quot_div_nonneg (raw * 256 + 666 / 2) 666);
    try lia; try reflexivity.
  change (666 / 2) with 333. lia.
Qed.

(** The raw value 300 gives the entry -13. *)
Lemma quantize_feature_formula_witness : quantize_feature 300 = -13.
Proof.
  destruct (quantize_feature_formula 300 ltac:(lia)) as (E & _ & F & _).
  rewrite F, E. reflexivity.
Defined.

(* ------------------------------------------------------------------ *)
(** ** TfLiteResultsQueue *)
(* ------------------------------------------------------------------ *)

Module QueueFacts.
Import TfLiteResultsQueue.

Lemma push_back_size (q : TfLiteResultsQueue.t) (entry : Result) :
  size (push_back q entry) = if size q >=? kMaxResults then size q else size q + 1.
Proof. unfold push_back. destruct (size q >=? kMaxResults); reflexivity. Qed.

Lemma push_back_size_bound (q : TfLiteResultsQueue.t) (entry : Result) :
  size q <= kMaxResults -> size (push_back q entry) <= kMaxResults.
Proof.
  intros H. rewrite push_back_size.
  destruct (Z.geb_spec (size q) kMaxResults); lia.
Qed.

Lemma pop_front_size (q : TfLiteResultsQueue.t) :
  size (snd (pop_front q)) = if size q <=? 0 then size q else size q - 1.
Proof. unfold pop_front. destruct (size q <=? 0); reflexivity. Qed.

Lemma push_back_wf (q : TfLiteResultsQueue.t) (entry : Result) :
  wf q -> wf (push_back q entry).
Proof.
  intros H. unfold push_back, size.
  destruct (Z.geb_spec (size_ q) kMaxResults); [exact H|].
  destruct H as (Hl & Hf & Hs).
  repeat split; simpl; try lia. now rewrite length_insert.
Qed.

Lemma pop_front_wf (q : TfLiteResultsQueue.t) : wf q -> wf (snd (pop_front q)).
Proof.
  intros H. unfold pop_front, size.
  destruct (Z.leb_spec (size_ q) 0); [exact H|].
  destruct H as (Hl & Hf & Hs). unfold wf. cbn [results_ front_index_ size_ snd].
  destruct (Z.geb_spec (front_index_ q + 1) kMaxResults);
    repeat split; try assumption; unfold kMaxResults in *; lia.
Qed.

(** C10: when the history already holds [kMaxResults] entries,
    [push_back] returns the queue as it was: same size, same front index,
    same stored entries; the new result is dropped and the oldest entry is
    kept.  Hence [push_back] never takes the size above [kMaxResults]. *)
Theorem push_back_full_discards (q : TfLiteResultsQueue.t) (entry : Result) :
  size q = kMaxResults ->
  push_back q entry = q
  /\ size (push_back q entry) = size q
  /\ front_index_ (push_back q entry) = front_index_ q
  /\ results_ (push_back q entry) = results_ q
  /\ contents (push_back q entry) = contents q
  /\ (forall (q' : TfLiteResultsQueue.t) (e : Result),
        size q' <= kMaxResults -> size (push_back q' e) <= kMaxResults).
Proof.
  intros H.
  assert (E : push_back q entry = q).
  { unfold push_back. rewrite H. reflexivity. }
  rewrite E. repeat split. apply push_back_size_bound.
Qed.

(** Pushing a 51st result on [full_queue] changes nothing; its front is
    still the first result pushed. *)
Lemma push_back_full_discards_witness :
  size full_queue = kMaxResults
  /\ push_back full_queue (Result_make 2 777 [3; 4]) = full_queue
  /\ time_ (front (push_back full_queue (Result_make 2 777 [3; 4]))) = 0.
Proof.
  split; [reflexivity|].
  destruct (push_back_full_discards full_queue (Result_make 2 777 [3; 4]) eq_refl)
    as (E & _).
  split; [exact E|]. rewrite E. reflexivity.
Defined.

End QueueFacts.

(* ------------------------------------------------------------------ *)
(** ** processLatestResults: the pruning loop and the early returns *)
(* ------------------------------------------------------------------ *)

Module RecognizeFacts.
Import TfLiteResultsQueue TfLiteMicroSpeechRecognizeCommands QueueFacts.


Lemma prune_loop_wf (fuel : nat) (q : TfLiteResultsQueue.t) (limit : Z) :
  wf q -> wf (prune_loop fuel q limit).
Proof.
  revert q. induction fuel as [|fuel IH]; intros q H; simpl; [exact H|].
  destruct (negb (empty q) && (time_ (front q) <? limit)); [|exact H].
  apply IH, pop_front_wf, H.
Qed.

(** The loop is left only when its condition is false: the fuel that
    [prune] gives is enough. *)
Lemma prune_loop_exit (fuel : nat) (q : TfLiteResultsQueue.t) (limit : Z) :
  0 <= size q <= Z.of_nat fuel ->
  let r := prune_loop fuel q limit in
  negb (empty r) && (time_ (front r) <? limit) = false.
Proof.
  revert q. induction fuel as [|fuel IH]; intros q H; simpl.
  - unfold empty. replace (size_ q) with 0 by (unfold size in H; lia).
    reflexivity.
  - destruct (negb (empty q) && (time_ (front q) <? limit)) eqn:E; [|exact E].
    apply IH. rewrite pop_front_size.
    destruct (Z.leb_spec (size q) 0); [|lia].
    unfold empty in E. unfold size in *.
    destruct (Z.eqb_spec (size_ q) 0); [discriminate E|lia].
Qed.


Lemma surviving_wf (self : TfLiteMicroSpeechRecognizeCommands.t) (tensor : TfLiteTensor)
    (time : Z) :
  wf (previous_results_ self) -> wf (surviving self tensor time).
Proof.
  intros H. unfold surviving, prune. apply prune_loop_wf, push_back_wf, H.
Qed.

Lemma process_rejected self tensor time out :
  rejects self tensor time = true ->
  processLatestResults self tensor time out = (kTfLiteError, out, self).
Proof.
  unfold rejects, processLatestResults. intros H.
  destruct (negb (started self)); [reflexivity|].
  destruct (bad_shape self tensor); [reflexivity|].
  destruct (negb (is_kTfLiteInt8 (type tensor))); [reflexivity|].
  destruct (out_of_order self time); [reflexivity|discriminate H].
Qed.

Lemma process_accepted self tensor time out :
  rejects self tensor time = false ->
  processLatestResults self tensor time out =
    let q := surviving self tensor time in
    let self' := with_results self q in
    if insufficient (cfg self) q time then
      (kTfLiteOk,
       {| found_command := previous_top_label_ self; score := 0;
          is_new_command := false |}, self')
    else
      let top := find_top (average_scores q (Z.to_nat (kCategoryCount self)))
                   (Z.to_nat (kCategoryCount self)) in
      let label := label_at (cfg self) (fst top) in
      if (snd top >? detection_threshold (cfg self))
         && (negb (label =? previous_top_label_ self)
             || (time_since_last_top self time >? suppression_ms (cfg self)))
      then (kTfLiteOk,
            {| found_command := label; score := to_uint8 (snd top);
               is_new_command := true |},
            with_top self' label time)
      else (kTfLiteOk,
            {| found_command := label; score := to_uint8 (snd top);
               is_new_command := false |}, self').
Proof.
  unfold rejects, processLatestResults. intros H.
  destruct (negb (started self)); [discriminate H|].
  destruct (bad_shape self tensor); [discriminate H|].
  destruct (negb (is_kTfLiteInt8 (type tensor))); [discriminate H|].
  destruct (out_of_order self time); [discriminate H|].
  reflexivity.
Qed.


Lemma insufficient_false_iff (c : TfLiteConfig) (q : TfLiteResultsQueue.t)
    (time : Z) :
  insufficient c q time = false <->
  minimum_count c <= size q
  /\ average_window_duration_ms c ÷ 4 <= time - time_ (front q).
Proof.
  unfold insufficient. rewrite orb_false_iff, !Z.ltb_ge. reflexivity.
Qed.

(** X1: a timestamp below the one at the front of the history (its
    oldest entry) is rejected with [kTfLiteError], and neither the state
    nor the out-parameters change. *)
Lemma out_of_order_rejected self tensor time out :
  out_of_order self time = true ->
  processLatestResults self tensor time out = (kTfLiteError, out, self).
Proof.
  intros H. apply process_rejected. unfold rejects. rewrite H.
  now rewrite !orb_true_r.
Qed.


Lemma create_wf : wf TfLiteResultsQueue.create.
Proof. repeat split; unfold kMaxResults; simpl; lia. Qed.






(** C2 at the failing input: the history of [warm_recognizer] holds the
    timestamps 0 and 300, the most recent being 300; a further result with
    the timestamp 100 is below the most recent one, yet the call returns
    [kTfLiteOk] and appends the result, so that the history is no longer
    in time order.  Only a timestamp below the oldest entry is refused. *)
Theorem timestamp_regression_accepted :
  let tensor := scores_tensor [-128; 127] in
  (time_ <$> contents (previous_results_ warm_recognizer)) = [0; 300]
  /\ time_ (back (previous_results_ warm_recognizer)) = 300
  /\ (let '(status, out', self') :=
        processLatestResults warm_recognizer tensor 100 no_recognition in
      status = kTfLiteOk
      /\ (time_ <$> contents (previous_results_ self')) = [0; 300; 100])
  /\ fst (fst (processLatestResults warm_recognizer tensor (-1) no_recognition))
     = kTfLiteError.
Proof. vm_compute. repeat split. Qed.

End RecognizeFacts.

(* ------------------------------------------------------------------ *)
(** ** processLatestResults: the averages and the top category *)
(* ------------------------------------------------------------------ *)

Module TopFacts.
Import TfLiteResultsQueue TfLiteMicroSpeechRecognizeCommands QueueFacts RecognizeFacts.

Lemma find_top_step (avg : list Z) (n : nat) :
  find_top avg (S n) =
    if cell avg n >? snd (find_top avg n)
    then (Z.of_nat n, cell avg n) else find_top avg n.
Proof. unfold find_top. rewrite seq_S, foldl_app. reflexivity. Qed.

(** On non-negative averages the search returns the highest one and the
    first index that holds it. *)
Lemma find_top_spec (avg : list Z) (n : nat) :
  (forall i, (i < n)%nat -> 0 <= cell avg i) ->
  let top := find_top avg n in
  0 <= snd top
  /\ (forall i, (i < n)%nat -> cell avg i <= snd top)
  /\ 0 <= fst top
  /\ ((0 < n)%nat ->
      (Z.to_nat (fst top) < n)%nat
      /\ cell avg (Z.to_nat (fst top)) = snd top
      /\ (forall i, (i < Z.to_nat (fst top))%nat -> cell avg i < snd top)).
Proof.
  induction n as [|n IH]; intros Hpos.
  - cbn. repeat split; try lia.
  - rewrite find_top_step.
    destruct IH as (IH1 & IH2 & IH3 & IH4); [intros i Hi; apply Hpos; lia|].
    pose proof (Hpos n ltac:(lia)) as Hn.
    destruct (Z.gtb_spec (cell avg n) (snd (find_top avg n))) as [Hgt|Hle];
      cbn [fst snd].
    + rewrite Nat2Z.id. repeat split; try lia.
      * intros i Hi. destruct (decide (i = n)) as [->|Hne]; [lia|].
        specialize (IH2 i ltac:(lia)). lia.
      * intros i Hi. specialize (IH2 i Hi). lia.
    + split; [exact IH1|]. split.
      { intros i Hi. destruct (decide (i = n)) as [->|Hne]; [lia|].
        apply IH2. lia. }
      split; [exact IH3|]. intros _.
      destruct n as [|n'].
      * change (find_top avg 0) with (0, 0) in *. cbn [fst snd] in *.
        change (Z.to_nat 0) with 0%nat. repeat split; try lia.
      * destruct (IH4 ltac:(lia)) as (A & B & C).
        repeat split; try lia; assumption.
Qed.

Lemma foldr_add_init (l : list Z) (a : Z) :
  foldr Z.add a l = foldr Z.add 0 l + a.
Proof. induction l as [|y l IH]; simpl; lia. Qed.

Lemma psum_S q i k :
  psum q i (S k)
  = psum q i k + (cell8 (scores (from_front q (Z.of_nat k))) i + 128).
Proof.
  unfold psum. rewrite seq_S, fmap_app, foldr_app, foldr_add_init.
  cbn [fmap list_fmap foldr Nat.add]. lia.
Qed.

Lemma psum_bounds q i k : 0 <= psum q i k <= 255 * Z.of_nat k.
Proof.
  induction k as [|k IH]; [cbn; lia|]. rewrite psum_S.
  pose proof (wrap8_range (cell (scores (from_front q (Z.of_nat k))) i)).
  unfold cell8. lia.
Qed.

Lemma mean_score_psum q i :
  mean_score q i = psum q i (Z.to_nat (size q)) ÷ size q.
Proof.
  unfold mean_score, psum, contents. rewrite <- list_fmap_compose. reflexivity.
Qed.

Lemma cell_fmap_seq (f : nat -> Z) (n i : nat) :
  (i < n)%nat -> cell (f <$> seq 0 n) i = f i.
Proof.
  intros H. unfold cell.
  rewrite list_lookup_fmap, lookup_seq_lt by exact H. reflexivity.
Qed.

(** The first loop: after [k] entries, cell [i] holds the sum of their
    re-biased scores; at most [kMaxResults] terms of at most 255 do not
    overflow 32 bits. *)
Lemma accumulate_sums q n k i :
  (k <= 50)%nat -> (i < n)%nat ->
  cell (foldl (accumulate q n) (replicate n 0) (seq 0 k)) i = psum q i k.
Proof.
  intros Hk Hi. induction k as [|k IH].
  - cbn. unfold cell. rewrite lookup_replicate_2 by exact Hi. reflexivity.
  - rewrite seq_S, foldl_app, psum_S. cbn [foldl]. unfold accumulate at 1.
    rewrite cell_fmap_seq by exact Hi. cbn [Nat.add].
    destruct (Z.eqb_spec (Z.of_nat k) 0) as [E|E].
    + assert (k = 0%nat) by lia. subst k. cbn. lia.
    + rewrite IH by lia. apply wrap32_small.
      pose proof (psum_bounds q i k).
      pose proof (wrap8_range (cell (scores (from_front q (Z.of_nat k))) i)).
      unfold cell8, INT32_MIN, INT32_MAX. lia.
Qed.

Lemma cell_fmap_quot (l : list Z) (d : Z) (i : nat) :
  cell ((fun s : Z => s ÷ d) <$> l) i = cell l i ÷ d.
Proof.
  unfold cell. rewrite list_lookup_fmap. destruct (l !! i); reflexivity.
Qed.

Lemma average_scores_mean q n i :
  0 <= size q <= kMaxResults -> (i < n)%nat ->
  cell (average_scores q n) i = mean_score q i.
Proof.
  intros Hs Hi. unfold average_scores. rewrite cell_fmap_quot, mean_score_psum.
  rewrite accumulate_sums;
    [reflexivity | unfold kMaxResults in Hs; lia | exact Hi].
Qed.

Lemma mean_score_nonneg q i : 0 <= size q -> 0 <= mean_score q i.
Proof.
  intros Hs. rewrite mean_score_psum.
  pose proof (psum_bounds q i (Z.to_nat (size q))).
  destruct (Z.eq_dec (size q) 0) as [E|E].
  - rewrite E. assert (Q0 : forall a : Z, a ÷ 0 = 0) by (intros []; reflexivity).
    rewrite Q0. lia.
  - apply Z.quot_pos; lia.
Qed.

Lemma mean_score_le_255 q i : 0 <= size q -> mean_score q i <= 255.
Proof.
  intros Hs. rewrite mean_score_psum.
  pose proof (psum_bounds q i (Z.to_nat (size q))).
  destruct (Z.eq_dec (size q) 0) as [E|E].
  - rewrite E. assert (Q0 : forall a : Z, a ÷ 0 = 0) by (intros []; reflexivity).
    rewrite Q0. lia.
  - apply Z.quot_le_upper_bound; lia.
Qed.

(** The category found is the first one whose mean score is the highest,
    and the score found is that mean. *)
Lemma find_top_mean (q : TfLiteResultsQueue.t) (n : nat) :
  0 <= size q <= kMaxResults -> (0 < n)%nat ->
  let top := find_top (average_scores q n) n in
  (Z.to_nat (fst top) < n)%nat
  /\ 0 <= fst top
  /\ snd top = mean_score q (Z.to_nat (fst top))
  /\ (forall i, (i < n)%nat -> mean_score q i <= snd top)
  /\ (forall i, (i < Z.to_nat (fst top))%nat -> mean_score q i < snd top).
Proof.
  intros Hs Hn top.
  destruct (find_top_spec (average_scores q n) n) as (_ & H2 & H3 & H4).
  { intros i Hi. rewrite average_scores_mean by assumption.
    apply mean_score_nonneg. lia. }
  destruct (H4 Hn) as (A & B & C). fold top in H2, H3, A, B, C.
  split; [exact A|]. split; [exact H3|]. split.
  - rewrite <- B. apply average_scores_mean; assumption.
  - split.
    + intros i Hi. rewrite <- average_scores_mean with (n := n) by assumption.
      apply H2, Hi.
    + intros i Hi.
      rewrite <- average_scores_mean with (n := n) by (try assumption; lia).
      apply C, Hi.
Qed.

(** With a previous recognition of a label other than the first one, at a
    time other than the sentinel, the time since then is the difference of
    the two timestamps (when it fits 32 bits). *)
Lemma time_since_last_top_elapsed (self : TfLiteMicroSpeechRecognizeCommands.t) (time : Z) :
  previous_top_label_ self <> label_at (cfg self) 0 ->
  previous_top_label_time_ self <> INT32_MIN ->
  INT32_MIN <= time - previous_top_label_time_ self <= INT32_MAX ->
  time_since_last_top self time = time - previous_top_label_time_ self.
Proof.
  intros Hl Ht Hr. unfold time_since_last_top.
  destruct (Z.eqb_spec (previous_top_label_ self) (label_at (cfg self) 0));
    [contradiction|].
  destruct (Z.eqb_spec (previous_top_label_time_ self) INT32_MIN);
    [contradiction|].
  cbn [orb]. apply wrap32_small, Hr.
Qed.

(** After a recognition of the first label, or before any recognition,
    the time since the last one counts as [INT32_MAX]. *)
Lemma time_since_last_top_unbounded (self : TfLiteMicroSpeechRecognizeCommands.t) (time : Z) :
  previous_top_label_ self = label_at (cfg self) 0
  \/ previous_top_label_time_ self = INT32_MIN ->
  time_since_last_top self time = INT32_MAX.
Proof.
  intros [H|H]; unfold time_since_last_top; rewrite H, Z.eqb_refl;
    [reflexivity | now rewrite orb_true_r].
Qed.

End TopFacts.

(* ------------------------------------------------------------------ *)
(** ** processLatestResults: the decision *)
(* ------------------------------------------------------------------ *)

Module RuleFacts.
Import TfLiteResultsQueue TfLiteMicroSpeechRecognizeCommands QueueFacts RecognizeFacts TopFacts.

(** With the scores held by value, on a recognizer for the labels at 10
    and 20 with the default threshold 200 and suppression of 1500 ms:
    results in which the first category has the mean score 255 arrive at
    0, 300, 600 and 900 ms.
    The result at 600 ms is the first to pass the window checks and is a
    new command; the one at 900 ms, 300 ms later and for the same category,
    is reported as a new command again. *)
Lemma first_category_not_debounced :
  let self := started_recognizer 99 [10; 20] in
  let loud := scores_tensor [127; -128] in
  suppression_ms (cfg self) = 1500
  /\ detection_threshold (cfg self) = 200
  /\ ((fun a : TfLiteStatus * Recognition =>
         (fst a, found_command (snd a), score (snd a), is_new_command (snd a)))
      <$> fst (feed self no_recognition
                 [(loud, 0); (loud, 300); (loud, 600); (loud, 900)]))
     = [(kTfLiteOk, 99, 0, false); (kTfLiteOk, 99, 0, false);
        (kTfLiteOk, 10, 255, true); (kTfLiteOk, 10, 255, true)].
Proof. vm_compute. repeat split. Qed.

(** X7: the rule for a new command, with the scores held by value as
    [RecognizeCommands<N>] of the predecessor holds them, for a
    configuration whose [minimum_count] is positive.  For a call that is
    not rejected and whose surviving window [q] passes the minimum-count
    and span checks: the category
    found is the first one of highest mean score over [q], and
    [is_new_command] is true, with [previous_top_label_] and
    [previous_top_label_time_] set to the label found and the current time,
    if and only if that mean is above [detection_threshold] and the label
    differs from the previous one or [time_since_last_top] is above
    [suppression_ms]; otherwise both fields keep their values.
    [time_since_last_top] is [INT32_MAX] when the previous label is
    [labels[0]] or no recognition has happened yet, and the difference of
    the timestamps otherwise.  Debounce: when a call recognizes a new
    command whose label is not [labels[0]], the next call, at most
    [suppression_ms] later and finding the same label, is not a new
    command. *)
Theorem new_command_rule :
  (forall (self : TfLiteMicroSpeechRecognizeCommands.t) (tensor : TfLiteTensor) (time : Z)
          (out : Recognition),
      rejects self tensor time = false ->
      0 < minimum_count (cfg self) ->
      let q := surviving self tensor time in
      minimum_count (cfg self) <= size q ->
      average_window_duration_ms (cfg self) ÷ 4 <= time - time_ (front q) ->
      let n := Z.to_nat (kCategoryCount self) in
      let top := find_top (average_scores q n) n in
      let label := label_at (cfg self) (fst top) in
      let '(status, out', self') := processLatestResults self tensor time out in
      status = kTfLiteOk
      /\ found_command out' = label
      /\ score out' = to_uint8 (snd top)
      /\ (is_new_command out' = true <->
          detection_threshold (cfg self) < snd top
          /\ (label <> previous_top_label_ self
              \/ suppression_ms (cfg self) < time_since_last_top self time))
      /\ (is_new_command out' = true ->
          previous_top_label_ self' = label
          /\ previous_top_label_time_ self' = time)
      /\ (is_new_command out' = false ->
          previous_top_label_ self' = previous_top_label_ self
          /\ previous_top_label_time_ self' = previous_top_label_time_ self)
      /\ (wf (previous_results_ self) -> 0 < kCategoryCount self ->
          0 <= fst top < kCategoryCount self
          /\ snd top = mean_score q (Z.to_nat (fst top))
          /\ (forall i, (i < n)%nat -> mean_score q i <= snd top)
          /\ (forall i, (i < Z.to_nat (fst top))%nat -> mean_score q i < snd top)
          /\ score out' = snd top))
  /\ (forall (self : TfLiteMicroSpeechRecognizeCommands.t) (time : Z),
        (previous_top_label_ self = label_at (cfg self) 0
         \/ previous_top_label_time_ self = INT32_MIN ->
         time_since_last_top self time = INT32_MAX)
        /\ (previous_top_label_ self <> label_at (cfg self) 0 ->
            previous_top_label_time_ self <> INT32_MIN ->
            INT32_MIN <= time - previous_top_label_time_ self <= INT32_MAX ->
            time_since_last_top self time
            = time - previous_top_label_time_ self))
  /\ (forall (self : TfLiteMicroSpeechRecognizeCommands.t) (tensor1 tensor2 : TfLiteTensor)
             (time1 time2 : Z) (out : Recognition),
        0 < minimum_count (cfg self) ->
        let '(status1, out1, self1) :=
          processLatestResults self tensor1 time1 out in
        let '(status2, out2, self2) :=
          processLatestResults self1 tensor2 time2 out1 in
        status1 = kTfLiteOk -> is_new_command out1 = true ->
        found_command out1 <> label_at (cfg self) 0 ->
        INT32_MIN < time1 -> time1 <= time2 ->
        time2 - time1 <= suppression_ms (cfg self) ->
        suppression_ms (cfg self) <= INT32_MAX ->
        status2 = kTfLiteOk -> found_command out2 = found_command out1 ->
        is_new_command out2 = false).
Proof.
  split; [|split].
  - intros self tensor time out Hacc _ q Hmin Hspan n top label.
    assert (Hins : insufficient (cfg self) q time = false)
      by (apply insufficient_false_iff; split; assumption).
    rewrite (process_accepted self tensor time out Hacc). cbv zeta.
    fold q. rewrite Hins. fold n. fold top. fold label.
    assert (Htop : wf (previous_results_ self) -> 0 < kCategoryCount self ->
                   0 <= fst top < kCategoryCount self /\
                   snd top = mean_score q (Z.to_nat (fst top)) /\
                   (forall i, (i < n)%nat -> mean_score q i <= snd top) /\
                   (forall i, (i < Z.to_nat (fst top))%nat ->
                              mean_score q i < snd top) /\
                   to_uint8 (snd top) = snd top).
    { intros Hwf Hn.
      assert (Hq : 0 <= size q <= kMaxResults).
      { pose proof (surviving_wf self tensor time Hwf) as (_ & _ & H). exact H. }
      destruct (find_top_mean q n Hq ltac:(lia)) as (T1 & T2 & T3 & T4 & T5).
      fold top in T1, T2, T3, T4, T5.
      repeat split; try assumption; try (unfold n in T1; lia).
      unfold to_uint8. apply Z.mod_small. rewrite T3.
      pose proof (mean_score_nonneg q (Z.to_nat (fst top)) ltac:(lia)).
      pose proof (mean_score_le_255 q (Z.to_nat (fst top)) ltac:(lia)). lia. }
    destruct (Z.gtb_spec (snd top) (detection_threshold (cfg self))) as [Hthr|Hthr];
      destruct (Z.eqb_spec label (previous_top_label_ self)) as [Hlab|Hlab];
      destruct (Z.gtb_spec (time_since_last_top self time) (suppression_ms (cfg self)))
        as [Hsup|Hsup];
      cbn [negb andb orb found_command score is_new_command previous_top_label_
             previous_top_label_time_ with_top with_results];
      (refine (conj eq_refl (conj eq_refl (conj eq_refl
                 (conj _ (conj _ (conj _ Htop))))));
       [ split;
         [ intros Hn; first [discriminate Hn | split; [lia | tauto]]
         | intros [H1 [H2|H2]]; first [reflexivity | contradiction | lia] ]
       | intros Hn; first [discriminate Hn | split; reflexivity]
       | intros Hn; first [discriminate Hn | split; reflexivity] ]).
  - intros self time. split.
    + apply time_since_last_top_unbounded.
    + apply time_since_last_top_elapsed.
  - intros self tensor1 tensor2 time1 time2 out _.
    destruct (rejects self tensor1 time1) eqn:Hacc1.
    { rewrite (process_rejected self tensor1 time1 out Hacc1).
      destruct (processLatestResults self tensor2 time2 out)
        as [[status2 out2] self2].
      intros H; discriminate H. }
    rewrite (process_accepted self tensor1 time1 out Hacc1). cbv zeta.
    set (q1 := surviving self tensor1 time1).
    destruct (insufficient (cfg self) q1 time1).
    { destruct (processLatestResults _ tensor2 time2 _) as [[status2 out2] self2].
      intros _ H; discriminate H. }
    set (top1 := find_top _ _). set (label1 := label_at (cfg self) (fst top1)).
    destruct ((snd top1 >? detection_threshold (cfg self))
              && (negb (label1 =? previous_top_label_ self)
                  || (time_since_last_top self time1 >? suppression_ms (cfg self)))).
    2:{ destruct (processLatestResults _ tensor2 time2 _) as [[status2 out2] self2].
        intros _ H; discriminate H. }
    set (self1 := with_top (with_results self q1) label1 time1).
    set (out1 := {| found_command := label1; score := to_uint8 (snd top1);
                    is_new_command := true |}).
    destruct (rejects self1 tensor2 time2) eqn:Hacc2.
    { rewrite (process_rejected self1 tensor2 time2 out1 Hacc2).
      intros _ _ _ _ _ _ _ H; discriminate H. }
    rewrite (process_accepted self1 tensor2 time2 out1 Hacc2). cbv zeta.
    set (q2 := surviving self1 tensor2 time2).
    destruct (insufficient (cfg self1) q2 time2); [intros; reflexivity|].
    set (top2 := find_top _ _). set (label2 := label_at (cfg self1) (fst top2)).
    change (cfg self1) with (cfg self) in *.
    change (previous_top_label_ self1) with label1.
    destruct ((snd top2 >? detection_threshold (cfg self))
              && (negb (label2 =? label1)
                  || (time_since_last_top self1 time2 >? suppression_ms (cfg self))))
      eqn:Hnew; cbn [found_command is_new_command];
      intros _ _ Hne Hmin Hle Hsup Hmax _ Hsame; [|reflexivity].
    exfalso.
    assert (Hts : time_since_last_top self1 time2 = time2 - time1).
    { apply time_since_last_top_elapsed.
      - exact Hne.
      - change (previous_top_label_time_ self1) with time1. lia.
      - change (previous_top_label_time_ self1) with time1.
        unfold INT32_MIN, INT32_MAX in *. lia. }
    rewrite Hts, Hsame, Z.eqb_refl in Hnew. cbn [negb orb] in Hnew.
    apply andb_true_iff in Hnew. destruct Hnew as [_ Hnew].
    apply Z.gtb_lt in Hnew. lia.
Qed.

(** On [warm_recognizer] the result at 600 ms, with the second category
    at the mean score 255, passes the window checks and is a new command
    for the label at 20; the next one, 300 ms later, is not. *)
Lemma new_command_rule_witness :
  let '(status1, out1, self1) :=
    processLatestResults warm_recognizer (scores_tensor [-128; 127]) 600
      no_recognition in
  let '(status2, out2, self2) :=
    processLatestResults self1 (scores_tensor [-128; 127]) 900 out1 in
  (status1 = kTfLiteOk /\ found_command out1 = 20 /\ is_new_command out1 = true
   /\ previous_top_label_ self1 = 20 /\ previous_top_label_time_ self1 = 600)
  /\ (found_command out2 = 20 /\ score out2 = 255
      /\ is_new_command out2 = false).
Proof.
  pose proof (proj1 new_command_rule warm_recognizer (scores_tensor [-128; 127])
                600 no_recognition) as A.
  pose proof (proj2 (proj2 new_command_rule) warm_recognizer
                (scores_tensor [-128; 127]) (scores_tensor [-128; 127])
                600 900 no_recognition ltac:(vm_compute; reflexivity)) as D.
  cbv zeta in A, D.
  destruct (processLatestResults warm_recognizer (scores_tensor [-128; 127]) 600
              no_recognition) as [[status1 out1] self1] eqn:E1.
  destruct (processLatestResults self1 (scores_tensor [-128; 127]) 900 out1)
    as [[status2 out2] self2] eqn:E2.
  destruct A as (Hst & Hfound & _ & Hnew & Hupd & _).
  - reflexivity.
  - vm_compute. reflexivity.
  - vm_compute. discriminate.
  - vm_compute. discriminate.
  - assert (Hn : is_new_command out1 = true).
    { apply Hnew. split; [vm_compute; reflexivity|]. left. vm_compute.
      discriminate. }
    destruct (Hupd Hn) as [Hl Ht].
    assert (Hf : found_command out1 = 20) by (rewrite Hfound; reflexivity).
    split.
    + repeat split; try assumption; rewrite Hl; reflexivity.
    + vm_compute in E1. injection E1 as <- <- <-.
      vm_compute in E2. injection E2 as <- <- <-.
      split; [reflexivity|]. split; [reflexivity|].
      apply D; vm_compute; congruence.
Defined.

End RuleFacts.

(* ------------------------------------------------------------------ *)
(** ** The recognizer with its scores on the free store *)
(* ------------------------------------------------------------------ *)

Module HeapFacts.
Import Heap HeapResultsQueue HeapRecognizeCommands.

Lemma bind_Some {A B : Type} (m : M A) (k : A -> M B) (h h' : list block) (b : B) :
  bind m k h = Some (b, h') <->
  exists a h1, m h = Some (a, h1) /\ k a h1 = Some (b, h').
Proof.
  unfold bind. split.
  - destruct (m h) as [[a h1]|]; [|discriminate]. intros H. eauto.
  - intros (a & h1 & -> & H). exact H.
Qed.

Lemma bind_None_l {A B : Type} (m : M A) (k : A -> M B) (h : list block) :
  m h = None -> bind m k h = None.
Proof. unfold bind. now intros ->. Qed.

Lemma keeps_ret {A : Type} (a : nat) (x : A) : keeps_freed a (ret x).
Proof. intros h h' r Hd H. injection H as _ <-. exact Hd. Qed.

Lemma keeps_undefined {A : Type} (a : nat) : keeps_freed a (@undefined A).
Proof. intros h h' r _ H. discriminate H. Qed.

Lemma keeps_bind {A B : Type} (a : nat) (m : M A) (k : A -> M B) :
  keeps_freed a m -> (forall x, keeps_freed a (k x)) -> keeps_freed a (bind m k).
Proof.
  intros Hm Hk h h' r Hd H. apply bind_Some in H as (x & h1 & H1 & H2).
  exact (Hk x h1 h' r (Hm h h1 x Hd H1) H2).
Qed.

Lemma keeps_new_array (a : nat) (count : Z) : keeps_freed a (new_array count).
Proof.
  intros h h' r Hd H. unfold new_array in H. injection H as _ <-.
  rewrite lookup_app_l by (now apply lookup_lt_Some in Hd). exact Hd.
Qed.

Lemma keeps_delete_array (a b : nat) : keeps_freed a (delete_array b).
Proof.
  intros h h' r Hd H. unfold delete_array in H.
  destruct (h !! b) as [[cells|]|] eqn:Eb; try discriminate H.
  injection H as _ <-.
  destruct (decide (a = b)) as [->|Hne]; [congruence|].
  now rewrite list_lookup_insert_ne by congruence.
Qed.

Lemma keeps_read_cells (a : nat) (p : ptr) (n : nat) : keeps_freed a (read_cells p n).
Proof.
  intros h h' r Hd H. unfold read_cells in H.
  destruct p as [b|]; [|discriminate].
  destruct (h !! b) as [[cells|]|]; try discriminate H.
  destruct (decide _); [|discriminate]. injection H as _ <-. exact Hd.
Qed.

Lemma keeps_write_cells (a : nat) (p : ptr) (vals : list (option Z)) :
  keeps_freed a (write_cells p vals).
Proof.
  intros h h' r Hd H. unfold write_cells in H.
  destruct p as [b|]; [|discriminate].
  destruct (h !! b) as [[cells|]|] eqn:Eb; try discriminate H.
  destruct (decide _); [|discriminate]. injection H as _ <-.
  destruct (decide (a = b)) as [->|Hne]; [congruence|].
  now rewrite list_lookup_insert_ne by congruence.
Qed.

Lemma keeps_values (a : nat) (cells : list (option Z)) : keeps_freed a (values cells).
Proof.
  unfold values. destruct (mapM _ cells); [apply keeps_ret|apply keeps_undefined].
Qed.

Lemma keeps_memmove (a : nat) (dst src : ptr) (n : Z) :
  keeps_freed a (memmove dst src n).
Proof.
  unfold memmove. destruct (n =? 0); [apply keeps_ret|].
  apply keeps_bind; [apply keeps_read_cells|]. intros. apply keeps_write_cells.
Qed.

Lemma keeps_Result_copy (a : nat) (old_obj : Result) :
  keeps_freed a (Result_copy old_obj).
Proof.
  unfold Result_copy, setCategoryCount.
  apply keeps_bind.
  - apply keeps_bind; [apply keeps_new_array|]. intros. apply keeps_ret.
  - intros r. apply keeps_bind; [apply keeps_memmove|]. intros. apply keeps_ret.
Qed.

Lemma keeps_Result_destroy (a : nat) (r : Result) : keeps_freed a (Result_destroy r).
Proof.
  unfold Result_destroy. destruct (scores r);
    [apply keeps_delete_array|apply keeps_ret].
Qed.

Lemma keeps_pop_front (a : nat) (q : HeapResultsQueue.t) : keeps_freed a (pop_front q).
Proof.
  unfold pop_front. destruct (size q <=? 0); [apply keeps_ret|].
  apply keeps_bind; [apply keeps_Result_copy|]. intros. apply keeps_ret.
Qed.

Lemma keeps_prune_loop (a : nat) (fuel : nat) (q : HeapResultsQueue.t) (limit : Z) :
  keeps_freed a (prune_loop fuel q limit).
Proof.
  revert q. induction fuel as [|fuel IH]; intros q; cbn [prune_loop];
    [apply keeps_ret|].
  destruct (_ && _); [|apply keeps_ret].
  apply keeps_bind; [apply keeps_pop_front|]. intros p.
  apply keeps_bind; [apply keeps_Result_destroy|]. intros. apply IH.
Qed.

Lemma keeps_accumulate (a : nat) (q : HeapResultsQueue.t) (n : nat)
    (average : list Z) (offset : nat) :
  keeps_freed a (accumulate q n average offset).
Proof.
  unfold accumulate.
  apply keeps_bind; [apply keeps_Result_copy|]. intros r.
  apply keeps_bind; [apply keeps_read_cells|]. intros cells.
  apply keeps_bind; [apply keeps_values|]. intros vs.
  apply keeps_bind; [apply keeps_Result_destroy|]. intros. apply keeps_ret.
Qed.

(** The copy constructor applied to a result whose array was freed. *)
Lemma Result_copy_freed (old_obj : Result) (a : nat) (h : list block) :
  scores old_obj = Some a -> h !! a = Some Freed ->
  HeapResultsQueue.kCategoryCount old_obj <> 0 ->
  Result_copy old_obj h = None.
Proof.
  intros Hs Hd Hn. unfold Result_copy, setCategoryCount, bind, new_array, ret.
  cbn [HeapResultsQueue.kCategoryCount scores]. unfold memmove.
  destruct (Z.eqb_spec (HeapResultsQueue.kCategoryCount old_obj) 0);
    [contradiction|].
  unfold bind, read_cells. rewrite Hs.
  rewrite lookup_app_l by (now apply lookup_lt_Some in Hd). now rewrite Hd.
Qed.

Lemma accumulate_all_freed (q : HeapResultsQueue.t) (n : nat) (a k : nat)
    (offsets : list nat) :
  scores (from_front q (Z.of_nat k)) = Some a ->
  HeapResultsQueue.kCategoryCount (from_front q (Z.of_nat k)) <> 0 ->
  forall (average : list Z) (h : list block),
    h !! a = Some Freed ->
    accumulate_all q n average (offsets ++ [k]) h = None.
Proof.
  intros Hs Hn. induction offsets as [|j offsets IH]; intros average h Hd;
    cbn [app accumulate_all].
  - apply bind_None_l. unfold accumulate. apply bind_None_l.
    now apply (Result_copy_freed _ a).
  - unfold bind at 1.
    destruct (accumulate q n average j h) as [[average' h1]|] eqn:E;
      [|reflexivity].
    apply IH. exact (keeps_accumulate a q n average j h h1 average' Hd E).
Qed.

(** After [push_latest] on a history with room, the entry at the back
    carries the current time and the category count, and its [scores]
    point to an array that the destructor of the temporary has freed. *)
Lemma push_latest_dangles (self : HeapRecognizeCommands.t) (tensor : TfLiteTensor)
    (time : Z) (h h' : list block) (q : HeapResultsQueue.t) :
  wf (previous_results_ self) ->
  size (previous_results_ self) < kMaxResults ->
  push_latest self tensor time h = Some (q, h') ->
  wf q
  /\ size q = size (previous_results_ self) + 1
  /\ time_ (back q) = time
  /\ HeapResultsQueue.kCategoryCount (back q) = kCategoryCount self
  /\ exists a, scores (back q) = Some a /\ h' !! a = Some Freed.
Proof.
  intros (Hl & Hf & Hs) Hroom H. unfold push_latest in H.
  apply bind_Some in H as (entry & h1 & Hmake & H).
  apply bind_Some in H as ([] & h2 & Hdel & H). injection H as <- <-.
  unfold Result_make, setCategoryCount in Hmake.
  apply bind_Some in Hmake as (r & h0 & Hset & Hmake).
  apply bind_Some in Hset as (p & h00 & Hnew & Hset).
  unfold new_array in Hnew. injection Hnew as <- <-.
  injection Hset as <- <-.
  cbn [HeapResultsQueue.kCategoryCount scores] in Hmake.
  destruct (decide _); [|discriminate Hmake].
  apply bind_Some in Hmake as ([] & h3 & Hwrite & Hmake).
  injection Hmake as <- <-.
  unfold write_cells in Hwrite.
  rewrite lookup_app_r, Nat.sub_diag in Hwrite by lia. cbn [lookup list_lookup] in Hwrite.
  destruct (decide _); [|discriminate Hwrite]. injection Hwrite as <-.
  unfold Result_destroy in Hdel. cbn [scores] in Hdel. unfold delete_array in Hdel.
  rewrite list_lookup_insert_eq in Hdel by (rewrite length_app; cbn; lia).
  injection Hdel as <-.
  unfold size in *. unfold push_back, size.
  destruct (Z.geb_spec (size_ (previous_results_ self)) kMaxResults); [lia|].
  unfold back, back_index, at_index. cbn [results_ front_index_ size_].
  unfold kMaxResults in *.
  assert (Hi : (Z.to_nat
                  (if front_index_ (previous_results_ self)
                      + (size_ (previous_results_ self) + 1 - 1) >=? 50
                   then front_index_ (previous_results_ self)
                        + (size_ (previous_results_ self) + 1 - 1) - 50
                   else front_index_ (previous_results_ self)
                        + (size_ (previous_results_ self) + 1 - 1))
                < length (results_ (previous_results_ self)))%nat).
  { rewrite Hl. destruct (Z.geb_spec (front_index_ (previous_results_ self) + (size_ (previous_results_ self) + 1 - 1)) 50); lia. }
  rewrite list_lookup_insert_eq by exact Hi.
  cbn [default HeapResultsQueue.kCategoryCount time_ scores].
  split; [|split; [reflexivity|split; [reflexivity|split; [reflexivity|]]]].
  - unfold wf. cbn [results_ front_index_ size_]. rewrite length_insert.
    unfold kMaxResults. repeat split; try assumption; lia.
  - eexists. split; [reflexivity|].
    rewrite list_lookup_insert_eq; [reflexivity|].
    rewrite length_insert, length_app. cbn. lia.
Qed.

Lemma from_front_back (q : HeapResultsQueue.t) :
  from_front q (size q - 1) = back q.
Proof.
  unfold from_front, back, back_index, size.
  destruct ((size_ q - 1 <? 0) || (size_ q - 1 >=? size_ q)); reflexivity.
Qed.

(** The pruning loop never removes the entry at the back when that entry
    is not older than the limit. *)
Lemma prune_loop_keeps_back (fuel : nat) :
  forall (q q' : HeapResultsQueue.t) (limit : Z) (h h' : list block),
  wf q -> 0 < size q -> limit <= time_ (back q) ->
  prune_loop fuel q limit h = Some (q', h') ->
  0 < size q' /\ back q' = back q.
Proof.
  induction fuel as [|fuel IH]; intros q q' limit h h' Hwf Hpos Hback H;
    cbn [prune_loop] in H.
  - injection H as <- <-. split; [exact Hpos|reflexivity].
  - destruct (negb (empty q) && (time_ (front q) <? limit)) eqn:Ec.
    + apply andb_true_iff in Ec as [_ Hlt]. apply Z.ltb_lt in Hlt.
      apply bind_Some in H as ([result q1] & h1 & Hpop & H).
      apply bind_Some in H as ([] & h2 & _ & H). cbn [snd] in H.
      destruct Hwf as (Hl & Hf & Hs). unfold size in Hpos.
      assert (Hsz : 1 < size_ q).
      { destruct (Z.eq_dec (size_ q) 1) as [E1|]; [|lia].
        exfalso. unfold back, back_index, front in *. rewrite E1 in Hback.
        replace (front_index_ q + (1 - 1)) with (front_index_ q) in Hback by lia.
        destruct (Z.geb_spec (front_index_ q) kMaxResults); lia. }
      unfold pop_front, size in Hpop.
      destruct (Z.leb_spec (size_ q) 0); [lia|].
      apply bind_Some in Hpop as (res & h3 & _ & Hpop). injection Hpop as _ <- _.
      assert (Hb1 : back {| results_ := results_ q;
                            front_index_ :=
                              (if front_index_ q + 1 >=? kMaxResults
                               then 0 else front_index_ q + 1);
                            size_ := size_ q - 1 |} = back q).
      { unfold back, back_index, at_index. cbn [results_ front_index_ size_].
        f_equal. f_equal. unfold kMaxResults in *.
        destruct (Z.geb_spec (front_index_ q + 1) 50);
          destruct (Z.geb_spec (front_index_ q + (size_ q - 1)) 50);
          destruct (Z.geb_spec (0 + (size_ q - 1 - 1)) 50);
          destruct (Z.geb_spec (front_index_ q + 1 + (size_ q - 1 - 1)) 50);
          lia. }
      destruct (IH {| results_ := results_ q;
                      front_index_ :=
                        (if front_index_ q + 1 >=? kMaxResults
                         then 0 else front_index_ q + 1);
                      size_ := size_ q - 1 |} q' limit h2 h') as [Hp' Hb'].
      * unfold wf. cbn [results_ front_index_ size_]. unfold kMaxResults in *.
        destruct (Z.geb_spec (front_index_ q + 1) 50); repeat split; try assumption; lia.
      * unfold size. cbn [size_]. lia.
      * rewrite Hb1. exact Hback.
      * exact H.
      * split; [exact Hp'|]. now rewrite Hb', Hb1.
    + injection H as <- <-. split; [exact Hpos|reflexivity].
Qed.

Lemma seq_last (n : nat) : (0 < n)%nat -> seq 0 n = seq 0 (n - 1) ++ [(n - 1)%nat].
Proof.
  intros Hn. replace n with (S (n - 1)) at 1 by lia. now rewrite seq_S.
Qed.

(** The averaging loop on a window whose back entry points to a freed
    array is undefined. *)
Lemma average_scores_freed (q : HeapResultsQueue.t) (n a : nat) (h : list block) :
  0 < size q ->
  scores (back q) = Some a ->
  HeapResultsQueue.kCategoryCount (back q) <> 0 ->
  h !! a = Some Freed ->
  average_scores q n h = None.
Proof.
  intros Hpos Hs Hn Hd. unfold average_scores. apply bind_None_l.
  rewrite seq_last by lia.
  assert (Hk : Z.of_nat (Z.to_nat (size q) - 1) = size q - 1) by lia.
  apply (accumulate_all_freed q n a); rewrite ?Hk, ?from_front_back; assumption.
Qed.

(** C1, on [TfLiteAudioStream.h]: the rule for a new command is not
    reached with defined behaviour.  [push_back] assigns the temporary
    result of l.401 member by member, so the cell at the back of the
    history receives the temporary's [scores] pointer, and the destructor
    of the temporary frees that array at the end of the statement.  For
    every call that is not rejected, on a well-formed history with room,
    with a category count other than 0 and a time limit that is not above
    the current time: when the surviving window passes the minimum-count
    and span checks, the averaging loop copies the entry at the back with
    the copy constructor, whose [memmove] reads the freed array, and the
    call has no defined result. *)
Theorem averaging_reads_freed_scores (self : HeapRecognizeCommands.t)
    (latest_results : TfLiteTensor) (current_time_ms : Z) (out : Recognition)
    (h h1 : list block) (q : HeapResultsQueue.t) :
  wf (previous_results_ self) ->
  size (previous_results_ self) < kMaxResults ->
  kCategoryCount self <> 0 ->
  wrap32 (current_time_ms - average_window_duration_ms (cfg self))
    <= current_time_ms ->
  rejects self latest_results current_time_ms = false ->
  window self latest_results current_time_ms h = Some (q, h1) ->
  insufficient (cfg self) q current_time_ms = false ->
  processLatestResults self latest_results current_time_ms out h = None.
Proof.
  intros Hwf Hroom Hn Hlim Hrej Hwin Hins.
  unfold processLatestResults. rewrite Hrej. unfold bind at 1. rewrite Hwin.
  cbn [cfg with_results]. rewrite Hins.
  apply bind_None_l.
  unfold window in Hwin. apply bind_Some in Hwin as (q0 & h0 & Hpush & Hprune).
  destruct (push_latest_dangles self latest_results current_time_ms h h0 q0
              Hwf Hroom Hpush) as (Hwf0 & Hsz0 & Ht0 & Hc0 & a & Ha & Hd0).
  unfold prune in Hprune.
  assert (Hp0 : 0 < size q0) by (destruct Hwf as (_ & _ & ?); unfold size in *; lia).
  destruct (prune_loop_keeps_back _ q0 q _ h0 h1 Hwf0 Hp0
              ltac:(rewrite Ht0; exact Hlim) Hprune) as [Hpos Hback].
  apply (average_scores_freed q _ a).
  - exact Hpos.
  - now rewrite Hback.
  - rewrite Hback, Hc0. exact Hn.
  - exact (keeps_prune_loop a _ q0 _ h0 h1 q Hd0 Hprune).
Qed.

(** The third result, at 600 ms, on the recognizer that was started for
    two labels and has seen results at 0 ms and 300 ms. *)
Lemma averaging_reads_freed_scores_witness :
  processLatestResults heap_recognizer (scores_tensor [-128; 127]) 600
    no_recognition heap_store = None.
Proof.
  refine (averaging_reads_freed_scores heap_recognizer (scores_tensor [-128; 127])
            600 no_recognition heap_store _ _ _ _ _ _ _ _ _).
  - vm_compute. repeat split; discriminate.
  - vm_compute. reflexivity.
  - vm_compute. discriminate.
  - vm_compute. discriminate.
  - vm_compute. reflexivity.
  - vm_compute. reflexivity.
  - vm_compute. reflexivity.
Defined.

End HeapFacts.

(* ------------------------------------------------------------------ *)
(** ** The history of dangling entries *)
(* ------------------------------------------------------------------ *)

Module DanglingFacts.
Import Heap HeapResultsQueue HeapRecognizeCommands HeapFacts.

Lemma heap_from_front_push_old (q : HeapResultsQueue.t) (e : Result) (k : Z) :
  wf q -> size q < kMaxResults -> 0 <= k < size q ->
  from_front (push_back q e) k = from_front q k.
Proof.
  intros (Hl & Hf & Hs) Hfull Hk. unfold push_back, size in *.
  destruct (Z.geb_spec (size_ q) kMaxResults); [lia|].
  unfold from_front, back_index, at_index. cbn [results_ front_index_ size_].
  destruct (Z.ltb_spec k 0); [lia|].
  destruct (Z.geb_spec k (size_ q + 1)); [lia|].
  destruct (Z.geb_spec k (size_ q)); [lia|]. cbn [orb].
  rewrite list_lookup_insert_ne; [reflexivity|].
  unfold kMaxResults in *.
  destruct (Z.geb_spec (front_index_ q + (size_ q + 1 - 1)) 50);
    destruct (Z.geb_spec (front_index_ q + k) 50); lia.
Qed.

Lemma heap_push_back_wf (q : HeapResultsQueue.t) (e : Result) :
  wf q -> wf (push_back q e).
Proof.
  intros (Hl & Hf & Hs). unfold push_back, size, wf.
  destruct (Z.geb_spec (size_ q) kMaxResults); [repeat split; assumption || lia|].
  cbn [results_ front_index_ size_]. rewrite length_insert.
  repeat split; assumption || lia.
Qed.

Lemma heap_push_back_size (q : HeapResultsQueue.t) (e : Result) :
  size (push_back q e) = if size q >=? kMaxResults then size q else size q + 1.
Proof.
  unfold push_back. destruct (size q >=? kMaxResults); reflexivity.
Qed.

Lemma heap_front_from_front (q : HeapResultsQueue.t) :
  wf q -> 0 < size q -> from_front q 0 = front q.
Proof.
  intros (Hl & Hf & Hs) Hpos. unfold from_front, front, size in *.
  destruct (Z.ltb_spec 0 0); [lia|]. destruct (Z.geb_spec 0 (size_ q)); [lia|].
  cbn [orb]. rewrite Z.add_0_r.
  destruct (Z.geb_spec (front_index_ q) kMaxResults); [lia|reflexivity].
Qed.

Lemma keeps_Result_make (a : nat) (n time : Z) (data : list Z) :
  keeps_freed a (Result_make n time data).
Proof.
  unfold Result_make, setCategoryCount. apply keeps_bind.
  - apply keeps_bind; [apply keeps_new_array|]. intros p. apply keeps_ret.
  - intros r. destruct (decide _); [|apply keeps_undefined].
    apply keeps_bind; [apply keeps_write_cells|]. intros _. apply keeps_ret.
Qed.

(** What [push_latest] leaves: the history with the temporary assigned
    to the cell at the back, and the array of the temporary freed. *)
Lemma push_latest_inv (self : HeapRecognizeCommands.t) (tensor : TfLiteTensor)
    (time : Z) (h h' : list block) (q : HeapResultsQueue.t) :
  push_latest self tensor time h = Some (q, h') ->
  exists (entry : Result) (a : nat),
    q = push_back (previous_results_ self) entry
    /\ scores entry = Some a /\ h' !! a = Some Freed
    /\ HeapResultsQueue.kCategoryCount entry = kCategoryCount self
    /\ time_ entry = time
    /\ forall b : nat, h !! b = Some Freed -> h' !! b = Some Freed.
Proof.
  intros H.
  assert (Hk : forall b, keeps_freed b (push_latest self tensor time)).
  { intros b. unfold push_latest. apply keeps_bind; [apply keeps_Result_make|].
    intros entry. apply keeps_bind; [apply keeps_Result_destroy|].
    intros _. apply keeps_ret. }
  unfold push_latest in H.
  apply bind_Some in H as (entry & h1 & Hmake & H).
  apply bind_Some in H as ([] & h2 & Hdel & H). injection H as <- <-.
  exists entry.
  unfold Result_make, setCategoryCount in Hmake.
  apply bind_Some in Hmake as (r & h0 & Hset & Hmake).
  apply bind_Some in Hset as (p & h00 & Hnew & Hset).
  unfold new_array in Hnew. injection Hnew as <- <-.
  injection Hset as <- <-.
  cbn [HeapResultsQueue.kCategoryCount scores] in Hmake.
  destruct (decide _); [|discriminate Hmake].
  apply bind_Some in Hmake as ([] & h3 & Hwrite & Hmake).
  injection Hmake as <- <-.
  unfold write_cells in Hwrite.
  rewrite lookup_app_r, Nat.sub_diag in Hwrite by lia. cbn [lookup list_lookup] in Hwrite.
  destruct (decide _); [|discriminate Hwrite]. injection Hwrite as <-.
  unfold Result_destroy in Hdel. cbn [scores] in Hdel. unfold delete_array in Hdel.
  rewrite list_lookup_insert_eq in Hdel by (rewrite length_app; cbn; lia).
  injection Hdel as <-.
  exists (length h). cbn [scores HeapResultsQueue.kCategoryCount time_].
  split; [reflexivity|]. split; [reflexivity|]. split.
  { rewrite list_lookup_insert_eq; [reflexivity|].
    rewrite length_insert, length_app. cbn. lia. }
  split; [reflexivity|]. split; [reflexivity|].
  intros b Hb.
  assert (Hlt : (b < length h)%nat) by (now apply lookup_lt_Some in Hb).
  rewrite !list_lookup_insert_ne by lia. now rewrite lookup_app_l.
Qed.

(** [push_latest] keeps every entry dangling. *)
Lemma push_latest_dangling (self : HeapRecognizeCommands.t) (tensor : TfLiteTensor)
    (time : Z) (h h' : list block) (q : HeapResultsQueue.t) :
  wf (previous_results_ self) -> kCategoryCount self <> 0 ->
  dangling (previous_results_ self) h ->
  push_latest self tensor time h = Some (q, h') ->
  wf q /\ 0 < size q /\ dangling q h'
  /\ (0 < size (previous_results_ self) -> front q = front (previous_results_ self)).
Proof.
  intros Hwf Hn Hd H.
  destruct (push_latest_inv self tensor time h h' q H)
    as (entry & a & -> & Ha & Hfa & Hc & Ht & Hkeep).
  pose proof Hwf as (Hl & Hf & Hs). fold (size (previous_results_ self)) in Hs.
  split; [now apply heap_push_back_wf|].
  rewrite heap_push_back_size.
  destruct (Z.geb_spec (size (previous_results_ self)) kMaxResults) as [Hfull|Hroom].
  - (* no room: the history is as before *)
    assert (E : push_back (previous_results_ self) entry = previous_results_ self).
    { unfold push_back. destruct (Z.geb_spec (size (previous_results_ self)) kMaxResults);
        [reflexivity|lia]. }
    rewrite E. unfold kMaxResults in *. split; [lia|]. split; [|reflexivity].
    intros i Hi. destruct (Hd i Hi) as (b & Hb1 & Hb2 & Hb3).
    exists b. repeat split; auto.
  - split; [lia|]. split.
    + intros i Hi. rewrite heap_push_back_size in Hi.
      destruct (Z.geb_spec (size (previous_results_ self)) kMaxResults); [lia|].
      destruct (Z.eq_dec i (size (previous_results_ self))) as [->|Hne].
      * exists a.
        assert (E : from_front (push_back (previous_results_ self) entry)
                      (size (previous_results_ self)) = entry).
        { pose proof (from_front_back (push_back (previous_results_ self) entry)) as Hb.
          rewrite heap_push_back_size in Hb.
          destruct (Z.geb_spec (size (previous_results_ self)) kMaxResults); [lia|].
          replace (size (previous_results_ self) + 1 - 1)
            with (size (previous_results_ self)) in Hb by lia.
          rewrite Hb. unfold push_back, back, back_index, at_index, size in *.
          destruct (Z.geb_spec (size_ (previous_results_ self)) kMaxResults); [lia|].
          cbn [results_ front_index_ size_].
          rewrite list_lookup_insert_eq; [reflexivity|].
          rewrite Hl. unfold kMaxResults in *.
          destruct (Z.geb_spec (front_index_ (previous_results_ self)
                                + (size_ (previous_results_ self) + 1 - 1)) 50); lia. }
        rewrite E. repeat split; try assumption. rewrite Hc. exact Hn.
      * rewrite heap_from_front_push_old by (assumption || lia).
        destruct (Hd i ltac:(lia)) as (b & Hb1 & Hb2 & Hb3).
        exists b. repeat split; auto.
    + intros Hpos.
      rewrite <- (heap_front_from_front (push_back (previous_results_ self) entry)).
      * rewrite heap_from_front_push_old by (assumption || lia).
        now apply heap_front_from_front.
      * now apply heap_push_back_wf.
      * rewrite heap_push_back_size.
        destruct (Z.geb_spec (size (previous_results_ self)) kMaxResults); lia.
Qed.

(** Removing an entry that dangles is undefined, so a pruning loop that
    has a result has removed nothing. *)
Lemma pop_front_dangling (q : HeapResultsQueue.t) (h : list block) :
  wf q -> 0 < size q -> dangling q h -> pop_front q h = None.
Proof.
  intros Hwf Hpos Hd. unfold pop_front.
  destruct (Z.leb_spec (size q) 0); [lia|].
  apply bind_None_l.
  destruct (Hd 0 ltac:(lia)) as (a & Ha & Hf & Hn).
  rewrite (heap_front_from_front q Hwf Hpos) in Ha, Hn.
  now apply (Result_copy_freed _ a).
Qed.

Lemma prune_loop_dangling (fuel : nat) (q q' : HeapResultsQueue.t) (limit : Z)
    (h h' : list block) :
  wf q -> dangling q h ->
  prune_loop fuel q limit h = Some (q', h') ->
  q' = q /\ h' = h
  /\ (0 < size q -> (0 < fuel)%nat -> limit <= time_ (front q)).
Proof.
  intros Hwf Hd H. destruct fuel as [|fuel]; cbn [prune_loop] in H.
  - injection H as <- <-. repeat split. lia.
  - destruct (negb (empty q) && (time_ (front q) <? limit)) eqn:Ec.
    + exfalso. apply andb_true_iff in Ec as [Hne _].
      assert (Hpos : 0 < size q).
      { destruct Hwf as (_ & _ & Hs). unfold empty, size in *.
        destruct (Z.eqb_spec (size_ q) 0); [discriminate Hne|lia]. }
      rewrite (bind_None_l _ _ _ (pop_front_dangling q h Hwf Hpos Hd)) in H.
      discriminate H.
    + injection H as <- <-. repeat split. intros Hpos _.
      apply andb_false_iff in Ec as [Ec|Ec].
      * unfold empty, size in *. destruct (Z.eqb_spec (size_ q) 0); [lia|discriminate Ec].
      * now apply Z.ltb_ge in Ec.
Qed.

Lemma average_scores_dangling (q : HeapResultsQueue.t) (n : nat) (h : list block) :
  0 < size q -> dangling q h -> average_scores q n h = None.
Proof.
  intros Hpos Hd. destruct (Hd (size q - 1) ltac:(lia)) as (a & Ha & Hf & Hn).
  rewrite from_front_back in Ha, Hn. now apply (average_scores_freed q n a).
Qed.

(** A call on a history whose entries dangle: when it has a result, the
    call was rejected or its window was found insufficient. *)
Lemma process_dangling (self self' : HeapRecognizeCommands.t)
    (tensor : TfLiteTensor) (time : Z) (out out' : Recognition)
    (st : TfLiteStatus) (h h' : list block) :
  wf (previous_results_ self) -> kCategoryCount self <> 0 ->
  dangling (previous_results_ self) h ->
  processLatestResults self tensor time out h = Some (st, out', self', h') ->
  (st = kTfLiteError /\ out' = out /\ self' = self /\ h' = h)
  \/ (st = kTfLiteOk
      /\ out' = {| found_command := previous_top_label_ self;
                   score := 0; is_new_command := false |}
      /\ previous_top_label_ self' = previous_top_label_ self
      /\ kCategoryCount self' = kCategoryCount self
      /\ wf (previous_results_ self')
      /\ dangling (previous_results_ self') h').
Proof.
  intros Hwf Hn Hd H. unfold processLatestResults in H.
  destruct (rejects self tensor time).
  { injection H as <- <- <- <-. left. repeat split. }
  apply bind_Some in H as (q & h1 & Hwin & H).
  unfold window in Hwin. apply bind_Some in Hwin as (q0 & h0 & Hpush & Hprune).
  destruct (push_latest_dangling self tensor time h h0 q0 Hwf Hn Hd Hpush)
    as (Hwf0 & Hpos0 & Hd0 & _).
  unfold prune in Hprune.
  destruct (prune_loop_dangling _ q0 q _ h0 h1 Hwf0 Hd0 Hprune) as (-> & -> & _).
  cbn [cfg with_results] in H.
  destruct (insufficient (cfg self) q0 time).
  - injection H as <- <- <- <-. right. cbn [with_results previous_top_label_
      kCategoryCount previous_results_].
    exact (conj eq_refl (conj eq_refl (conj eq_refl (conj eq_refl (conj Hwf0 Hd0))))).
  - rewrite (bind_None_l _ _ _ (average_scores_dangling q0 _ h0 Hpos0 Hd0)) in H.
    discriminate H.
Qed.

Lemma feed_dangling (inputs : list (TfLiteTensor * Z)) :
  forall (self self' : HeapRecognizeCommands.t) (out : Recognition)
         (answers : list (TfLiteStatus * Recognition)) (h h' : list block),
  wf (previous_results_ self) -> kCategoryCount self <> 0 ->
  dangling (previous_results_ self) h ->
  is_new_command out = false ->
  feed self out inputs h = Some (answers, self', h') ->
  Forall (fun a : TfLiteStatus * Recognition =>
            is_new_command (snd a) = false
            /\ (fst a = kTfLiteOk ->
                found_command (snd a) = previous_top_label_ self
                /\ score (snd a) = 0)) answers.
Proof.
  induction inputs as [|[tensor time] rest IH];
    intros self self' out answers h h' Hwf Hn Hd Hout H; cbn [feed] in H.
  - injection H as <- _ _. constructor.
  - apply bind_Some in H as ([[st out1] self1] & h1 & Hp & H).
    apply bind_Some in H as ([answers1 self2] & h2 & Hf & H).
    cbn [fst snd] in H, Hf. injection H as <- _ _.
    destruct (process_dangling self self1 tensor time out out1 st h h1 Hwf Hn Hd Hp)
      as [(-> & -> & -> & ->)|(-> & -> & Hl & Hk & Hwf1 & Hd1)].
    + constructor.
      * cbn [fst snd]. split; [exact Hout|discriminate].
      * exact (IH self self2 out answers1 h h2 Hwf Hn Hd Hout Hf).
    + constructor.
      * cbn [fst snd found_command score is_new_command]. repeat split.
      * rewrite <- Hl.
        refine (IH self1 self2 _ answers1 h1 h2 Hwf1 _ Hd1 _ Hf).
        -- now rewrite Hk.
        -- reflexivity.
Qed.

Lemma begin_loop_length (rs rs' : list Result) (n : Z) (h h' : list block) :
  begin_loop rs n h = Some (rs', h') -> length rs' = length rs.
Proof.
  revert rs' h h'. induction rs as [|r rs IH]; intros rs' h h' H; cbn [begin_loop] in H.
  - now injection H as <- _.
  - apply bind_Some in H as (r' & h1 & _ & H).
    apply bind_Some in H as (rs'' & h2 & Hrs & H). injection H as <- _.
    cbn [length]. f_equal. exact (IH _ _ _ Hrs).
Qed.

(** The recognizer after a successful [begin] on a new object. *)
Lemma begin_dangling (silence : cstr) (c : TfLiteConfig)
    (self : HeapRecognizeCommands.t) (h h' : list block) :
  HeapRecognizeCommands.begin (create silence) c h = Some (true, self, h') ->
  wf (previous_results_ self) /\ kCategoryCount self <> 0
  /\ dangling (previous_results_ self) h'
  /\ previous_top_label_ self = silence.
Proof.
  unfold HeapRecognizeCommands.begin.
  destruct (Z.eqb_spec (categoryCount c) 0) as [E|E]; [discriminate|].
  intros H. apply bind_Some in H as (q & h1 & Hq & H). injection H as <- <-.
  cbn [previous_results_ kCategoryCount previous_top_label_ create].
  unfold HeapResultsQueue.begin in Hq.
  apply bind_Some in Hq as (rs & h2 & Hrs & Hq). injection Hq as <- <-.
  apply begin_loop_length in Hrs.
  split; [|split; [exact E|split; [|reflexivity]]].
  - unfold wf. cbn [results_ front_index_ size_ HeapResultsQueue.create] in *.
    change (results_ (previous_results_ (create silence)))
      with (replicate (Z.to_nat kMaxResults) Result_default) in Hrs.
    rewrite length_replicate in Hrs. unfold kMaxResults in *. repeat split; lia.
  - intros i Hi. unfold size in Hi. cbn [size_ HeapResultsQueue.create] in Hi. lia.
Qed.

End DanglingFacts.

Module DanglingProps.
Import Heap HeapResultsQueue HeapRecognizeCommands HeapFacts DanglingFacts.

(** X23: a call that one of the four early checks rejects returns
    [kTfLiteError] and changes neither the recognizer, nor the
    out-parameters, nor the free store; a call that passes them and has a
    result returns [kTfLiteOk]. *)
Theorem rejected_call_changes_nothing (self : HeapRecognizeCommands.t)
    (tensor : TfLiteTensor) (time : Z) (out : Recognition) (h : list block) :
  (rejects self tensor time = true ->
   processLatestResults self tensor time out h = Some (kTfLiteError, out, self, h))
  /\ (rejects self tensor time = false ->
      forall (r : TfLiteStatus * Recognition * HeapRecognizeCommands.t)
             (h' : list block),
        processLatestResults self tensor time out h = Some (r, h') ->
        fst (fst r) = kTfLiteOk).
Proof.
  unfold processLatestResults. split; intros ->; [reflexivity|].
  intros r h' H. apply bind_Some in H as (q & h1 & _ & H).
  destruct (insufficient _ _ _); [now injection H as <- _|].
  apply bind_Some in H as (average & h2 & _ & H).
  now injection H as <- _.
Qed.

(** X24: a call that is not rejected and finds the oldest entry of the
    history older than the averaging window has no defined result:
    [pop_front] copies that entry with the copy constructor, which reads
    the array that was freed when the entry was stored. *)
Theorem pruning_reads_freed_scores (self : HeapRecognizeCommands.t)
    (tensor : TfLiteTensor) (time : Z) (out : Recognition) (h : list block) :
  wf (previous_results_ self) -> kCategoryCount self <> 0 ->
  dangling (previous_results_ self) h ->
  rejects self tensor time = false ->
  0 < size (previous_results_ self) ->
  time_ (front (previous_results_ self))
    < wrap32 (time - average_window_duration_ms (cfg self)) ->
  processLatestResults self tensor time out h = None.
Proof.
  intros Hwf Hn Hd Hacc Hpos Hold. unfold processLatestResults. rewrite Hacc.
  apply bind_None_l. unfold window, bind.
  destruct (push_latest self tensor time h) as [[q0 h0]|] eqn:Hpush; [|reflexivity].
  destruct (push_latest_dangling self tensor time h h0 q0 Hwf Hn Hd Hpush)
    as (Hwf0 & Hpos0 & Hd0 & Hfront).
  unfold prune.
  destruct (prune_loop (Z.to_nat (size q0)) q0
              (wrap32 (time - average_window_duration_ms (cfg self))) h0)
    as [[q1 h1]|] eqn:Hprune; [|reflexivity].
  exfalso.
  destruct (prune_loop_dangling _ q0 q1 _ h0 h1 Hwf0 Hd0 Hprune) as (_ & _ & Hlim).
  specialize (Hlim Hpos0 ltac:(lia)). rewrite (Hfront Hpos) in Hlim. lia.
Qed.

(** X25: a recognizer that was constructed and started with [begin]
    never reports a command: over every sequence of calls that all have a
    defined result, [is_new_command] stays false, and every call that
    returns [kTfLiteOk] reports the label ["silence"] of the constructor
    with the score 0.  Each stored entry dangles, so the calls with a
    result are those that are rejected or whose window is insufficient. *)
Theorem recognizer_never_reports_command (silence : cstr) (c : TfLiteConfig)
    (self self' : HeapRecognizeCommands.t) (out : Recognition)
    (inputs : list (TfLiteTensor * Z))
    (answers : list (TfLiteStatus * Recognition)) (h0 h1 h' : list block) :
  HeapRecognizeCommands.begin (create silence) c h0 = Some (true, self, h1) ->
  is_new_command out = false ->
  feed self out inputs h1 = Some (answers, self', h') ->
  Forall (fun a : TfLiteStatus * Recognition =>
            is_new_command (snd a) = false
            /\ (fst a = kTfLiteOk ->
                found_command (snd a) = silence /\ score (snd a) = 0)) answers.
Proof.
  intros Hb Hout Hf.
  destruct (begin_dangling silence c self h0 h1 Hb) as (Hwf & Hn & Hd & Hs).
  rewrite <- Hs. exact (feed_dangling inputs self self' out answers h1 h' Hwf Hn Hd Hout Hf).
Qed.

(** A result for a recognizer that was never started. *)
Lemma rejected_call_changes_nothing_witness :
  processLatestResults (create 99) (scores_tensor [-128; 127]) 0 no_recognition []
  = Some (kTfLiteError, no_recognition, create 99, []).
Proof.
  apply (proj1 (rejected_call_changes_nothing (create 99)
                  (scores_tensor [-128; 127]) 0 no_recognition [])).
  vm_compute. reflexivity.
Defined.

(** [heap_recognizer] holds results of 0 ms and 300 ms; a result at
    1200 ms makes the one of 0 ms older than the window. *)
Lemma pruning_reads_freed_scores_witness :
  processLatestResults heap_recognizer (scores_tensor [-128; 127]) 1200
    no_recognition heap_store = None.
Proof.
  apply (pruning_reads_freed_scores heap_recognizer (scores_tensor [-128; 127])
           1200 no_recognition heap_store).
  - vm_compute. repeat split; discriminate.
  - vm_compute. discriminate.
  - intros i Hi.
    assert (Es : size (previous_results_ heap_recognizer) = 2)
      by (vm_compute; reflexivity).
    rewrite Es in Hi.
    assert (Ei : i = 0 \/ i = 1) by lia.
    destruct Ei as [-> | ->].
    + exists 50%nat. split; [vm_compute; reflexivity|].
      split; [vm_compute; reflexivity|]. vm_compute. discriminate.
    + exists 51%nat. split; [vm_compute; reflexivity|].
      split; [vm_compute; reflexivity|]. vm_compute. discriminate.
  - vm_compute. reflexivity.
  - vm_compute. reflexivity.
  - vm_compute. reflexivity.
Defined.

(** Two results, 300 ms apart, for a recognizer started for two labels
    on an empty free store. *)
Lemma recognizer_never_reports_command_witness :
  Forall (fun a : TfLiteStatus * Recognition =>
            is_new_command (snd a) = false
            /\ (fst a = kTfLiteOk ->
                found_command (snd a) = 99 /\ score (snd a) = 0))
    [(kTfLiteOk, {| found_command := 99; score := 0; is_new_command := false |});
     (kTfLiteOk, {| found_command := 99; score := 0; is_new_command := false |})].
Proof.
  eapply (recognizer_never_reports_command 99 (setCategories defaultConfig [10; 20])
            _ _ no_recognition
            [(scores_tensor [-128; 127], 0); (scores_tensor [-128; 127], 300)]
            _ [] _ _).
  - vm_compute. reflexivity.
  - reflexivity.
  - vm_compute. reflexivity.
Defined.

End DanglingProps.

(* ------------------------------------------------------------------ *)
(** ** The rule for a new command, from the averaged scores on *)
(* ------------------------------------------------------------------ *)

Module ReportFacts.
Import HeapRecognizeCommands.




End ReportFacts.

(* ------------------------------------------------------------------ *)
(** ** Arrays *)
(* ------------------------------------------------------------------ *)

Lemma store_at_spec (vals mem : list Z) (off : nat) :
  (off + length vals <= length mem)%nat ->
  store_at mem off vals = take off mem ++ vals ++ drop (off + length vals) mem.
Proof.
  revert mem off. induction vals as [|v vals IH]; intros mem off H;
    cbn [store_at].
  - cbn [length app]. rewrite Nat.add_0_r, take_drop. reflexivity.
  - cbn [length] in H. rewrite IH by (rewrite length_insert; lia).
    rewrite take_S_r with (x := v) by (apply list_lookup_insert_eq; lia).
    rewrite take_insert_ge by lia. rewrite drop_insert_lt by lia.
    rewrite <- app_assoc. cbn [length app].
    replace (S off + length vals)%nat with (off + S (length vals))%nat by lia.
    reflexivity.
Qed.

Lemma store_at_length (vals mem : list Z) (off : nat) :
  length (store_at mem off vals) = length mem.
Proof.
  revert mem off. induction vals as [|v vals IH]; intros mem off;
    cbn [store_at]; [reflexivity|]. now rewrite IH, length_insert.
Qed.

Lemma store_at_prefix (vals mem : list Z) :
  (length vals <= length mem)%nat ->
  take (length vals) (store_at mem 0 vals) = vals.
Proof.
  intros H. rewrite store_at_spec by (cbn; lia). rewrite take_0. cbn [app].
  rewrite take_app_length. reflexivity.
Qed.

(** Moving all but the first [s] cells to the front. *)
Lemma memmove_left (mem : list Z) (s n : nat) :
  length mem = (n + s)%nat ->
  memmove mem 0 s n = drop s mem ++ drop n mem.
Proof.
  intros H. unfold memmove. rewrite take_0. cbn [app Nat.add].
  rewrite take_ge by (rewrite length_drop; lia). reflexivity.
Qed.

(* ------------------------------------------------------------------ *)
(** ** TfLiteMicroSpeachWriter *)
(* ------------------------------------------------------------------ *)

Module WriterFacts.
Import TfLiteMicroSpeachWriter.

Section WithFrontend.
Variable FrontendState : Type.
Variable FrontendProcessSamples : FrontendState -> list Z -> FrontendState * list Z.

Lemma drained_length (self : TfLiteMicroSpeachWriter.t FrontendState) :
  (length (drained self) <= Z.to_nat (kMaxAudioSampleSize self))%nat.
Proof.
  unfold drained, RingBuffer.readArray. cbn [fst]. rewrite length_take. lia.
Qed.

(** C4: for a feature matrix of [slice_count] slices of [slice_size]
    entries, with at least one slice, and a frontend that returns at most
    [slice_size] values for the samples drained from the ring buffer: after
    [addSlice] the matrix has the same length, and slice [k] of the new
    matrix is slice [k + 1] of the previous one for the first
    [slice_count - 1] slices.  The last slice starts with the quantized
    values that the frontend computed from the drained samples; when the
    frontend returns [slice_size] values, as it is configured to, they are
    the whole last slice. *)
Theorem addSlice_shifts_and_appends
    (self : TfLiteMicroSpeachWriter.t FrontendState) :
  let slice_size := Z.to_nat (kFeatureSliceSize (cfg self)) in
  let slice_count := Z.to_nat (kFeatureSliceCount (cfg self)) in
  let fresh :=
    snd (FrontendProcessSamples (g_micro_features_state self) (drained self)) in
  let self' := addSlice FrontendProcessSamples self in
  1 <= kFeatureSliceCount (cfg self) ->
  0 <= kFeatureSliceSize (cfg self) ->
  length (p_feature_data self) = (slice_count * slice_size)%nat ->
  length (p_audio_samples self) = Z.to_nat (kMaxAudioSampleSize self) ->
  (length fresh <= slice_size)%nat ->
  length (p_feature_data self') = (slice_count * slice_size)%nat
  /\ (forall k : nat,
        (k + 1 < slice_count)%nat ->
        slice (p_feature_data self') slice_size k
        = slice (p_feature_data self) slice_size (k + 1))
  /\ slice (p_feature_data self') slice_size (slice_count - 1)
     = (quantize_feature <$> fresh)
       ++ drop (length fresh)
            (slice (p_feature_data self) slice_size (slice_count - 1))
  /\ (length fresh = slice_size ->
      slice (p_feature_data self') slice_size (slice_count - 1)
      = quantize_feature <$> fresh
      /\ p_feature_data self'
         = drop slice_size (p_feature_data self) ++ (quantize_feature <$> fresh)).
Proof.
  intros S C fresh self' HC HS Hlen Haudio Hfresh.
  set (data := p_feature_data self) in *.
  assert (Hlast : Z.to_nat ((kFeatureSliceCount (cfg self) - 1)
                            * kFeatureSliceSize (cfg self))
                  = ((C - 1) * S)%nat).
  { unfold C, S. rewrite Z2Nat.inj_mul by lia. rewrite Z2Nat.inj_sub by lia.
    reflexivity. }
  assert (HCS : (C * S = (C - 1) * S + S)%nat).
  { assert (1 <= C)%nat by (unfold C; lia). nia. }
  set (old_last := drop ((C - 1) * S) data).
  assert (Hold : length old_last = S).
  { unfold old_last. rewrite length_drop, Hlen. lia. }
  assert (E : p_feature_data self'
              = drop S data
                ++ ((quantize_feature <$> fresh) ++ drop (length fresh) old_last)).
  { unfold self', addSlice. fold S. rewrite Hlast.
    change (RingBuffer.readArray (p_buffer self) (kMaxAudioSampleSize self))
      with (drained self,
            snd (RingBuffer.readArray (p_buffer self) (kMaxAudioSampleSize self))).
    cbv iota beta zeta.
    rewrite store_at_prefix by (rewrite Haudio; apply drained_length).
    unfold generateMicroFeatures.
    unfold fresh in Hfresh |- *.
    destruct (FrontendProcessSamples (g_micro_features_state self) (drained self))
      as [frontend values] eqn:Ef.
    cbn [snd p_feature_data]. cbn [snd] in Hfresh.
    fold data. rewrite memmove_left by (rewrite Hlen; lia). fold old_last.
    rewrite store_at_spec
      by (rewrite length_app, length_drop, length_fmap, Hlen, Hold; lia).
    rewrite take_app_length' by (rewrite length_drop, Hlen; lia).
    rewrite drop_app_ge by (rewrite length_drop, Hlen; lia).
    rewrite length_drop, Hlen, length_fmap.
    replace ((C - 1) * S + length values - (C * S - S))%nat
      with (length values) by lia.
    reflexivity. }
  assert (Hslice : slice data S (C - 1) = old_last).
  { unfold slice. fold old_last. apply take_ge. lia. }
  rewrite E, Hslice. clearbody fresh.
  assert (Hnew : slice (drop S data
                        ++ ((quantize_feature <$> fresh)
                            ++ drop (length fresh) old_last)) S (C - 1)
                 = (quantize_feature <$> fresh) ++ drop (length fresh) old_last).
  { unfold slice.
    rewrite drop_app_length' by (rewrite length_drop, Hlen; lia).
    apply take_ge. rewrite length_app, length_fmap, length_drop, Hold. lia. }
  split; [|split; [|split]].
  - rewrite !length_app, !length_drop, length_fmap, Hlen, Hold. lia.
  - intros k Hk. unfold slice.
    rewrite drop_app_le by (rewrite length_drop, Hlen; nia).
    rewrite take_app_le by (rewrite !length_drop, Hlen; nia).
    rewrite drop_drop. do 2 f_equal. lia.
  - exact Hnew.
  - intros Hfull. rewrite Hnew.
    rewrite (drop_ge old_last) by lia. rewrite app_nil_r. split; reflexivity.
Qed.

(** With more than one channel and [channel] at 0, [write1] stores the
    sample in [last_value], writes nothing and leaves [channel] at 0. *)
Lemma write1_stereo_writes_nothing
    (self : TfLiteMicroSpeachWriter.t FrontendState) (sample : Z) :
  channels (cfg self) <> 1 -> channel self = 0 ->
  let self' := snd (write1 self sample) in
  p_buffer self' = p_buffer self
  /\ channel self' = 0
  /\ cfg self' = cfg self
  /\ last_value self' = sample.
Proof.
  intros Hc H0. unfold write1.
  destruct (Z.eqb_spec (channels (cfg self)) 1); [contradiction|].
  rewrite H0. cbn. repeat split.
Qed.

(** X5: hence no block of samples ever reaches the ring buffer of a
    writer configured for more than one channel. *)
Lemma write1_all_stereo_writes_nothing
    (samples : list Z) (self : TfLiteMicroSpeachWriter.t FrontendState) :
  channels (cfg self) <> 1 -> channel self = 0 ->
  p_buffer (write1_all self samples) = p_buffer self.
Proof.
  revert self. induction samples as [|s samples IH]; intros self Hc H0;
    [reflexivity|].
  unfold write1_all. cbn [foldl]. fold (write1_all (snd (write1 self s)) samples).
  destruct (write1_stereo_writes_nothing self s Hc H0) as (Hb & Hch & Hcfg & _).
  rewrite IH by (rewrite ?Hcfg; assumption). exact Hb.
Qed.

End WithFrontend.

(** On [small_writer] the matrix 1..6 becomes 3..6 followed by the
    entries for the samples 100 and 300. *)
Lemma addSlice_shifts_and_appends_witness :
  p_feature_data (addSlice (sample_frontend 2) small_writer)
  = [3; 4; 5; 6; -90; -13].
Proof.
  destruct (addSlice_shifts_and_appends unit (sample_frontend 2) small_writer)
    as (_ & _ & _ & E);
    [vm_compute; congruence | vm_compute; congruence | reflexivity
    | reflexivity | vm_compute; lia |].
  destruct (E eq_refl) as [_ E']. rewrite E'. vm_compute. reflexivity.
Defined.

(** C9 at the failing input: a writer configured for two channels, fed
    the frame pairs (100, 300) and (-50, 50) sample by sample, writes
    nothing into the ring buffer, where the mono samples 200 and 0 are
    expected.  [TfLiteAudioFeatureProvider::write], the older code for the
    same step, does write 200 and 0. *)
Theorem write1_stereo_downmix_lost :
  RingBuffer.items
    (p_buffer (write1_all (begin stereo_config tt) [100; 300; -50; 50])) = []
  /\ RingBuffer.items
       (TfLiteAudioFeatureProvider.p_buffer
          (snd (TfLiteAudioFeatureProvider.write (sample_frontend 40)
                  (TfLiteAudioFeatureProvider.begin 2 tt) [100; 300; -50; 50])))
     = [200; 0].
Proof. vm_compute. split; reflexivity. Qed.

End WriterFacts.

(* ------------------------------------------------------------------ *)
(** ** Further properties of the history, of [clip] and of the downmix *)
(* ------------------------------------------------------------------ *)

Module HistoryFacts.
Import TfLiteResultsQueue TfLiteMicroSpeechRecognizeCommands QueueFacts RecognizeFacts.

(** The timestamp -1 on a history that starts at 0. *)
Lemma out_of_order_rejected_witness :
  processLatestResults warm_recognizer (scores_tensor [-128; 127]) (-1)
    no_recognition
  = (kTfLiteError, no_recognition, warm_recognizer).
Proof.
  apply (out_of_order_rejected warm_recognizer (scores_tensor [-128; 127]) (-1)
           no_recognition).
  reflexivity.
Defined.





End HistoryFacts.

Module ClipFacts.
Import Float32 TfQuantizer TfQuantizerFacts.

(** -3.5 with the range 3 stays -3.5. *)
Lemma clip_negative_unchanged_witness :
  clip (lit (-7) 2) (of_int 3) = lit (-7) 2.
Proof.
  apply (clip_negative_unchanged (lit (-7) 2) (of_int 3)); reflexivity.
Defined.

End ClipFacts.

Module DownmixFacts.
Import TfLiteMicroSpeachWriter WriterFacts.

(** Six samples on a fresh two-channel writer. *)
Lemma write1_all_stereo_writes_nothing_witness :
  p_buffer (write1_all (begin stereo_config tt) [1; 2; 3; 4; 5; 6])
  = RingBuffer.create 480.
Proof.
  rewrite (write1_all_stereo_writes_nothing unit [1; 2; 3; 4; 5; 6]
             (begin stereo_config tt)).
  - reflexivity.
  - vm_compute. discriminate.
  - reflexivity.
Defined.

Section Provider.
Variable FrontendState : Type.
Variable FrontendProcessSamples : FrontendState -> list Z -> FrontendState * list Z.

(** X6: [TfLiteAudioFeatureProvider::write], the older code, configured
    for two channels and given one frame [(a, b)] while the ring buffer has
    room, appends the single sample [(a / 2) + (b / 2)], each half
    truncated toward zero. *)
Lemma provider_write_downmix
    (self : TfLiteAudioFeatureProvider.t FrontendState) (a b : Z) :
  TfLiteAudioFeatureProvider.kAudioChannels self = 2 ->
  0 < RingBuffer.availableForWrite (TfLiteAudioFeatureProvider.p_buffer self) ->
  -32768 <= a <= 32767 -> -32768 <= b <= 32767 ->
  RingBuffer.items
    (TfLiteAudioFeatureProvider.p_buffer
       (snd (TfLiteAudioFeatureProvider.write FrontendProcessSamples self [a; b])))
  = RingBuffer.items (TfLiteAudioFeatureProvider.p_buffer self) ++ [a ÷ 2 + b ÷ 2].
Proof.
  intros Hc Hroom Ha Hb.
  unfold TfLiteAudioFeatureProvider.write.
  cbn [length TfLiteAudioFeatureProvider.write_loop].
  change (0 <? Z.of_nat 2) with true. cbv iota.
  destruct (Z.eqb_spec (RingBuffer.availableForWrite
                          (TfLiteAudioFeatureProvider.p_buffer self)) 0); [lia|].
  rewrite Hc. change (2 =? 1) with false. cbv iota.
  change (cell [a; b] (Z.to_nat 0)) with a.
  change (cell [a; b] (Z.to_nat (0 + 1))) with b.
  assert (Hq : -32768 <= a ÷ 2 + b ÷ 2 <= 32767).
  { assert (-16384 <= a ÷ 2) by (apply (Z.quot_le_mono (-32768) a 2); lia).
    assert (a ÷ 2 <= 16383) by (apply (Z.quot_le_mono a 32767 2); lia).
    assert (-16384 <= b ÷ 2) by (apply (Z.quot_le_mono (-32768) b 2); lia).
    assert (b ÷ 2 <= 16383) by (apply (Z.quot_le_mono b 32767 2); lia). lia. }
  rewrite (wrap16_small _ Hq).
  cbn [TfLiteAudioFeatureProvider.with_buffer TfLiteAudioFeatureProvider.p_buffer
       TfLiteAudioFeatureProvider.kAudioChannels].
  unfold RingBuffer.write.
  destruct (Z.gtb_spec (RingBuffer.availableForWrite
                          (TfLiteAudioFeatureProvider.p_buffer self)) 0); [|lia].
  cbn [snd]. rewrite Hc. change (0 + 2 <? Z.of_nat 2) with false. cbv iota.
  reflexivity.
Qed.

End Provider.

(** The frame (-50, 51) gives -25 + 25 = 0. *)
Lemma provider_write_downmix_witness :
  RingBuffer.items
    (TfLiteAudioFeatureProvider.p_buffer
       (snd (TfLiteAudioFeatureProvider.write (sample_frontend 40)
               (TfLiteAudioFeatureProvider.begin 2 tt) [-50; 51])))
  = [0].
Proof.
  rewrite (provider_write_downmix unit (sample_frontend 40)
             (TfLiteAudioFeatureProvider.begin 2 tt) (-50) 51);
    try reflexivity; lia.
Defined.

End DownmixFacts.

(* ------------------------------------------------------------------ *)
(** ** TfLiteResultsQueue as a bounded queue *)
(* ------------------------------------------------------------------ *)

Module FifoFacts.
Import TfLiteResultsQueue QueueFacts.

Lemma length_contents (q : TfLiteResultsQueue.t) :
  length (contents q) = Z.to_nat (size q).
Proof. unfold contents, size. now rewrite length_fmap, length_seq. Qed.

Lemma contents_lookup (q : TfLiteResultsQueue.t) (k : nat) :
  (k < Z.to_nat (size q))%nat ->
  contents q !! k = Some (from_front q (Z.of_nat k)).
Proof.
  intros Hk. unfold contents. rewrite list_lookup_fmap.
  fold (size q). rewrite lookup_seq_lt by exact Hk. reflexivity.
Qed.

(** The contents from the values of [from_front]. *)
Lemma contents_ext (q1 : TfLiteResultsQueue.t) (n : nat) (f : nat -> Result) :
  Z.to_nat (size q1) = n ->
  (forall k, (k < n)%nat -> from_front q1 (Z.of_nat k) = f k) ->
  contents q1 = f <$> seq 0 n.
Proof.
  intros Hn H. unfold contents. fold (size q1). rewrite Hn.
  apply list_eq. intros i. rewrite !list_lookup_fmap.
  destruct (decide (i < n)%nat) as [Hi|Hi].
  - rewrite lookup_seq_lt by exact Hi. cbn. f_equal. apply H, Hi.
  - rewrite lookup_seq_ge by lia. reflexivity.
Qed.

Lemma from_front_push_back_old (q : TfLiteResultsQueue.t) (e : Result) (k : Z) :
  wf q -> size q < kMaxResults -> 0 <= k < size q ->
  from_front (push_back q e) k = from_front q k.
Proof.
  intros (Hl & Hf & Hs) Hfull Hk. unfold push_back, size in *.
  destruct (Z.geb_spec (size_ q) kMaxResults); [lia|].
  unfold from_front, back_index, at_index. cbn [results_ front_index_ size_].
  destruct (Z.ltb_spec k 0); [lia|].
  destruct (Z.geb_spec k (size_ q + 1)); [lia|].
  destruct (Z.geb_spec k (size_ q)); [lia|]. cbn [orb].
  rewrite list_lookup_insert_ne; [reflexivity|].
  unfold kMaxResults in *.
  destruct (Z.geb_spec (front_index_ q + (size_ q + 1 - 1)) 50);
    destruct (Z.geb_spec (front_index_ q + k) 50); lia.
Qed.

Lemma from_front_push_back_new (q : TfLiteResultsQueue.t) (e : Result) :
  wf q -> size q < kMaxResults ->
  from_front (push_back q e) (size q) = e.
Proof.
  intros (Hl & Hf & Hs) Hfull. unfold push_back, size in *.
  destruct (Z.geb_spec (size_ q) kMaxResults); [lia|].
  unfold from_front, back_index, at_index. cbn [results_ front_index_ size_].
  destruct (Z.ltb_spec (size_ q) 0); [lia|].
  destruct (Z.geb_spec (size_ q) (size_ q + 1)); [lia|]. cbn [orb].
  replace (front_index_ q + (size_ q + 1 - 1)) with (front_index_ q + size_ q)
    by lia.
  rewrite list_lookup_insert_eq; [reflexivity|].
  rewrite Hl. unfold kMaxResults in *.
  destruct (Z.geb_spec (front_index_ q + size_ q) 50); lia.
Qed.

Lemma back_push_back (q : TfLiteResultsQueue.t) (e : Result) :
  wf q -> size q < kMaxResults -> back (push_back q e) = e.
Proof.
  intros (Hl & Hf & Hs) Hfull. unfold push_back, size in *.
  destruct (Z.geb_spec (size_ q) kMaxResults); [lia|].
  unfold back, back_index, at_index. cbn [results_ front_index_ size_].
  rewrite list_lookup_insert_eq; [reflexivity|].
  rewrite Hl. unfold kMaxResults in *.
  destruct (Z.geb_spec (front_index_ q + (size_ q + 1 - 1)) 50); lia.
Qed.

Lemma contents_push_back (q : TfLiteResultsQueue.t) (e : Result) :
  wf q -> size q < kMaxResults ->
  contents (push_back q e) = contents q ++ [e].
Proof.
  intros Hwf Hfull.
  pose proof Hwf as (Hl & Hf & Hs). fold (size q) in Hs.
  assert (Hsz : Z.to_nat (size (push_back q e)) = S (Z.to_nat (size q))).
  { rewrite push_back_size. destruct (Z.geb_spec (size q) kMaxResults); lia. }
  rewrite (contents_ext (push_back q e) (S (Z.to_nat (size q)))
             (fun k => if decide (k < Z.to_nat (size q))%nat
                       then from_front q (Z.of_nat k) else e) Hsz).
  - rewrite seq_S, fmap_app. cbn [fmap list_fmap plus].
    rewrite decide_False by lia. f_equal.
    unfold contents. fold (size q). apply list_eq. intros i.
    rewrite !list_lookup_fmap.
    destruct (decide (i < Z.to_nat (size q))%nat) as [Hi|Hi].
    + rewrite lookup_seq_lt by exact Hi. cbn. now rewrite decide_True by exact Hi.
    + rewrite lookup_seq_ge by lia. reflexivity.
  - intros k Hk. destruct (decide (k < Z.to_nat (size q))%nat) as [Hi|Hi].
    + apply from_front_push_back_old; [assumption..|lia].
    + replace (Z.of_nat k) with (size q) by lia.
      apply from_front_push_back_new; assumption.
Qed.

Lemma from_front_pop_front (q : TfLiteResultsQueue.t) (k : Z) :
  wf q -> 0 <= k < size q - 1 ->
  from_front (snd (pop_front q)) k = from_front q (k + 1).
Proof.
  intros (Hl & Hf & Hs) Hk. unfold pop_front, size in *.
  destruct (Z.leb_spec (size_ q) 0); [lia|]. cbn [snd].
  unfold from_front, at_index. cbn [results_ front_index_ size_].
  destruct (Z.ltb_spec k 0); [lia|].
  destruct (Z.geb_spec k (size_ q - 1)); [lia|].
  destruct (Z.ltb_spec (k + 1) 0); [lia|].
  destruct (Z.geb_spec (k + 1) (size_ q)); [lia|]. cbn [orb].
  unfold kMaxResults in *. f_equal. f_equal.
  destruct (Z.geb_spec (front_index_ q + 1) 50);
    destruct (Z.geb_spec (front_index_ q + (k + 1)) 50).
  - destruct (Z.geb_spec (0 + k) 50); lia.
  - lia.
  - destruct (Z.geb_spec (front_index_ q + 1 + k) 50); lia.
  - destruct (Z.geb_spec (front_index_ q + 1 + k) 50); lia.
Qed.

Lemma from_front_0 (q : TfLiteResultsQueue.t) :
  wf q -> 0 < size q -> from_front q 0 = front q.
Proof.
  intros (Hl & Hf & Hs) Hk. unfold from_front, front, size in *.
  destruct (Z.ltb_spec 0 0); [lia|].
  destruct (Z.geb_spec 0 (size_ q)); [lia|]. cbn [orb].
  rewrite Z.add_0_r.
  destruct (Z.geb_spec (front_index_ q) kMaxResults); [lia|reflexivity].
Qed.

Lemma contents_pop_front (q : TfLiteResultsQueue.t) :
  wf q -> 0 < size q ->
  fst (pop_front q) = front q
  /\ contents q = front q :: contents (snd (pop_front q)).
Proof.
  intros Hwf Hpos. split.
  { unfold pop_front. destruct (Z.leb_spec (size q) 0); [lia|reflexivity]. }
  assert (Hsz : Z.to_nat (size q) = S (Z.to_nat (size (snd (pop_front q))))).
  { rewrite pop_front_size. destruct (Z.leb_spec (size q) 0); lia. }
  unfold contents at 1. fold (size q). rewrite Hsz.
  cbn [seq fmap list_fmap]. f_equal.
  - apply from_front_0; assumption.
  - rewrite <- fmap_S_seq, <- list_fmap_compose.
    unfold contents. fold (size (snd (pop_front q))).
    apply list_eq. intros i. rewrite !list_lookup_fmap.
    destruct (decide (i < Z.to_nat (size (snd (pop_front q))))%nat) as [Hi|Hi].
    + rewrite lookup_seq_lt by exact Hi. cbn. f_equal.
      rewrite from_front_pop_front; [f_equal; lia|assumption|lia].
    + rewrite lookup_seq_ge by lia. reflexivity.
Qed.

Lemma push_back_all (es : list Result) (q : TfLiteResultsQueue.t) :
  wf q ->
  contents (foldl push_back q es)
  = take (Z.to_nat kMaxResults) (contents q ++ es).
Proof.
  revert q. induction es as [|e es IH]; intros q Hwf; cbn [foldl].
  - rewrite app_nil_r, take_ge; [reflexivity|].
    rewrite length_contents. destruct Hwf as (_ & _ & Hs). unfold size. lia.
  - rewrite IH by apply push_back_wf, Hwf.
    destruct (Z.ltb_spec (size q) kMaxResults) as [Hlt|Hge].
    + rewrite contents_push_back by assumption.
      now rewrite <- app_assoc.
    + assert (E : push_back q e = q).
      { unfold push_back. destruct (Z.geb_spec (size q) kMaxResults); [reflexivity|lia]. }
      rewrite E.
      assert (L : length (contents q) = Z.to_nat kMaxResults).
      { rewrite length_contents. destruct Hwf as (_ & _ & Hs). unfold size in *. lia. }
      rewrite !take_app_le by lia. reflexivity.
Qed.

Lemma from_front_last (q : TfLiteResultsQueue.t) :
  from_front q (size q - 1) = back q /\
  forall k, k < 0 \/ size q <= k -> from_front q k = from_front q (size q - 1).
Proof.
  split.
  - unfold from_front, back, back_index, size.
    destruct ((size_ q - 1 <? 0) || (size_ q - 1 >=? size_ q)); reflexivity.
  - intros k Hk. unfold from_front, size in *.
    assert ((k <? 0) || (k >=? size_ q) = true) as ->.
    { apply orb_true_iff. destruct Hk; [left; now apply Z.ltb_lt|right].
      destruct (Z.geb_spec k (size_ q)); [reflexivity|lia]. }
    destruct ((size_ q - 1 <? 0) || (size_ q - 1 >=? size_ q)); reflexivity.
Qed.

End FifoFacts.

Module FifoProps.
Import TfLiteResultsQueue QueueFacts FifoFacts.

(** X8: on a history that is not full, [push_back] appends: the entries,
    oldest first, are the previous ones followed by the new one, which
    [back] then returns. *)
Theorem push_back_appends (q : TfLiteResultsQueue.t) (e : Result) :
  wf q -> size q < kMaxResults ->
  contents (push_back q e) = contents q ++ [e]
  /\ back (push_back q e) = e
  /\ size (push_back q e) = size q + 1.
Proof.
  intros Hwf Hfull. split; [apply contents_push_back; assumption|].
  split; [apply back_push_back; assumption|].
  rewrite push_back_size. destruct (Z.geb_spec (size q) kMaxResults); lia.
Qed.

(** X9: [pop_front] on an empty history returns a default result and
    changes nothing; otherwise it returns the oldest entry and leaves the
    others, in order. *)
Theorem pop_front_takes_oldest (q : TfLiteResultsQueue.t) :
  wf q ->
  (size q = 0 -> pop_front q = (Result_default, q))
  /\ (0 < size q ->
      fst (pop_front q) = front q
      /\ contents q = fst (pop_front q) :: contents (snd (pop_front q))
      /\ size (snd (pop_front q)) = size q - 1).
Proof.
  intros Hwf. split.
  - intros H0. unfold pop_front. rewrite H0. reflexivity.
  - intros Hpos. destruct (contents_pop_front q Hwf Hpos) as [E1 E2].
    split; [exact E1|]. split; [now rewrite E1|].
    rewrite pop_front_size. destruct (Z.leb_spec (size q) 0); lia.
Qed.

(** X10: pushing a sequence of results on a new history keeps the first
    [kMaxResults] of them, in order, and drops the rest. *)
Theorem push_back_keeps_first_results (es : list Result) :
  contents (foldl push_back create es) = take (Z.to_nat kMaxResults) es.
Proof. now rewrite push_back_all by apply RecognizeFacts.create_wf. Qed.

(** X11: [from_front(offset)] reads the entry [offset] places behind the
    oldest one; an offset outside [0, size) is not an error but yields the
    newest entry, the one [back] returns. *)
Theorem from_front_reads_contents (q : TfLiteResultsQueue.t) :
  0 < size q ->
  (forall k, 0 <= k < size q ->
     contents q !! Z.to_nat k = Some (from_front q k))
  /\ (forall k, k < 0 \/ size q <= k -> from_front q k = back q)
  /\ last (contents q) = Some (back q).
Proof.
  intros Hpos. destruct (from_front_last q) as [Hb Ho].
  split; [|split].
  - intros k Hk. rewrite contents_lookup by lia. now rewrite Z2Nat.id by lia.
  - intros k Hk. rewrite Ho by exact Hk. exact Hb.
  - rewrite last_lookup, length_contents.
    replace (pred (Z.to_nat (size q))) with (Z.to_nat (size q - 1)) by lia.
    rewrite contents_lookup by lia. rewrite Z2Nat.id by lia. now rewrite Hb.
Qed.

End FifoProps.

Module FifoWitnesses.
Import TfLiteResultsQueue QueueFacts FifoProps.

(** A first result on a new history. *)
Lemma push_back_appends_witness :
  contents (push_back create (Result_make 2 5 [1; 2])) = [Result_make 2 5 [1; 2]]
  /\ back (push_back create (Result_make 2 5 [1; 2])) = Result_make 2 5 [1; 2].
Proof.
  destruct (push_back_appends create (Result_make 2 5 [1; 2])) as (E1 & E2 & _).
  - repeat split; vm_compute; congruence.
  - reflexivity.
  - split; [exact E1 | exact E2].
Defined.

(** The full history gives up its oldest entry, the result recorded at
    time 0. *)
Lemma pop_front_takes_oldest_witness :
  time_ (fst (pop_front full_queue)) = 0
  /\ size (snd (pop_front full_queue)) = 49.
Proof.
  destruct (pop_front_takes_oldest full_queue) as [_ H].
  - repeat split; vm_compute; congruence.
  - destruct (H eq_refl) as (E1 & _ & E3). rewrite E1, E3. split; reflexivity.
Defined.

(** Reading the full history at the offsets 50 and -1 gives its newest
    entry, recorded at time 49. *)
Lemma from_front_reads_contents_witness :
  time_ (from_front full_queue 50) = 49 /\ time_ (from_front full_queue (-1)) = 49.
Proof.
  destruct (from_front_reads_contents full_queue eq_refl) as (_ & H & _).
  rewrite (H 50), (H (-1)) by (vm_compute; intuition congruence).
  split; reflexivity.
Defined.

End FifoWitnesses.

(* ------------------------------------------------------------------ *)
(** ** processLatestResults: the history over a stream of results *)
(* ------------------------------------------------------------------ *)

Module PruneFacts.
Import TfLiteResultsQueue TfLiteMicroSpeechRecognizeCommands QueueFacts RecognizeFacts FifoFacts.

Lemma front_in_contents (q : TfLiteResultsQueue.t) :
  wf q -> 0 < size q -> exists rest, contents q = front q :: rest.
Proof.
  intros Hwf Hs. destruct (contents_pop_front q Hwf Hs) as [_ E]. eauto.
Qed.

Lemma prune_loop_contents (fuel : nat) (q : TfLiteResultsQueue.t) (limit : Z) :
  wf q ->
  exists old,
    contents q = old ++ contents (prune_loop fuel q limit)
    /\ Forall (fun r => time_ r < limit) old.
Proof.
  revert q. induction fuel as [|fuel IH]; intros q Hwf; cbn [prune_loop].
  - exists []. split; [reflexivity|constructor].
  - destruct (negb (empty q) && (time_ (front q) <? limit)) eqn:E.
    + apply andb_true_iff in E as [Hne Hlt]. apply Z.ltb_lt in Hlt.
      assert (Hs : 0 < size q).
      { unfold empty in Hne. destruct Hwf as (_ & _ & Hs). unfold size.
        destruct (Z.eqb_spec (size_ q) 0); [discriminate Hne|lia]. }
      destruct (contents_pop_front q Hwf Hs) as [_ Ec].
      destruct (IH (snd (pop_front q)) (pop_front_wf q Hwf)) as (old & Eo & Fo).
      exists (front q :: old). split.
      * rewrite Ec, Eo. reflexivity.
      * constructor; assumption.
    + exists []. split; [reflexivity|constructor].
Qed.

Lemma prune_head (q : TfLiteResultsQueue.t) (limit : Z) :
  wf q ->
  match contents (prune q limit) with
  | [] => True
  | r :: _ => limit <= time_ r
  end.
Proof.
  intros Hwf.
  pose proof (prune_loop_exit (Z.to_nat (size q)) q limit) as Hx.
  pose proof Hwf as (Hl & Hf & Hs). fold (size q) in Hs.
  specialize (Hx ltac:(lia)). cbv zeta in Hx. fold (prune q limit) in Hx.
  assert (Hwf' : wf (prune q limit)) by apply prune_loop_wf, Hwf.
  destruct (contents (prune q limit)) as [|r rest] eqn:Ec; [exact I|].
  assert (Hpos : 0 < size (prune q limit)).
  { pose proof (length_contents (prune q limit)) as L. rewrite Ec in L.
    cbn in L. lia. }
  destruct (front_in_contents _ Hwf' Hpos) as [rest' Er].
  rewrite Ec in Er. injection Er as -> _.
  apply andb_false_iff in Hx as [Hx|Hx].
  - unfold empty in Hx. unfold size in Hpos.
    destruct (Z.eqb_spec (size_ (prune q limit)) 0); [lia|discriminate Hx].
  - now apply Z.ltb_ge in Hx.
Qed.

End PruneFacts.

Module StreamFacts.
Import TfLiteResultsQueue TfLiteMicroSpeechRecognizeCommands QueueFacts RecognizeFacts FifoFacts PruneFacts.

Lemma bad_shape_false_iff (self : TfLiteMicroSpeechRecognizeCommands.t) (tensor : TfLiteTensor) :
  bad_shape self tensor = false <-> dims tensor = [1; kCategoryCount self].
Proof.
  unfold bad_shape, cell. rewrite !orb_false_iff, !negb_false_iff, !Z.eqb_eq.
  split.
  - intros [[Hl H0] H1]. destruct (dims tensor) as [|a [|b [|c l]]];
      cbn in Hl, H0, H1; try lia. now subst.
  - intros ->. cbn. repeat split.
Qed.

Lemma out_of_order_false_iff (self : TfLiteMicroSpeechRecognizeCommands.t) (time : Z) :
  out_of_order self time = false <->
  size (previous_results_ self) = 0
  \/ time_ (front (previous_results_ self)) <= time.
Proof.
  unfold out_of_order, empty, size.
  rewrite andb_false_iff, negb_false_iff, Z.eqb_eq, Z.ltb_ge. reflexivity.
Qed.

Lemma rejects_false_iff (self : TfLiteMicroSpeechRecognizeCommands.t) (tensor : TfLiteTensor) (time : Z) :
  rejects self tensor time = false <->
  started self = true
  /\ dims tensor = [1; kCategoryCount self]
  /\ type tensor = kTfLiteInt8
  /\ (size (previous_results_ self) = 0
      \/ time_ (front (previous_results_ self)) <= time).
Proof.
  unfold rejects. rewrite !orb_false_iff, !negb_false_iff.
  rewrite bad_shape_false_iff, out_of_order_false_iff.
  assert (is_kTfLiteInt8 (type tensor) = true <-> type tensor = kTfLiteInt8)
    as -> by (destruct (type tensor); cbn; split; congruence).
  tauto.
Qed.

(** The state after a call that is not rejected. *)
Lemma process_accepted_state self tensor time out :
  rejects self tensor time = false ->
  let r := processLatestResults self tensor time out in
  fst (fst r) = kTfLiteOk
  /\ previous_results_ (snd r) = surviving self tensor time
  /\ cfg (snd r) = cfg self
  /\ kCategoryCount (snd r) = kCategoryCount self
  /\ started (snd r) = started self.
Proof.
  intros H. cbv zeta. rewrite (process_accepted _ _ _ _ H). cbv zeta.
  destruct (insufficient _ _ _); [repeat split|].
  destruct (_ && _); repeat split.
Qed.

End StreamFacts.

Module StreamProps.
Import TfLiteResultsQueue TfLiteMicroSpeechRecognizeCommands QueueFacts RecognizeFacts.
Import FifoFacts PruneFacts StreamFacts.

(** X12: the pruning loop removes a prefix of the history, oldest first,
    made of entries older than the time limit, and stops at the first
    entry that is not older: entries behind it stay, whatever their
    timestamps. *)
Theorem prune_drops_old_prefix (q : TfLiteResultsQueue.t) (limit : Z) :
  wf q ->
  exists old,
    contents q = old ++ contents (prune q limit)
    /\ Forall (fun r => time_ r < limit) old
    /\ match contents (prune q limit) with
       | [] => True
       | r :: _ => limit <= time_ r
       end.
Proof.
  intros Hwf.
  destruct (prune_loop_contents (Z.to_nat (size q)) q limit Hwf) as (old & E & F).
  exists old. split; [exact E|]. split; [exact F|]. apply prune_head, Hwf.
Qed.

Lemma time_Result_make (n time : Z) (data : list Z) :
  time_ (Result_make n time data) = time.
Proof. reflexivity. Qed.

Lemma contents_last_back (q : TfLiteResultsQueue.t) (l : list Result) (e : Result) :
  contents q = l ++ [e] -> back q = e.
Proof.
  intros E.
  assert (Hs : Z.to_nat (size q) = S (length l)).
  { rewrite <- length_contents, E, length_app. cbn. lia. }
  assert (H : contents q !! length l = Some (from_front q (Z.of_nat (length l))))
    by (apply contents_lookup; lia).
  rewrite E, list_lookup_middle in H by reflexivity.
  injection H as ->.
  replace (Z.of_nat (length l)) with (size q - 1) by lia.
  symmetry. apply from_front_last.
Qed.

(** The entries that survive a call on a history with room. *)
Lemma surviving_contents (self : TfLiteMicroSpeechRecognizeCommands.t)
    (tensor : TfLiteTensor) (time : Z) :
  wf (previous_results_ self) ->
  size (previous_results_ self) < kMaxResults ->
  wrap32 (time - average_window_duration_ms (cfg self)) <= time ->
  exists old kept,
    contents (previous_results_ self) = old ++ kept
    /\ contents (surviving self tensor time)
       = kept ++ [Result_make (kCategoryCount self) time (data_int8 tensor)]
    /\ Forall (fun r => time_ r < wrap32 (time - average_window_duration_ms (cfg self)))
         old.
Proof.
  intros Hwf Hroom Hlim. unfold surviving.
  remember (Result_make (kCategoryCount self) time (data_int8 tensor)) as e eqn:He.
  remember (wrap32 (time - average_window_duration_ms (cfg self))) as limit eqn:Hl.
  destruct (prune_loop_contents
              (Z.to_nat (size (push_back (previous_results_ self) e)))
              (push_back (previous_results_ self) e) limit
              (push_back_wf _ e Hwf)) as (old & E & F).
  fold (prune (push_back (previous_results_ self) e) limit) in E.
  rewrite contents_push_back in E by assumption.
  apply app_eq_app in E as [l [[E1 E2]|[E1 E2]]].
  - (* the prefix removed ends within the previous entries *)
    exists old, l. split; [exact E1|]. split; [|exact F].
    rewrite E2. reflexivity.
  - destruct l as [|x l].
    + (* all the previous entries are removed *)
      rewrite app_nil_r in E1. cbn in E2. subst old.
      exists (contents (previous_results_ self)), [].
      rewrite app_nil_r, <- E2. repeat split. exact F.
    + (* the new entry is not older than the limit *)
      exfalso. injection E2 as Ex _. rewrite E1 in F.
      apply Forall_app in F as [_ F]. inversion F as [|? ? Hx _].
      rewrite <- Ex, He in Hx. cbn [time_ Result_make] in Hx. lia.
Qed.

End StreamProps.

Module HistoryProps.
Import TfLiteResultsQueue TfLiteMicroSpeechRecognizeCommands QueueFacts RecognizeFacts TopFacts.
Import FifoFacts PruneFacts StreamFacts StreamProps.

(** X13: a call that is not rejected, on a history with room, appends the
    new result (the first [kCategoryCount] scores of the tensor, with the
    current time) and removes the oldest entries that are older than
    [current_time_ms - average_window_duration_ms]; the new result is the
    newest entry afterwards, so the history is never left empty. *)
Theorem accepted_result_is_newest
    (self : TfLiteMicroSpeechRecognizeCommands.t) (tensor : TfLiteTensor)
    (time : Z) (out : Recognition) :
  wf (previous_results_ self) ->
  rejects self tensor time = false ->
  size (previous_results_ self) < kMaxResults ->
  0 <= average_window_duration_ms (cfg self) ->
  INT32_MIN <= time - average_window_duration_ms (cfg self) ->
  time <= INT32_MAX ->
  let self' := snd (processLatestResults self tensor time out) in
  let new := Result_make (kCategoryCount self) time (data_int8 tensor) in
  exists old kept,
    contents (previous_results_ self) = old ++ kept
    /\ contents (previous_results_ self') = kept ++ [new]
    /\ Forall (fun r => time_ r < time - average_window_duration_ms (cfg self)) old
    /\ back (previous_results_ self') = new.
Proof.
  intros Hwf Hacc Hroom Hw Hlo Hhi self' new.
  assert (El : wrap32 (time - average_window_duration_ms (cfg self))
               = time - average_window_duration_ms (cfg self))
    by (apply wrap32_small; lia).
  destruct (surviving_contents self tensor time Hwf Hroom) as (old & kept & E1 & E2 & F);
    [lia|].
  destruct (process_accepted_state self tensor time out Hacc) as (_ & Es & _).
  fold self' in Es. rewrite El in F.
  exists old, kept. rewrite Es. repeat split; try assumption.
  apply (contents_last_back _ kept), E2.
Qed.

(** X14: when the history already holds [kMaxResults] entries and its
    oldest one is not older than the time limit, a call that is not
    rejected still returns [kTfLiteOk], but the new result is not
    recorded: the history is exactly as before. *)
Theorem full_history_ignores_result
    (self : TfLiteMicroSpeechRecognizeCommands.t) (tensor : TfLiteTensor)
    (time : Z) (out : Recognition) :
  rejects self tensor time = false ->
  size (previous_results_ self) = kMaxResults ->
  INT32_MIN <= time - average_window_duration_ms (cfg self) <= INT32_MAX ->
  time - average_window_duration_ms (cfg self)
    <= time_ (front (previous_results_ self)) ->
  let r := processLatestResults self tensor time out in
  fst (fst r) = kTfLiteOk
  /\ previous_results_ (snd r) = previous_results_ self.
Proof.
  intros Hacc Hfull Hr Hlim r.
  destruct (process_accepted_state self tensor time out Hacc) as (Hs & Es & _).
  fold r in Hs, Es. split; [exact Hs|]. rewrite Es.
  unfold surviving, push_back. rewrite Hfull. change (kMaxResults >=? kMaxResults) with true.
  cbv iota. unfold prune. rewrite Hfull. change (Z.to_nat kMaxResults) with 50%nat.
  cbn [prune_loop]. rewrite wrap32_small by exact Hr.
  destruct (Z.ltb_spec (time_ (front (previous_results_ self)))
              (time - average_window_duration_ms (cfg self))); [lia|].
  now rewrite andb_false_r.
Qed.

Lemma find_top_range (q : TfLiteResultsQueue.t) (n : nat) :
  0 <= size q <= kMaxResults ->
  0 <= snd (find_top (average_scores q n) n) <= 255.
Proof.
  intros Hs.
  destruct (find_top_spec (average_scores q n) n) as (H1 & _ & _ & H4).
  { intros i Hi. rewrite average_scores_mean by assumption.
    apply mean_score_nonneg. lia. }
  split; [exact H1|].
  destruct n as [|n]; [cbn; lia|].
  destruct (H4 ltac:(lia)) as (A & B & _). rewrite <- B.
  rewrite average_scores_mean by assumption. apply mean_score_le_255. lia.
Qed.

(** X15: for a configuration whose [minimum_count] is positive, the
    score reported by a call that is not rejected lies between 0 and 255,
    and a new command is reported only with a score above
    [detection_threshold]; with a threshold of 255 no command is ever
    reported as new. *)
Theorem score_within_uint8
    (self : TfLiteMicroSpeechRecognizeCommands.t) (tensor : TfLiteTensor)
    (time : Z) (out : Recognition) :
  wf (previous_results_ self) ->
  0 < minimum_count (cfg self) ->
  rejects self tensor time = false ->
  let out' := snd (fst (processLatestResults self tensor time out)) in
  0 <= score out' <= 255
  /\ (is_new_command out' = true -> detection_threshold (cfg self) < score out')
  /\ (255 <= detection_threshold (cfg self) -> is_new_command out' = false).
Proof.
  intros Hwf _ Hacc. cbv zeta.
  rewrite (process_accepted _ _ _ _ Hacc). cbv zeta.
  destruct (insufficient _ _ _); [cbn; repeat split; try lia; discriminate|].
  pose proof (surviving_wf self tensor time Hwf) as (_ & _ & Hs).
  pose proof (find_top_range (surviving self tensor time)
                (Z.to_nat (kCategoryCount self)) Hs) as Ht.
  set (top := find_top _ _) in *.
  assert (Eu : to_uint8 (snd top) = snd top).
  { unfold to_uint8. apply Z.mod_small. lia. }
  destruct (Z.gtb_spec (snd top) (detection_threshold (cfg self))) as [Hgt|Hle];
    cbn [andb].
  - destruct (_ || _); cbn [fst snd score is_new_command]; rewrite Eu;
      repeat split; try lia; try discriminate.
  - cbn [fst snd score is_new_command]. rewrite Eu.
    repeat split; try lia; discriminate.
Qed.

Lemma surviving_subset (self : TfLiteMicroSpeechRecognizeCommands.t)
    (tensor : TfLiteTensor) (time : Z) (r : Result) :
  wf (previous_results_ self) ->
  r ∈ contents (surviving self tensor time) ->
  r ∈ contents (previous_results_ self) \/ time_ r = time.
Proof.
  intros Hwf Hr. unfold surviving in Hr.
  set (e := Result_make (kCategoryCount self) time (data_int8 tensor)) in *.
  destruct (prune_loop_contents
              (Z.to_nat (size (push_back (previous_results_ self) e)))
              (push_back (previous_results_ self) e)
              (wrap32 (time - average_window_duration_ms (cfg self)))
              (push_back_wf _ e Hwf)) as (old & E & _).
  fold (prune (push_back (previous_results_ self) e)
          (wrap32 (time - average_window_duration_ms (cfg self)))) in E.
  assert (Hin : r ∈ contents (push_back (previous_results_ self) e)).
  { rewrite E. apply elem_of_app. now right. }
  destruct (Z.ltb_spec (size (previous_results_ self)) kMaxResults) as [Hlt|Hge].
  - rewrite contents_push_back in Hin by assumption.
    apply elem_of_app in Hin as [Hin|Hin]; [now left|right].
    apply list_elem_of_singleton in Hin. now subst r.
  - left. unfold push_back in Hin.
    destruct (Z.geb_spec (size (previous_results_ self)) kMaxResults); [exact Hin|lia].
Qed.

Lemma feed_cons (self : TfLiteMicroSpeechRecognizeCommands.t) (out : Recognition)
    (tensor : TfLiteTensor) (time : Z) (rest : list (TfLiteTensor * Z)) :
  fst (feed self out ((tensor, time) :: rest))
  = (fst (fst (processLatestResults self tensor time out)),
     snd (fst (processLatestResults self tensor time out)))
    :: fst (feed (snd (processLatestResults self tensor time out))
              (snd (fst (processLatestResults self tensor time out))) rest).
Proof.
  cbn [feed]. destruct (processLatestResults self tensor time out) as [[s o] w].
  cbn [fst snd]. destruct (feed w o rest). reflexivity.
Qed.

Lemma feed_increasing (inputs : list (TfLiteTensor * Z)) :
  forall (self : TfLiteMicroSpeechRecognizeCommands.t) (out : Recognition),
  started self = true ->
  wf (previous_results_ self) ->
  Forall (fun i => dims (fst i) = [1; kCategoryCount self]
                   /\ type (fst i) = kTfLiteInt8) inputs ->
  StronglySorted Z.le (snd <$> inputs) ->
  (forall r i, r ∈ contents (previous_results_ self) -> i ∈ inputs ->
     time_ r <= snd i) ->
  Forall (fun a => fst a = kTfLiteOk) (fst (feed self out inputs)).
Proof.
  induction inputs as [|[tensor time] rest IH]; intros self out Hst Hwf Hsh Hso Hold.
  - constructor.
  - rewrite feed_cons.
    apply Forall_cons in Hsh as [[Hd Hty] Hsh]. cbn [fst] in Hd, Hty.
    cbn [fmap list_fmap snd] in Hso. apply StronglySorted_inv in Hso as [Hso Hle].
    assert (Hacc : rejects self tensor time = false).
    { apply rejects_false_iff. repeat split; try assumption.
      destruct (Z.eq_dec (size (previous_results_ self)) 0) as [E|E]; [now left|right].
      assert (Hpos : 0 < size (previous_results_ self)).
      { destruct Hwf as (_ & _ & Hs). unfold size in *. lia. }
      destruct (front_in_contents _ Hwf Hpos) as [l El].
      apply (Hold _ (tensor, time)); [rewrite El|]; constructor. }
    destruct (process_accepted_state self tensor time out Hacc)
      as (Hok & Es & _ & Ek & Est).
    constructor; [exact Hok|].
    apply IH.
    + now rewrite Est.
    + rewrite Es. apply surviving_wf, Hwf.
    + rewrite Ek. exact Hsh.
    + exact Hso.
    + intros r i Hr Hi. rewrite Es in Hr.
      destruct (surviving_subset _ _ _ _ Hwf Hr) as [Hr'|Et].
      * apply Hold; [exact Hr'|]. now constructor.
      * rewrite Et. rewrite Forall_forall in Hle. apply Hle.
        apply list_elem_of_fmap. exists i. split; [reflexivity|exact Hi].
Qed.

(** X16: a started recognizer with a positive [minimum_count] that is
    given results of the right shape and type with timestamps in
    non-decreasing order, none older than a stored result, accepts every
    one of them: no call returns [kTfLiteError]. *)
Theorem increasing_times_accepted
    (self : TfLiteMicroSpeechRecognizeCommands.t) (out : Recognition)
    (inputs : list (TfLiteTensor * Z)) :
  started self = true ->
  0 < minimum_count (cfg self) ->
  wf (previous_results_ self) ->
  Forall (fun i => dims (fst i) = [1; kCategoryCount self]
                   /\ type (fst i) = kTfLiteInt8) inputs ->
  Sorted Z.le (snd <$> inputs) ->
  (forall r i, r ∈ contents (previous_results_ self) -> i ∈ inputs ->
     time_ r <= snd i) ->
  Forall (fun a => fst a = kTfLiteOk) (fst (feed self out inputs)).
Proof.
  intros Hst _ Hwf Hsh Hso Hold. apply feed_increasing; try assumption.
  apply Sorted_StronglySorted; [|exact Hso]. intros x y z. apply Z.le_trans.
Qed.

End HistoryProps.

Module StreamWitnesses.
Import TfLiteResultsQueue TfLiteMicroSpeechRecognizeCommands.
Import StreamProps HistoryProps.

(** On the history of [warm_recognizer], with entries at 0 and 300 ms,
    the limit 200 removes the first entry. *)
Lemma prune_drops_old_prefix_witness :
  exists old,
    contents (previous_results_ warm_recognizer)
    = old ++ contents (prune (previous_results_ warm_recognizer) 200)
    /\ Forall (fun r => time_ r < 200) old
    /\ match contents (prune (previous_results_ warm_recognizer) 200) with
       | [] => True
       | r :: _ => 200 <= time_ r
       end.
Proof.
  apply (prune_drops_old_prefix (previous_results_ warm_recognizer) 200).
  repeat split; vm_compute; congruence.
Defined.

(** A third result for [warm_recognizer], at 600 ms. *)
Lemma accepted_result_is_newest_witness :
  back (previous_results_
          (snd (processLatestResults warm_recognizer (scores_tensor [-128; 127])
                  600 no_recognition)))
  = Result_make 2 600 [-128; 127].
Proof.
  destruct (accepted_result_is_newest warm_recognizer (scores_tensor [-128; 127])
              600 no_recognition) as (old & kept & _ & _ & _ & E).
  - repeat split; vm_compute; congruence.
  - reflexivity.
  - reflexivity.
  - vm_compute. congruence.
  - vm_compute. congruence.
  - vm_compute. congruence.
  - exact E.
Defined.

(** A result at 60 ms for a recognizer whose history holds the results
    of 0 to 49 ms: the call succeeds and the history is unchanged. *)
Lemma full_history_ignores_result_witness :
  fst (fst (processLatestResults crowded_recognizer (scores_tensor [-128; 127])
              60 no_recognition)) = kTfLiteOk
  /\ previous_results_
       (snd (processLatestResults crowded_recognizer (scores_tensor [-128; 127])
               60 no_recognition))
     = previous_results_ crowded_recognizer.
Proof.
  apply (full_history_ignores_result crowded_recognizer
           (scores_tensor [-128; 127]) 60 no_recognition).
  - vm_compute. reflexivity.
  - vm_compute. reflexivity.
  - vm_compute. split; congruence.
  - vm_compute. congruence.
Defined.

(** The third result for [warm_recognizer] is reported with the score
    255. *)
Lemma score_within_uint8_witness :
  0 <= score (snd (fst (processLatestResults warm_recognizer
                          (scores_tensor [-128; 127]) 600 no_recognition)))
    <= 255.
Proof.
  apply (score_within_uint8 warm_recognizer (scores_tensor [-128; 127]) 600
           no_recognition).
  - repeat split; vm_compute; congruence.
  - vm_compute. reflexivity.
  - vm_compute. reflexivity.
Defined.

(** Three results, 300 ms apart, for a recognizer that was just started. *)
Lemma increasing_times_accepted_witness :
  Forall (fun a : TfLiteStatus * Recognition => fst a = kTfLiteOk)
    (fst (feed (started_recognizer 99 [10; 20]) no_recognition
            [(scores_tensor [-128; 127], 0); (scores_tensor [-128; 127], 300);
             (scores_tensor [-128; 127], 600)])).
Proof.
  apply (increasing_times_accepted (started_recognizer 99 [10; 20]) no_recognition).
  - reflexivity.
  - vm_compute. reflexivity.
  - repeat split; vm_compute; congruence.
  - repeat constructor.
  - repeat constructor; vm_compute; congruence.
  - intros r i Hr _. vm_compute in Hr. inversion Hr.
Defined.

End StreamWitnesses.

(* ------------------------------------------------------------------ *)
(** ** Quantization at the ends of the range *)
(* ------------------------------------------------------------------ *)

Module ScaleFacts.
Import Float32 TfQuantizer.

Lemma quantize_feature_unsigned (raw : Z) :
  0 <= raw <= 65535 ->
  quantize_feature raw = clamp (-128) 127 ((raw * 256 + 333) / 666 - 128).
Proof.
  intros H. unfold quantize_feature, value_scale. rewrite value_div_eq.
  change (666 ÷ 2) with 333.
  rewrite (wrap32_small (raw * 256)) by (unfold INT32_MIN, INT32_MAX; lia).
  rewrite (wrap32_small (raw * 256 + 333)) by (unfold INT32_MIN, INT32_MAX; lia).
  rewrite Z.quot_div_nonneg by lia.
  set (v := (raw * 256 + 333) / 666).
  assert (Hv : 0 <= v <= 25192).
  { unfold v. split.
    - apply Z.div_pos; lia.
    - apply Z.div_le_upper_bound; lia. }
  rewrite (wrap32_small (v - 128)) by (unfold INT32_MIN, INT32_MAX; lia).
  unfold clamp.
  destruct (Z.ltb_spec (v - 128) (-128)).
  - change (-128 >? 127) with false. cbv iota. rewrite wrap8_small; lia.
  - destruct (Z.gtb_spec (v - 128) 127); rewrite wrap8_small; lia.
Qed.

(** X17: on the unsigned 16-bit values of the frontend the feature
    quantization is monotone and stays within the int8 range; the values 0
    and 1 give -128 and every value from 663 on gives 127. *)
Theorem quantize_feature_monotone (a b : Z) :
  0 <= a <= b -> b <= 65535 ->
  -128 <= quantize_feature a <= quantize_feature b
  /\ quantize_feature b <= 127
  /\ (quantize_feature b = -128 <-> b <= 1)
  /\ (quantize_feature a = 127 <-> 663 <= a).
Proof.
  intros Hab Hb.
  rewrite !quantize_feature_unsigned by lia. unfold clamp.
  assert (Hm : (a * 256 + 333) / 666 <= (b * 256 + 333) / 666)
    by (apply Z.div_le_mono; lia).
  assert (Ha0 : 0 <= (a * 256 + 333) / 666) by (apply Z.div_pos; lia).
  assert (Hb1 : (b * 256 + 333) / 666 = 0 <-> b <= 1).
  { rewrite Z.div_small_iff by lia. lia. }
  assert (Ha2 : 255 <= (a * 256 + 333) / 666 <-> 663 <= a).
  { split; intros H.
    - destruct (Z_lt_le_dec a 663) as [Hlt|]; [|assumption].
      assert ((a * 256 + 333) / 666 < 255) by (apply Z.div_lt_upper_bound; lia).
      lia.
    - apply Z.div_le_lower_bound; lia. }
  lia.
Qed.

Lemma div_by_zero_not_finite (value scale : float) :
  eqb scale zero = true -> is_finite (div value scale) = false
                          \/ div value scale = S754_nan.
Proof.
  unfold eqb, SFeqb, zero, div, SFdiv.
  destruct scale as [s|s| |s m e]; cbn; try discriminate.
  - intros _. destruct value; cbn; auto.
  - destruct s; discriminate.
  - destruct s; discriminate.
Qed.

Lemma to_int8_not_finite (y : float) :
  is_finite y = false -> to_int8 y = None.
Proof. destruct y; cbn; try discriminate; reflexivity. Qed.

Lemma add_not_finite (x y : float) :
  is_finite x = false -> is_finite (add x y) = false.
Proof.
  destruct x as [| sx | |]; cbn; try discriminate; intros _.
  - destruct y as [| sy | |]; cbn; try reflexivity.
    destruct sx, sy; reflexivity.
  - reflexivity.
Qed.

(** X18: with a scale of zero and a zero point other than zero,
    [quantize] divides by zero: the quotient is an infinity or not a
    number, and its conversion to int8 is undefined, whatever the value. *)
Theorem quantize_zero_scale_undefined (value scale zero_point : float) :
  eqb scale zero = true -> eqb zero_point zero = false ->
  quantize value scale zero_point = None.
Proof.
  intros Hs Hz. unfold quantize. rewrite Hs, Hz. cbn [andb].
  apply to_int8_not_finite, add_not_finite.
  destruct (div_by_zero_not_finite value scale Hs) as [H|H]; [exact H|].
  rewrite H. reflexivity.
Qed.

End ScaleFacts.

Module ScaleWitnesses.
Import Float32 TfQuantizer ScaleFacts.

(** The raw values 100 and 700. *)
Lemma quantize_feature_monotone_witness :
  -128 <= quantize_feature 100 <= quantize_feature 700
  /\ quantize_feature 700 <= 127.
Proof.
  destruct (quantize_feature_monotone 100 700) as (H1 & H2 & _); [lia|lia|].
  split; assumption.
Defined.

(** The value 1 with the scale 0 and the zero point 3. *)
Lemma quantize_zero_scale_undefined_witness :
  quantize (of_int 1) zero (of_int 3) = None.
Proof.
  apply (quantize_zero_scale_undefined (of_int 1) zero (of_int 3)); reflexivity.
Defined.

End ScaleWitnesses.

(* ------------------------------------------------------------------ *)
(** ** The writer over a stream of samples *)
(* ------------------------------------------------------------------ *)

Module FrameFacts.

Lemma frame_count_small (size stride n : nat) :
  (n < size)%nat -> frame_count size stride n = 0%nat.
Proof.
  intros H. unfold frame_count.
  destruct (Nat.ltb_spec n size); [reflexivity|lia].
Qed.

Lemma frame_count_step (size stride n : nat) :
  (size <= n)%nat -> (0 < stride <= size)%nat ->
  frame_count size stride n = S (frame_count size stride (n - stride)).
Proof.
  intros Hn Hs. unfold frame_count.
  destruct (Nat.ltb_spec n size); [lia|].
  destruct (Nat.ltb_spec (n - stride) size) as [Hlt|Hge].
  - rewrite Nat.div_small by lia. reflexivity.
  - f_equal.
    replace (n - size)%nat with ((n - stride - size) + 1 * stride)%nat by lia.
    rewrite Nat.div_add by lia. lia.
Qed.

Lemma frames_small (size stride : nat) (l : list Z) :
  (length l < size)%nat -> frames size stride l = [].
Proof. intros H. unfold frames. now rewrite frame_count_small. Qed.

Lemma frames_step (size stride : nat) (l : list Z) :
  (size <= length l)%nat -> (0 < stride <= size)%nat ->
  frames size stride l = take size l :: frames size stride (drop stride l).
Proof.
  intros Hn Hs. unfold frames.
  rewrite frame_count_step by assumption. rewrite length_drop.
  cbn [seq fmap list_fmap Nat.mul drop]. f_equal.
  rewrite <- fmap_S_seq, <- list_fmap_compose.
  apply list_fmap_ext. intros _ k _. cbn. rewrite drop_drop. reflexivity.
Qed.

Lemma wrap_add_l (w a b : Z) : 0 < w -> wrap w (wrap w a + b) = wrap w (a + b).
Proof.
  intros Hw. unfold wrap.
  assert (Hp : 0 < 2 ^ w) by (apply Z.pow_pos_nonneg; lia).
  f_equal.
  replace ((a + 2 ^ (w - 1)) mod 2 ^ w - 2 ^ (w - 1) + b + 2 ^ (w - 1))
    with ((a + 2 ^ (w - 1)) mod 2 ^ w + b) by lia.
  rewrite Zplus_mod_idemp_l. f_equal. lia.
Qed.

Lemma wrap32_add_l (a b : Z) : wrap32 (wrap32 a + b) = wrap32 (a + b).
Proof. unfold wrap32. apply wrap_add_l. lia. Qed.

End FrameFacts.

Module PipelineFacts.
Import TfLiteMicroSpeachWriter FrameFacts.

Section WithInterpreter.
Variable FrontendState : Type.
Variable FrontendProcessSamples : FrontendState -> list Z -> FrontendState * list Z.
Variable Interpreter : Type.
Variable Invoke : Interpreter -> list Z -> TfLiteStatus * TfLiteTensor * Interpreter.
Variable Recognizer : Type.
Variable ProcessLatestResults :
  Recognizer -> TfLiteTensor -> Z -> Recognition
  -> TfLiteStatus * Recognition * Recognizer.

(** [addSlice] on a full ring buffer: the frontend receives the whole
    window, and the samples after the stride stay for the next one. *)
Lemma addSlice_full (w : TfLiteMicroSpeachWriter.t FrontendState) (size stride : nat) :
  kMaxAudioSampleSize w = Z.of_nat size ->
  kStrideSampleSize w = Z.of_nat stride ->
  kKeepSampleSize w = Z.of_nat size - Z.of_nat stride ->
  (0 < stride <= size)%nat ->
  RingBuffer.max_size (p_buffer w) = Z.of_nat size ->
  length (RingBuffer.items (p_buffer w)) = size ->
  length (p_audio_samples w) = size ->
  let w' := addSlice FrontendProcessSamples w in
  g_micro_features_state w'
  = fst (FrontendProcessSamples (g_micro_features_state w)
           (RingBuffer.items (p_buffer w)))
  /\ RingBuffer.items (p_buffer w') = drop stride (RingBuffer.items (p_buffer w))
  /\ RingBuffer.max_size (p_buffer w') = Z.of_nat size
  /\ p_audio_samples w' = RingBuffer.items (p_buffer w)
  /\ cfg w' = cfg w
  /\ kMaxAudioSampleSize w' = kMaxAudioSampleSize w
  /\ kStrideSampleSize w' = kStrideSampleSize w
  /\ kKeepSampleSize w' = kKeepSampleSize w
  /\ current_time w' = current_time w
  /\ total_slice_count w' = total_slice_count w.
Proof.
  intros HM HS HK Hs Hmax Hlen Haud.
  set (block := RingBuffer.items (p_buffer w)) in *.
  unfold addSlice, RingBuffer.readArray. fold block.
  rewrite HM, HS, HK, Nat2Z.id.
  assert (Et : take size block = block) by (apply take_ge; lia).
  assert (Ed : drop size block = []) by (apply drop_ge; lia).
  rewrite Et, Ed.
  assert (Ea : store_at (p_audio_samples w) 0 block = block).
  { rewrite store_at_spec by (cbn; lia). rewrite take_0. cbn [app Nat.add].
    rewrite drop_ge by lia. apply app_nil_r. }
  rewrite Ea, Hlen, Et.
  unfold generateMicroFeatures.
  destruct (FrontendProcessSamples (g_micro_features_state w) block)
    as [frontend values].
  cbn [g_micro_features_state p_buffer p_audio_samples cfg kMaxAudioSampleSize
       kStrideSampleSize kKeepSampleSize current_time total_slice_count fst].
  unfold RingBuffer.writeArray, RingBuffer.availableForWrite, RingBuffer.available.
  cbn [RingBuffer.items RingBuffer.max_size snd length app].
  rewrite Hmax.
  replace (Z.to_nat (Z.of_nat size - Z.of_nat stride)) with (size - stride)%nat by lia.
  replace (Z.to_nat (Z.of_nat size - Z.of_nat 0)) with size by lia.
  rewrite Nat2Z.id.
  rewrite (take_ge (drop stride block)) by (rewrite length_drop; lia).
  rewrite take_ge by (rewrite length_drop; lia).
  repeat split.
Qed.

Lemma write1_mono (w : TfLiteMicroSpeachWriter.t FrontendState) (x : Z)
    (size stride : nat) :
  ready w size stride ->
  write1 w x
  = (Z.of_nat size - Z.of_nat (S (length (RingBuffer.items (p_buffer w)))) >? 0,
     with_buffer FrontendState w
       {| RingBuffer.max_size := Z.of_nat size;
          RingBuffer.items := RingBuffer.items (p_buffer w) ++ [x] |}).
Proof.
  intros (Hc & HM & HS & HK & Hs & Hmax & Hlen & Haud).
  unfold write1. rewrite Hc. change (1 =? 1) with true. cbv iota.
  unfold RingBuffer.write, RingBuffer.availableForWrite, RingBuffer.available.
  rewrite Hmax.
  destruct (Z.gtb_spec (Z.of_nat size
                        - Z.of_nat (length (RingBuffer.items (p_buffer w)))) 0);
    [|lia].
  cbn [snd with_buffer p_buffer RingBuffer.max_size RingBuffer.items].
  rewrite length_app. cbn [length]. rewrite Nat.add_1_r. reflexivity.
Qed.

Lemma processSlices_this (env : linked FrontendState Interpreter Recognizer) :
  this (snd (processSlices Invoke ProcessLatestResults env)) = this env.
Proof.
  unfold processSlices.
  destruct (Invoke _ _) as [[[|] output] interp]; [|reflexivity].
  destruct (ProcessLatestResults _ _ _ _)
    as [[[|] out] recognizer]; reflexivity.
Qed.

Lemma processSlices_responses (env : linked FrontendState Interpreter Recognizer) :
  (length (responses (snd (processSlices Invoke ProcessLatestResults env)))
   <= S (length (responses env)))%nat.
Proof.
  unfold processSlices.
  destruct (Invoke _ _) as [[[|] output] interp]; [|cbn; lia].
  destruct (ProcessLatestResults _ _ _ _)
    as [[[|] out] recognizer]; cbn; rewrite ?length_app; cbn; lia.
Qed.

(** One call of [write] on a writer for one channel. *)
Lemma write_mono_step (env : linked FrontendState Interpreter Recognizer) (x : Z)
    (size stride : nat) :
  ready (this env) size stride ->
  let w := this env in
  let b := RingBuffer.items (p_buffer w) in
  let w' := this (snd (write FrontendProcessSamples Invoke ProcessLatestResults env x)) in
  ready w' size stride
  /\ cfg w' = cfg w
  /\ ((S (length b) < size)%nat ->
      RingBuffer.items (p_buffer w') = b ++ [x]
      /\ g_micro_features_state w' = g_micro_features_state w
      /\ current_time w' = current_time w
      /\ total_slice_count w' = total_slice_count w)
  /\ (S (length b) = size ->
      RingBuffer.items (p_buffer w') = drop stride (b ++ [x])
      /\ g_micro_features_state w'
         = fst (FrontendProcessSamples (g_micro_features_state w) (b ++ [x]))
      /\ current_time w'
         = wrap32 (current_time w + kFeatureSliceStrideMs (cfg w))
      /\ total_slice_count w'
         = if wrap16 (total_slice_count w + 1) >=? kSlicesToProcess (cfg w)
           then 0 else wrap16 (total_slice_count w + 1))
  /\ (1 <= kSlicesToProcess (cfg w) <= 32767 ->
      0 <= total_slice_count w < kSlicesToProcess (cfg w) ->
      Z.of_nat (length (responses (snd (write FrontendProcessSamples Invoke ProcessLatestResults env x))))
      <= Z.of_nat (length (responses env))
         + if decide (S (length b) = size)
           then (total_slice_count w + 1) / kSlicesToProcess (cfg w) else 0).
Proof.
  intros Hr w b w'.
  pose proof Hr as (Hc & HM & HS & HK & Hs & Hmax & Hlen & Haud).
  fold w in Hc, HM, HS, HK, Hmax, Hlen, Haud. fold b in Hlen.
  unfold w', write. rewrite (write1_mono _ x size stride Hr). fold w b.
  destruct (Z.gtb_spec (Z.of_nat size - Z.of_nat (S (length b))) 0) as [Hroom|Hfull].
  - (* the sample fits and the buffer still has room *)
    cbn [snd this with_this responses].
    split; [|split; [reflexivity|split; [|split; [intros; lia|]]]].
    + unfold ready. cbn [with_buffer cfg kMaxAudioSampleSize kStrideSampleSize
                         kKeepSampleSize p_buffer p_audio_samples
                         RingBuffer.max_size RingBuffer.items].
      rewrite length_app. cbn [length]. repeat split; try assumption; lia.
    + intros _. repeat split.
    + intros _ _. rewrite decide_False by lia. lia.
  - (* the sample fills the buffer: a slice is made *)
    assert (Hsz : S (length b) = size) by lia.
    set (w1 := with_time FrontendState
                 (with_buffer FrontendState w
                    {| RingBuffer.max_size := Z.of_nat size;
                       RingBuffer.items := b ++ [x] |})
                 (wrap32 (current_time w + kFeatureSliceStrideMs (cfg w)))
                 (wrap16 (total_slice_count w + 1))).
    destruct (addSlice_full w1 size stride) as
      (Eg & Ei & Em & Ea & Ec & EM & ES & EK & Et & En);
      try assumption;
      try (cbn [w1 with_time with_buffer p_buffer p_audio_samples
                RingBuffer.items RingBuffer.max_size]; try assumption;
           rewrite ?length_app; cbn [length]; lia).
    cbn [w1 with_time with_buffer p_buffer p_audio_samples cfg
         g_micro_features_state kMaxAudioSampleSize kStrideSampleSize
         kKeepSampleSize current_time total_slice_count
         RingBuffer.items RingBuffer.max_size] in Eg, Ei, Em, Ea, Ec, EM, ES, EK, Et, En.
    cbn [with_buffer with_time cfg current_time total_slice_count].
    fold w1.
    assert (Hready : ready (addSlice FrontendProcessSamples w1) size stride).
    { unfold ready. rewrite Ec, EM, ES, EK, Em, Ei, Ea.
      rewrite length_drop, length_app. cbn [length].
      repeat split; try assumption; lia. }
    rewrite Ec. rewrite (decide_True _ _ Hsz).
    destruct (Z.geb_spec (wrap16 (total_slice_count w + 1))
                (kSlicesToProcess (cfg w))) as [Hrun|Hwait].
    + cbn [snd this with_this responses]. rewrite processSlices_this.
      cbn [this with_this with_time cfg kMaxAudioSampleSize kStrideSampleSize
           kKeepSampleSize p_buffer p_audio_samples g_micro_features_state
           current_time total_slice_count].
      split; [|split; [exact Ec|split; [intros; lia|split]]].
      * destruct Hready as (A1 & A2 & A3 & A4 & A5 & A6 & A7 & A8).
        unfold ready. cbn [with_time cfg kMaxAudioSampleSize kStrideSampleSize
           kKeepSampleSize p_buffer p_audio_samples]. repeat split; assumption || lia.
      * intros _. repeat split; assumption.
      * intros Hp Hcn. rewrite wrap16_small in Hrun by lia.
        replace (total_slice_count w + 1) with (kSlicesToProcess (cfg w)) by lia.
        rewrite Z.div_same by lia.
        pose proof (processSlices_responses
                      (with_this FrontendState Interpreter Recognizer env
                         (addSlice FrontendProcessSamples w1))) as Hl.
        cbn [with_this responses] in Hl. lia.
    + cbn [snd this with_this responses].
      split; [exact Hready|split; [exact Ec|split; [intros; lia|split]]].
      * intros _. repeat split; assumption.
      * intros Hp Hcn.
        assert (0 <= (total_slice_count w + 1) / kSlicesToProcess (cfg w))
          by (apply Z.div_pos; lia).
        lia.
Qed.

Lemma write_all_cons (env : linked FrontendState Interpreter Recognizer) (x : Z) (xs : list Z) :
  write_all FrontendProcessSamples Invoke ProcessLatestResults env (x :: xs)
  = write_all FrontendProcessSamples Invoke ProcessLatestResults
      (snd (write FrontendProcessSamples Invoke ProcessLatestResults env x)) xs.
Proof. reflexivity. Qed.

Lemma slice_counter_step (c p : Z) :
  1 <= p <= 32767 -> 0 <= c < p ->
  (if wrap16 (c + 1) >=? p then 0 else wrap16 (c + 1)) = (c + 1) mod p.
Proof.
  intros Hp Hc. rewrite wrap16_small by lia.
  destruct (Z.geb_spec (c + 1) p).
  - replace (c + 1) with p by lia. now rewrite Z.mod_same by lia.
  - now rewrite Z.mod_small by lia.
Qed.

(** A block of samples on a writer for one channel. *)
Lemma write_all_mono (xs : list Z) :
  forall (env : linked FrontendState Interpreter Recognizer) (size stride : nat),
  ready (this env) size stride ->
  let w := this env in
  let l := RingBuffer.items (p_buffer w) ++ xs in
  let n := frame_count size stride (length l) in
  let w' := this (write_all FrontendProcessSamples Invoke ProcessLatestResults env xs) in
  ready w' size stride
  /\ cfg w' = cfg w
  /\ g_micro_features_state w'
     = foldl (fun st block => fst (FrontendProcessSamples st block))
         (g_micro_features_state w) (frames size stride l)
  /\ RingBuffer.items (p_buffer w') = drop (n * stride) l
  /\ current_time w'
     = match n with
       | O => current_time w
       | S _ => wrap32 (current_time w
                        + Z.of_nat n * kFeatureSliceStrideMs (cfg w))
       end
  /\ (1 <= kSlicesToProcess (cfg w) <= 32767 ->
      0 <= total_slice_count w < kSlicesToProcess (cfg w) ->
      total_slice_count w'
      = (total_slice_count w + Z.of_nat n) mod kSlicesToProcess (cfg w)
      /\ Z.of_nat (length (responses
                             (write_all FrontendProcessSamples Invoke ProcessLatestResults env xs)))
         <= Z.of_nat (length (responses env))
            + (total_slice_count w + Z.of_nat n) / kSlicesToProcess (cfg w)).
Proof.
  induction xs as [|x xs IH]; intros env size stride Hr w l n w'.
  - pose proof Hr as (Hc & HM & HS & HK & Hs & Hmax & Hlen & Haud).
    unfold w', n, l. cbn [write_all foldl]. fold w. rewrite app_nil_r.
    fold w in Hlen.
    rewrite frames_small, frame_count_small by exact Hlen.
    cbn [foldl Nat.mul drop]. rewrite Z.add_0_r.
    split; [exact Hr|]. split; [reflexivity|]. split; [reflexivity|].
    split; [reflexivity|]. split; [reflexivity|].
    intros Hp Hcn. rewrite Z.mod_small, Z.div_small by lia. split; [reflexivity|lia].
  - pose proof Hr as (Hc & HM & HS & HK & Hs & Hmax & Hlen & Haud).
    fold w in Hlen.
    destruct (write_mono_step env x size stride Hr)
      as (Hr1 & Ec1 & Hroom & Hfull & Hresp).
    fold w in Ec1, Hroom, Hfull, Hresp.
    set (env1 := snd (write FrontendProcessSamples Invoke ProcessLatestResults env x)) in *.
    specialize (IH env1 size stride Hr1). cbv zeta in IH.
    destruct IH as (Hr' & Ec' & Eg' & Ei' & Et' & En').
    unfold w'. rewrite write_all_cons. fold env1.
    split; [exact Hr'|]. split; [now rewrite Ec', Ec1|].
    set (b := RingBuffer.items (p_buffer w)) in *.
    destruct (decide (S (length b) < size)%nat) as [Hlt|Hge].
    + (* no slice at this sample *)
      destruct (Hroom Hlt) as (Ei1 & Eg1 & Et1 & En1).
      rewrite Ei1, <- app_assoc in Eg', Ei', Et', En'. cbn [app] in Eg', Ei', Et', En'.
      fold l in Eg', Ei', Et', En'. fold n in Ei', Et', En'.
      rewrite Eg1 in Eg'. rewrite Et1, Ec1 in Et'. rewrite En1, Ec1 in En'.
      split; [exact Eg'|]. split; [exact Ei'|]. split; [exact Et'|].
      intros Hp Hcn. destruct (En' Hp Hcn) as [En2 Hl2]. split; [exact En2|].
      specialize (Hresp Hp Hcn). rewrite decide_False in Hresp by lia. lia.
    + (* a slice at this sample *)
      assert (Hsz : S (length b) = size) by lia.
      destruct (Hfull Hsz) as (Ei1 & Eg1 & Et1 & En1).
      assert (Hbx : length (b ++ [x]) = size)
        by (rewrite length_app; cbn [length]; lia).
      assert (El : l = (b ++ [x]) ++ xs)
        by (unfold l; rewrite <- app_assoc; reflexivity).
      assert (Hd : drop stride l = drop stride (b ++ [x]) ++ xs)
        by (rewrite El; apply drop_app_le; lia).
      assert (Hll : (size <= length l)%nat)
        by (rewrite El, length_app; lia).
      assert (Hn : n = S (frame_count size stride (length (drop stride l)))).
      { unfold n. rewrite frame_count_step by assumption.
        now rewrite length_drop. }
      rewrite Ei1, <- Hd in Eg', Ei', Et', En'.
      set (n1 := frame_count size stride (length (drop stride l))) in *.
      split; [|split; [|split]].
      * rewrite Eg', Eg1, (frames_step size stride l) by assumption.
        cbn [foldl]. rewrite El at 2. rewrite take_app_length' by (symmetry; exact Hbx).
        reflexivity.
      * rewrite Ei', Hn, drop_drop. reflexivity.
      * rewrite Et', Et1, Ec1, Hn.
        destruct n1 as [|n1].
        -- f_equal. lia.
        -- rewrite wrap32_add_l. f_equal. lia.
      * intros Hp Hcn.
        assert (Ec : total_slice_count (this env1)
                     = (total_slice_count w + 1) mod kSlicesToProcess (cfg w)).
        { rewrite En1. apply slice_counter_step; assumption. }
        rewrite Ec, Ec1 in En'.
        destruct En' as [En2 Hl2];
          [exact Hp | apply Z.mod_pos_bound; lia |].
        specialize (Hresp Hp Hcn). rewrite (decide_True _ _ Hsz) in Hresp.
        split.
        -- rewrite En2, Zplus_mod_idemp_l, Hn. f_equal. lia.
        -- rewrite Hn.
           replace (total_slice_count w + Z.of_nat (S n1))
             with (Z.of_nat n1 + (total_slice_count w + 1)) by lia.
           rewrite (Z.div_mod (total_slice_count w + 1) (kSlicesToProcess (cfg w)))
             at 1 by lia.
           replace (Z.of_nat n1
                    + (kSlicesToProcess (cfg w)
                       * ((total_slice_count w + 1) / kSlicesToProcess (cfg w))
                       + (total_slice_count w + 1) mod kSlicesToProcess (cfg w)))
             with ((total_slice_count w + 1) mod kSlicesToProcess (cfg w)
                   + Z.of_nat n1
                   + (total_slice_count w + 1) / kSlicesToProcess (cfg w)
                     * kSlicesToProcess (cfg w)) by lia.
           rewrite Z.div_add by lia. lia.
Qed.

Lemma begin_ready (c : TfLiteConfig) (st : FrontendState) :
  channels c = 1 ->
  0 < strideSampleSize c <= audioSampleSize c ->
  ready (begin c st) (Z.to_nat (audioSampleSize c)) (Z.to_nat (strideSampleSize c)).
Proof.
  intros Hc Hs. unfold ready, begin.
  cbn [cfg kMaxAudioSampleSize kStrideSampleSize kKeepSampleSize p_buffer
       p_audio_samples RingBuffer.create RingBuffer.max_size RingBuffer.items
       length].
  rewrite length_replicate. repeat split; try assumption; lia.
Qed.

(** One call of [write] on a writer for several channels. *)
Lemma write_stereo_step (env : linked FrontendState Interpreter Recognizer) (x : Z) :
  channels (cfg (this env)) <> 1 -> channel (this env) = 0 ->
  0 < RingBuffer.availableForWrite (p_buffer (this env)) ->
  snd (write FrontendProcessSamples Invoke ProcessLatestResults env x)
  = with_this FrontendState Interpreter Recognizer env
      (with_channel FrontendState (this env) x 0).
Proof.
  intros Hc H0 Hroom. unfold write, write1.
  destruct (Z.eqb_spec (channels (cfg (this env))) 1); [contradiction|].
  rewrite H0. change (0 =? 0) with true. cbv iota.
  cbn [with_channel p_buffer last_value].
  destruct (Z.gtb_spec (RingBuffer.availableForWrite (p_buffer (this env))) 0);
    [reflexivity|lia].
Qed.

Lemma write_all_stereo (xs : list Z) :
  forall env : linked FrontendState Interpreter Recognizer,
  channels (cfg (this env)) <> 1 -> channel (this env) = 0 ->
  0 < RingBuffer.availableForWrite (p_buffer (this env)) ->
  let env' := write_all FrontendProcessSamples Invoke ProcessLatestResults env xs in
  p_buffer (this env') = p_buffer (this env)
  /\ g_micro_features_state (this env') = g_micro_features_state (this env)
  /\ p_feature_data (this env') = p_feature_data (this env)
  /\ current_time (this env') = current_time (this env)
  /\ recognizeCommands env' = recognizeCommands env
  /\ interpreter env' = interpreter env
  /\ responses env' = responses env.
Proof.
  induction xs as [|x xs IH]; intros env Hc H0 Hroom; [repeat split|].
  cbv zeta. rewrite write_all_cons, (write_stereo_step env x Hc H0 Hroom).
  apply (IH (with_this FrontendState Interpreter Recognizer env
               (with_channel FrontendState (this env) x 0)));
    [exact Hc | reflexivity | exact Hroom].
Qed.

Lemma foldl_cells {A : Type} (f : A -> Z -> A) (samples : list Z) (n : nat) (a : A) :
  (n <= length samples)%nat ->
  foldl (fun w (j : nat) => f w (cell samples j)) a (seq 0 n)
  = foldl f a (take n samples).
Proof.
  induction n as [|n IH]; intros Hn; [now rewrite take_0|].
  destruct (lookup_lt_is_Some_2 samples n ltac:(lia)) as [x Hx].
  rewrite seq_S, foldl_app, IH by lia. cbn [foldl Nat.add].
  rewrite (take_S_r _ _ _ Hx), foldl_app. cbn [foldl].
  unfold cell. now rewrite Hx.
Qed.

End WithInterpreter.

Section Pipeline.
Variable FrontendState : Type.
Variable FrontendProcessSamples : FrontendState -> list Z -> FrontendState * list Z.
Variable Interpreter : Type.
Variable Invoke : Interpreter -> list Z -> TfLiteStatus * TfLiteTensor * Interpreter.
Variable Recognizer : Type.
Variable ProcessLatestResults :
  Recognizer -> TfLiteTensor -> Z -> Recognition
  -> TfLiteStatus * Recognition * Recognizer.

(** X19: a writer for one channel, from [begin] on, hands the frontend
    the windows of [audioSampleSize] samples that start every
    [strideSampleSize] samples, in order and without losing a sample: the
    state of the frontend is the one reached over those windows, and the
    ring buffer holds the samples from the start of the next window on. *)
Theorem write_feeds_overlapping_windows
    (env : linked FrontendState Interpreter Recognizer) (c : TfLiteConfig)
    (st : FrontendState) (xs : list Z) :
  this env = begin c st ->
  channels c = 1 ->
  0 < strideSampleSize c <= audioSampleSize c ->
  let size := Z.to_nat (audioSampleSize c) in
  let stride := Z.to_nat (strideSampleSize c) in
  let w' := this (write_all FrontendProcessSamples Invoke ProcessLatestResults env xs) in
  g_micro_features_state w'
  = foldl (fun st block => fst (FrontendProcessSamples st block)) st
      (frames size stride xs)
  /\ RingBuffer.items (p_buffer w')
     = drop (frame_count size stride (length xs) * stride) xs.
Proof.
  intros Hb Hc Hs size stride w'.
  pose proof (begin_ready FrontendState c st Hc Hs) as Hr. rewrite <- Hb in Hr.
  destruct (write_all_mono FrontendState FrontendProcessSamples Interpreter
              Invoke Recognizer ProcessLatestResults xs env size stride Hr) as (_ & _ & Eg & Ei & _).
  rewrite Hb in Eg, Ei. cbn [begin p_buffer g_micro_features_state
    RingBuffer.create RingBuffer.items app] in Eg, Ei.
  split; assumption.
Qed.

(** X20: over the same stream the clock of the writer advances by
    [kFeatureSliceStrideMs] with every slice, the slice counter is the
    number of slices modulo [kSlicesToProcess], and [respondToCommand] is
    called at most once for every [kSlicesToProcess] slices. *)
Theorem write_clock_counts_slices
    (env : linked FrontendState Interpreter Recognizer) (c : TfLiteConfig)
    (st : FrontendState) (xs : list Z) :
  this env = begin c st ->
  channels c = 1 ->
  0 < strideSampleSize c <= audioSampleSize c ->
  1 <= kSlicesToProcess c <= 32767 ->
  let n := Z.of_nat (frame_count (Z.to_nat (audioSampleSize c))
                       (Z.to_nat (strideSampleSize c)) (length xs)) in
  let env' := write_all FrontendProcessSamples Invoke ProcessLatestResults env xs in
  current_time (this env') = wrap32 (n * kFeatureSliceStrideMs c)
  /\ total_slice_count (this env') = n mod kSlicesToProcess c
  /\ Z.of_nat (length (responses env'))
     <= Z.of_nat (length (responses env)) + n / kSlicesToProcess c.
Proof.
  intros Hb Hc Hs Hp n env'.
  pose proof (begin_ready FrontendState c st Hc Hs) as Hr. rewrite <- Hb in Hr.
  destruct (write_all_mono FrontendState FrontendProcessSamples Interpreter
              Invoke Recognizer ProcessLatestResults xs env _ _ Hr) as (_ & _ & _ & _ & Et & En).
  rewrite Hb in Et, En. cbn [begin p_buffer cfg current_time total_slice_count
    RingBuffer.create RingBuffer.items app] in Et, En.
  fold n in Et, En. rewrite !Z.add_0_l in En.
  destruct (En Hp ltac:(lia)) as [En1 En2].
  fold env' in Et, En1, En2. split; [|split; assumption].
  rewrite Et. unfold n.
  destruct (frame_count _ _ _); [reflexivity|]. now rewrite Z.add_0_l.
Qed.

(** X21: a writer for more than one channel never completes a window:
    whatever samples are written, the ring buffer stays empty, the
    frontend and the interpreter are never run, the recognizer sees no
    result and [respondToCommand] is never called. *)
Theorem write_stereo_never_slices
    (env : linked FrontendState Interpreter Recognizer) (c : TfLiteConfig)
    (st : FrontendState) (xs : list Z) :
  this env = begin c st ->
  channels c <> 1 ->
  0 < audioSampleSize c ->
  let env' := write_all FrontendProcessSamples Invoke ProcessLatestResults env xs in
  RingBuffer.items (p_buffer (this env')) = []
  /\ g_micro_features_state (this env') = st
  /\ p_feature_data (this env') = replicate (Z.to_nat (featureElementCount c)) 0
  /\ current_time (this env') = 0
  /\ recognizeCommands env' = recognizeCommands env
  /\ interpreter env' = interpreter env
  /\ responses env' = responses env.
Proof.
  intros Hb Hc Hs.
  destruct (write_all_stereo FrontendState FrontendProcessSamples Interpreter
              Invoke Recognizer ProcessLatestResults xs env) as (E1 & E2 & E3 & E4 & E5 & E6 & E7);
    try (rewrite Hb; cbn; assumption || reflexivity).
  { rewrite Hb. unfold RingBuffer.availableForWrite, RingBuffer.available.
    cbn. lia. }
  cbv zeta. rewrite E1, E2, E3, E4, Hb. repeat split; assumption.
Qed.

(** X22: [TfLiteAudioStream::write] without a writer returns 0; with one
    it returns [bytes] whatever it has processed.  The sample count is
    kept in 16 bits: up to 32767 samples are written to the writer in
    order, and for 32768 to 65535 samples the count is negative and no
    sample is processed at all. *)
Theorem stream_write_counts_in_int16
    (self : TfLiteAudioStream.t FrontendState Interpreter Recognizer)
    (samples : list Z) (bytes : Z) :
  0 <= bytes ->
  (TfLiteAudioStream.writer self = None ->
   TfLiteAudioStream.write FrontendProcessSamples Invoke ProcessLatestResults self samples bytes
   = (0, self))
  /\ (forall w, TfLiteAudioStream.writer self = Some w ->
      let r := TfLiteAudioStream.write FrontendProcessSamples Invoke ProcessLatestResults self
                 samples bytes in
      fst r = bytes
      /\ (bytes / 2 <= 32767 -> bytes / 2 <= Z.of_nat (length samples) ->
          TfLiteAudioStream.writer (snd r)
          = Some (write_all FrontendProcessSamples Invoke ProcessLatestResults w
                    (take (Z.to_nat (bytes / 2)) samples)))
      /\ (32768 <= bytes / 2 <= 65535 -> snd r = self)).
Proof.
  intros Hb. unfold TfLiteAudioStream.write. split.
  - intros ->. reflexivity.
  - intros w Hw. rewrite Hw. cbv zeta. cbn [fst snd TfLiteAudioStream.writer].
    assert (H2 : 0 <= bytes / 2) by (apply Z.div_pos; lia).
    split; [reflexivity|]. split.
    + intros Hsmall Hlen. rewrite wrap16_small by lia.
      rewrite (foldl_cells
                 (fun w x => snd (write FrontendProcessSamples Invoke ProcessLatestResults w x)))
        by lia.
      reflexivity.
    + intros Hbig.
      assert (Hneg : wrap16 (bytes / 2) < 0).
      { unfold wrap16, wrap. change (2 ^ (16 - 1)) with 32768.
        change (2 ^ 16) with 65536.
        replace (bytes / 2 + 32768) with (bytes / 2 - 32768 + 1 * 65536) by lia.
        rewrite Z_mod_plus_full, Z.mod_small by lia. lia. }
      replace (Z.to_nat (wrap16 (bytes / 2))) with 0%nat by lia.
      cbn [seq foldl]. destruct self as [wr]. cbn in Hw. now subst wr.
Qed.

End Pipeline.
End PipelineFacts.

Module PipelineWitnesses.
Import TfLiteMicroSpeachWriter PipelineFacts.

(** Eight samples for [small_config], with windows of 4 samples every 2
    samples. *)
Lemma write_feeds_overlapping_windows_witness :
  g_micro_features_state
    (this (write_all recording_frontend sample_interpreter counting_recognizer small_linked
             [1; 2; 3; 4; 5; 6; 7; 8]))
  = [[1; 2; 3; 4]; [3; 4; 5; 6]; [5; 6; 7; 8]]
  /\ RingBuffer.items
       (p_buffer (this (write_all recording_frontend sample_interpreter counting_recognizer
                          small_linked [1; 2; 3; 4; 5; 6; 7; 8])))
     = [7; 8].
Proof.
  destruct (write_feeds_overlapping_windows _ recording_frontend _
              sample_interpreter _ counting_recognizer small_linked small_config []
              [1; 2; 3; 4; 5; 6; 7; 8]) as [E1 E2].
  - reflexivity.
  - reflexivity.
  - vm_compute. split; congruence.
  - rewrite E1, E2. split; reflexivity.
Defined.

(** Over those eight samples three slices are made, 2 ms apart, and the
    model runs once. *)
Lemma write_clock_counts_slices_witness :
  current_time (this (write_all recording_frontend sample_interpreter counting_recognizer
                        small_linked [1; 2; 3; 4; 5; 6; 7; 8])) = 6
  /\ total_slice_count (this (write_all recording_frontend sample_interpreter counting_recognizer
                                small_linked [1; 2; 3; 4; 5; 6; 7; 8])) = 1.
Proof.
  destruct (write_clock_counts_slices _ recording_frontend _
              sample_interpreter _ counting_recognizer small_linked small_config []
              [1; 2; 3; 4; 5; 6; 7; 8]) as (E1 & E2 & _).
  - reflexivity.
  - reflexivity.
  - vm_compute. split; congruence.
  - vm_compute. split; congruence.
  - rewrite E1, E2. split; reflexivity.
Defined.

(** A thousand stereo frames leave the writer as it was. *)
Lemma write_stereo_never_slices_witness :
  responses (write_all recording_frontend sample_interpreter counting_recognizer stereo_linked
               (replicate 2000 5)) = []
  /\ g_micro_features_state
       (this (write_all recording_frontend sample_interpreter counting_recognizer stereo_linked
                (replicate 2000 5))) = [].
Proof.
  destruct (write_stereo_never_slices _ recording_frontend _
              sample_interpreter _ counting_recognizer stereo_linked stereo_config []
              (replicate 2000 5)) as (_ & E2 & _ & _ & _ & _ & E7).
  - reflexivity.
  - vm_compute. congruence.
  - reflexivity.
  - rewrite E2, E7. split; reflexivity.
Defined.

(** Eight bytes hold four samples. *)
Lemma stream_write_counts_in_int16_witness :
  fst (TfLiteAudioStream.write recording_frontend sample_interpreter counting_recognizer
         {| TfLiteAudioStream.writer := Some small_linked |} [1; 2; 3; 4] 8) = 8.
Proof.
  destruct (stream_write_counts_in_int16 _ recording_frontend _
              sample_interpreter _ counting_recognizer
              {| TfLiteAudioStream.writer := Some small_linked |} [1; 2; 3; 4] 8)
    as [_ H]; [lia|].
  destruct (H small_linked eq_refl) as [E _]. exact E.
Defined.

End PipelineWitnesses.
